(** * GhostCoder: the semantic code index, modelled and checked

    A shallow embedding of the parts of GhostCoder's core that its
    specification makes promises about:

    - [syntaxFixer.js]     ([attemptSyntaxFix], [detectSyntaxErrors],
                            [smartFix]),
    - [semanticFixer.js]   ([detectExportNameTypos], [findImportAttempts],
                            [stringSimilarity], [applySemanticFixes],
                            [semanticFix]),
    - [symbolGraph.js]     ([analyzeFile], [buildSymbolGraph],
                            [buildEdges], [findReferences], the regex
                            extractors),
    - [embeddingIndex.js]  ([cosineSimilarity], [semanticSearch],
                            [findSimilarSymbols], [findSymbolsByType],
                            [findSymbolsInFile], [indexExists],
                            [deleteIndex], [sanitizeRepoId]),
    - [contextRetriever.js] ([extractRelevantSnippets],
                            [buildDependencyGraph], [buildCallGraph],
                            [formatContextForAI], [createCompactContext]).

    JavaScript strings are sequences of code units; the model keeps the
    code units 0..255 ([list ascii]).  JavaScript numbers are IEEE-754
    binary64 values ([PrimFloat.float]) wherever the source computes with
    fractions, and [nat] where it counts or indexes.  Regular expressions
    are run by a backtracking matcher that follows the ECMAScript
    matching order (leftmost match, greedy and lazy quantifiers,
    alternatives tried left to right).  Console logging is left out: no
    result of the modelled functions depends on it. *)

From Stdlib Require Import Ascii String List Bool Arith PeanoNat Lia ZArith.
From Stdlib Require Import Floats Sorted Permutation.
From stdpp Require Import gmap strings.
Import ListNotations.

Local Open Scope nat_scope.
Local Open Scope list_scope.

(* ================================================================== *)
(** * JavaScript strings *)
(* ================================================================== *)

Module JS.

(** A string is the list of its code units. *)
Definition jsstring := list ascii.

Definition code (c : ascii) : nat := nat_of_ascii c.

Definition chr_eqb (a b : ascii) : bool := Ascii.eqb a b.

Definition nl : ascii := ascii_of_nat 10.
Definition cr : ascii := ascii_of_nat 13.
Definition tab : ascii := ascii_of_nat 9.

Definition hexDigit (c : ascii) : nat :=
  let n := code c in
  if (48 <=? n) && (n <=? 57) then n - 48
  else if (97 <=? n) && (n <=? 102) then n - 87
  else if (65 <=? n) && (n <=? 70) then n - 55
  else 0.

(** String literals are written as in the JavaScript source, with its
    escapes: [\n], [\r], [\t], [\xHH], and [\c] for any other [c]. *)
Fixpoint unescape (s : list ascii) : jsstring :=
  match s with
  | [] => []
  | c :: s1 =>
      if negb (code c =? 92) then c :: unescape s1
      else match s1 with
           | [] => [c]
           | e :: s2 =>
               if code e =? 110 then nl :: unescape s2
               else if code e =? 114 then cr :: unescape s2
               else if code e =? 116 then tab :: unescape s2
               else if code e =? 120 then
                 match s2 with
                 | h :: l :: s4 =>
                     ascii_of_nat (16 * hexDigit h + hexDigit l) :: unescape s4
                 | _ => e :: unescape s2
                 end
               else e :: unescape s2
           end
  end.

Definition str (s : string) : jsstring := unescape (list_ascii_of_string s).

(** [\s], which is also the set [String.prototype.trim] strips:
    TAB, LF, VT, FF, CR, SPACE and NBSP among the code units kept. *)
Definition isSpace (c : ascii) : bool :=
  let n := code c in
  ((9 <=? n) && (n <=? 13)) || (n =? 32) || (n =? 160).

(** [\w] is ASCII only: [A-Za-z0-9_]. *)
Definition isWord (c : ascii) : bool :=
  let n := code c in
  ((48 <=? n) && (n <=? 57)) || ((65 <=? n) && (n <=? 90))
  || ((97 <=? n) && (n <=? 122)) || (n =? 95).

(** Line terminators, for [.], and for [^] and [$] under the [m] flag. *)
Definition isLineTerminator (c : ascii) : bool :=
  let n := code c in (n =? 10) || (n =? 13).

(** [String.prototype.toLowerCase] on one code unit. *)
Definition lowerChar (c : ascii) : ascii :=
  let n := code c in
  if ((65 <=? n) && (n <=? 90))
     || ((192 <=? n) && (n <=? 222) && negb (n =? 215))
  then ascii_of_nat (n + 32) else c.

Definition toLowerCase (s : jsstring) : jsstring := map lowerChar s.

Fixpoint eqb (a b : jsstring) : bool :=
  match a, b with
  | [], [] => true
  | x :: a', y :: b' => chr_eqb x y && eqb a' b'
  | _, _ => false
  end.

Fixpoint startsWith (s p : jsstring) : bool :=
  match p, s with
  | [], _ => true
  | x :: p', y :: s' => chr_eqb x y && startsWith s' p'
  | _ :: _, [] => false
  end.

Definition endsWith (s p : jsstring) : bool := startsWith (rev s) (rev p).

Fixpoint includes (s p : jsstring) : bool :=
  startsWith s p || match s with [] => false | _ :: s' => includes s' p end.

Fixpoint trimStart (s : jsstring) : jsstring :=
  match s with
  | c :: s' => if isSpace c then trimStart s' else s
  | [] => []
  end.

Definition trimEnd (s : jsstring) : jsstring := rev (trimStart (rev s)).

Definition trim (s : jsstring) : jsstring := trimEnd (trimStart s).

(** [s.split(sep)] for a one-character separator: never the empty
    array, one more piece than there are separators. *)
Fixpoint split (sep : ascii) (s : jsstring) : list jsstring :=
  match s with
  | [] => [[]]
  | c :: s' =>
      if chr_eqb c sep then [] :: split sep s'
      else match split sep s' with
           | l :: ls => (c :: l) :: ls
           | [] => [[c]]
           end
  end.

(** [a.join(sep)]. *)
Fixpoint join (sep : jsstring) (l : list jsstring) : jsstring :=
  match l with
  | [] => []
  | [x] => x
  | x :: l' => x ++ sep ++ join sep l'
  end.

(** [s.repeat(n)]. *)
Fixpoint repeat (s : jsstring) (n : nat) : jsstring :=
  match n with 0 => [] | S n' => s ++ repeat s n' end.

(** Number of occurrences of one code unit:
    [(s.match(/c/g) || []).length]. *)
Definition count (c : ascii) (s : jsstring) : nat :=
  count_occ ascii_dec s c.

(** [a.pop()] read as "the last element". *)
Definition lastElement (l : list jsstring) : option jsstring :=
  List.last (map Some l) None.

(** Decimal rendering of a non-negative integer: [String(n)]. *)
Fixpoint digitsFuel (fuel : nat) (n : Z) (acc : jsstring) : jsstring :=
  match fuel with
  | 0 => acc
  | S f =>
      let d := ascii_of_nat (48 + Z.to_nat (n mod 10)) in
      if (n <? 10)%Z then d :: acc else digitsFuel f (n / 10) (d :: acc)
  end.

Definition ofZ (n : Z) : jsstring := digitsFuel (S (Z.to_nat (Z.log2 n))) n [].

Definition ofNat (n : nat) : jsstring := ofZ (Z.of_nat n).

End JS.

(* ================================================================== *)
(** * Regular expressions *)
(* ================================================================== *)

Module Regex.

(** The pattern syntax used by the modelled sources.  [Chr p] matches
    one code unit satisfying [p]; [Star true r] is the greedy [r*],
    [Star false r] the lazy [r*?]; [Group n r] is the [n]-th capturing
    parenthesis; [Bol], [Eol] and [WordB] are [^], [$] and [\b]. *)
Inductive regex : Type :=
| Eps : regex
| Chr : (ascii -> bool) -> regex
| Seq : regex -> regex -> regex
| Alt : regex -> regex -> regex
| Star : bool -> regex -> regex
| Group : nat -> regex -> regex
| Bol : regex
| Eol : regex
| WordB : regex.

(** Character sets. *)
Definition lit (c : ascii) : ascii -> bool := fun x => JS.chr_eqb x c.
Definition oneOf (s : string) : ascii -> bool :=
  fun x => existsb (JS.chr_eqb x) (JS.str s).
Definition noneOf (s : string) : ascii -> bool :=
  fun x => negb (existsb (JS.chr_eqb x) (JS.str s)).
Definition space : ascii -> bool := JS.isSpace.
Definition nonSpace : ascii -> bool := fun x => negb (JS.isSpace x).
Definition word : ascii -> bool := JS.isWord.
Definition dot : ascii -> bool := fun x => negb (JS.isLineTerminator x).

(** Derived forms. *)
Definition C (c : string) : regex :=
  match JS.str c with
  | [x] => Chr (lit x)
  | _ => Eps
  end.
Fixpoint seqs (l : list regex) : regex :=
  match l with
  | [] => Eps
  | [r] => r
  | r :: l' => Seq r (seqs l')
  end.
Fixpoint alts (l : list regex) : regex :=
  match l with
  | [] => Eps
  | [r] => r
  | r :: l' => Alt r (alts l')
  end.
Definition Lit (s : string) : regex := seqs (map (fun c => Chr (lit c)) (JS.str s)).
Definition LitS (s : JS.jsstring) : regex := seqs (map (fun c => Chr (lit c)) s).
Definition Plus (r : regex) : regex := Seq r (Star true r).
Definition Opt (r : regex) : regex := Alt r Eps.
Definition S0 : regex := Star true (Chr space).   (* \s* *)
Definition S1 : regex := Plus (Chr space).        (* \s+ *)
Definition W1 : regex := Plus (Chr word).         (* \w+ *)
Definition NL : regex := Chr (lit JS.nl).         (* \n *)

(** The matcher's state: the code unit just before the current
    position (for [^] and [\b]), the text still to be read, and the
    captures made so far, most recent first. *)
Record mstate : Type := MState {
  prev : option ascii;
  rest : JS.jsstring;
  caps : list (nat * JS.jsstring)
}.

Definition atWord (o : option ascii) : bool :=
  match o with Some c => JS.isWord c | None => false end.

Definition consumed (before after : JS.jsstring) : JS.jsstring :=
  firstn (length before - length after) before.

Section Quantifier.
(** The matcher of the quantified pattern, the kind of quantifier,
    and what must match after it. *)
Variable body : mstate -> (mstate -> option mstate) -> option mstate.
Variable greedy : bool.
Variable k : mstate -> option mstate.

(** [r*] and [r*?]: a greedy quantifier tries one more iteration
    first, a lazy one tries the continuation first.  An iteration
    that consumes nothing is rejected, as in ECMAScript's
    RepeatMatcher; [fuel] bounds the iterations by the length of the
    text left. *)
Fixpoint starLoop (fuel : nat) (st0 : mstate) {struct fuel} : option mstate :=
  match fuel with
  | 0 => k st0
  | S fuel' =>
      let again :=
        body st0
          (fun st1 =>
             if length (rest st1) <? length (rest st0)
             then starLoop fuel' st1 else None) in
      if greedy then
        match again with
        | Some res => Some res
        | None => k st0
        end
      else
        match k st0 with
        | Some res => Some res
        | None => again
        end
  end.
End Quantifier.

(** Backtracking matcher in continuation-passing style: [k] is what
    remains to be matched after [r]. *)
Fixpoint rmatch (ml : bool) (r : regex) (st : mstate)
         (k : mstate -> option mstate) {struct r} : option mstate :=
  match r with
  | Eps => k st
  | Chr p =>
      match rest st with
      | c :: tl => if p c then k (MState (Some c) tl (caps st)) else None
      | [] => None
      end
  | Seq a b => rmatch ml a st (fun st1 => rmatch ml b st1 k)
  | Alt a b =>
      match rmatch ml a st k with
      | Some res => Some res
      | None => rmatch ml b st k
      end
  | Star greedy a => starLoop (rmatch ml a) greedy k (S (length (rest st))) st
  | Group n a =>
      rmatch ml a st
        (fun st1 =>
           k (MState (prev st1) (rest st1)
                     ((n, consumed (rest st) (rest st1)) :: caps st1)))
  | Bol =>
      match prev st with
      | None => k st
      | Some c => if ml && JS.isLineTerminator c then k st else None
      end
  | Eol =>
      match rest st with
      | [] => k st
      | c :: _ => if ml && JS.isLineTerminator c then k st else None
      end
  | WordB =>
      let after := match rest st with c :: _ => JS.isWord c | [] => false end in
      if xorb (atWord (prev st)) after then k st else None
  end.

(** One successful match: where it starts, the text matched, the
    captures, and what follows it. *)
Record rmatched : Type := Matched {
  m_index : nat;
  m_text : JS.jsstring;
  m_caps : list (nat * JS.jsstring);
  m_after : JS.jsstring
}.

Definition matchAt (ml : bool) (r : regex) (p : option ascii)
           (s : JS.jsstring) : option mstate :=
  rmatch ml r (MState p s []) (fun st => Some st).

(** Leftmost match at or after the current position; [skipped] counts
    the code units already passed. *)
Fixpoint search (ml : bool) (r : regex) (p : option ascii)
         (s : JS.jsstring) (skipped : nat) {struct s} : option rmatched :=
  match matchAt ml r p s with
  | Some st => Some (Matched skipped (consumed s (rest st)) (caps st) (rest st))
  | None =>
      match s with
      | [] => None
      | c :: s' => search ml r (Some c) s' (S skipped)
      end
  end.

(** [re.exec(s)] on a fresh regular expression. *)
Definition exec (ml : bool) (r : regex) (s : JS.jsstring) : option rmatched :=
  search ml r None s 0.

(** [re.test(s)]. *)
Definition test (ml : bool) (r : regex) (s : JS.jsstring) : bool :=
  match exec ml r s with Some _ => true | None => false end.

(** The value of capture [n]; an unset capture reads as [undefined]. *)
Fixpoint capture (n : nat) (cs : list (nat * JS.jsstring)) : option JS.jsstring :=
  match cs with
  | [] => None
  | (m, t) :: cs' => if n =? m then Some t else capture n cs'
  end.

(** Replacement templates: literal text, [$n], [$&], and the text
    before and after the match. *)
Inductive piece : Type :=
| PLit : JS.jsstring -> piece
| PCap : nat -> piece
| PMatch : piece
| PBefore : piece
| PAfter : piece.

Definition L (s : string) : piece := PLit (JS.str s).

Fixpoint expand (t : list piece) (before : JS.jsstring) (m : rmatched) : JS.jsstring :=
  match t with
  | [] => []
  | PLit s :: t' => s ++ expand t' before m
  | PCap n :: t' =>
      match capture n (m_caps m) with Some x => x | None => [] end
      ++ expand t' before m
  | PMatch :: t' => m_text m ++ expand t' before m
  | PBefore :: t' => before ++ expand t' before m
  | PAfter :: t' => m_after m ++ expand t' before m
  end.

Definition isDigit (c : ascii) : bool :=
  (48 <=? JS.code c) && (JS.code c <=? 57).

(** A replacement string read as a template (GetSubstitution), for a
    pattern with [groups] capturing parentheses. *)
Fixpoint parseTemplate (groups : nat) (s : JS.jsstring) : list piece :=
  match s with
  | [] => []
  | c :: s1 =>
      if negb (JS.code c =? 36) then PLit [c] :: parseTemplate groups s1
      else
        match s1 with
        | [] => [PLit [c]]
        | d :: s2 =>
            if JS.code d =? 36 then PLit [c] :: parseTemplate groups s2
            else if JS.code d =? 38 then PMatch :: parseTemplate groups s2
            else if JS.code d =? 96 then PBefore :: parseTemplate groups s2
            else if JS.code d =? 39 then PAfter :: parseTemplate groups s2
            else if isDigit d then
              let one := JS.code d - 48 in
              let single :=
                if (1 <=? one) && (one <=? groups)
                then PCap one :: parseTemplate groups s2
                else PLit [c] :: PLit [d] :: parseTemplate groups s2 in
              match s2 with
              | e :: s3 =>
                  let two := 10 * one + (JS.code e - 48) in
                  if isDigit e && (1 <=? two) && (two <=? groups)
                  then PCap two :: parseTemplate groups s3
                  else single
              | [] => single
              end
            else PLit [c] :: PLit [d] :: parseTemplate groups s2
        end
  end.

Definition lastChar (p : option ascii) (s : JS.jsstring) : option ascii :=
  match rev s with c :: _ => Some c | [] => p end.

(** All successive matches of a global regular expression, as the
    [exec] loop and [String.prototype.replace] find them: after an
    empty match the search resumes one code unit further. *)
Fixpoint matchAll (fuel : nat) (ml : bool) (r : regex) (p : option ascii)
         (s : JS.jsstring) (base : nat) {struct fuel} : list rmatched :=
  match fuel with
  | 0 => []
  | S fuel' =>
      match search ml r p s base with
      | None => []
      | Some m =>
          match m_text m, m_after m with
          | [], [] => [m]
          | [], c :: s' =>
              m :: matchAll fuel' ml r (Some c) s' (S (m_index m))
          | _ :: _, s' =>
              m :: matchAll fuel' ml r (lastChar p (m_text m)) s'
                     (m_index m + length (m_text m))
          end
      end
  end.

Definition execAll (ml : bool) (r : regex) (s : JS.jsstring) : list rmatched :=
  matchAll (S (length s)) ml r None s 0.

(** [s.replace(re, template)] for a global [re]; [before] is the text
    already passed, in reverse. *)
Fixpoint replaceFrom (fuel : nat) (ml : bool) (r : regex) (t : list piece)
         (before : JS.jsstring) (p : option ascii) (s : JS.jsstring)
         {struct fuel} : JS.jsstring :=
  match fuel with
  | 0 => s
  | S fuel' =>
      match search ml r p s 0 with
      | None => s
      | Some m =>
          let skipped := firstn (m_index m) s in
          let before' := rev skipped ++ before in
          let out := skipped ++ expand t (rev before') m in
          match m_text m, m_after m with
          | [], [] => out
          | [], c :: s' =>
              out ++ c :: replaceFrom fuel' ml r t (c :: before') (Some c) s'
          | _ :: _, s' =>
              out ++ replaceFrom fuel' ml r t (rev (m_text m) ++ before')
                       (lastChar p (m_text m)) s'
          end
      end
  end.

Definition replaceAll (ml : bool) (r : regex) (t : list piece)
           (s : JS.jsstring) : JS.jsstring :=
  replaceFrom (S (length s)) ml r t [] None s.

End Regex.

(* ================================================================== *)
(** * syntaxFixer.js *)
(* ================================================================== *)

Module SyntaxFixer.
Import Regex.

(** What a caller may pass as [content]: a string, or one of the
    primitives that are not strings. *)
Inductive value : Type :=
| VString : JS.jsstring -> value
| VUndefined : value
| VNull : value
| VBoolean : bool -> value.

(** The entries pushed on [result.fixes]. *)
Inductive fixEntry : Type :=
| IncompleteObjectDeclaration : fixEntry
| MissingSemicolon : nat -> JS.jsstring -> JS.jsstring -> fixEntry
| MissingComma : fixEntry
| IncompleteType : fixEntry
| MissingClosingBrace : nat -> fixEntry
| MissingClosingParen : nat -> fixEntry
| MissingClosingBracket : nat -> fixEntry.

Record result : Type := Result {
  fixed : bool;
  content : value;
  errors : list JS.jsstring;
  fixes : list fixEntry;
  shouldCommit : bool
}.

(** [['javascript', 'typescript'].includes(language)] *)
Definition isJsTs (language : JS.jsstring) : bool :=
  JS.eqb language (JS.str "javascript") || JS.eqb language (JS.str "typescript").

Definition declKeyword : regex := alts [Lit "const"; Lit "let"; Lit "var"].

(** [/export\s+(const|let|var)\s+(\w+)\s*=\s*\n\s*async\s+(\w+)/g] *)
Definition incompleteObjectPattern : regex :=
  seqs [Lit "export"; S1; Group 1 declKeyword; S1; Group 2 W1; S0; C "=";
        S0; NL; S0; Lit "async"; S1; Group 3 W1].

(** ['export $1 $2 = {\n  async $3'] *)
Definition incompleteObjectTemplate : list piece :=
  [L "export "; PCap 1; L " "; PCap 2; L " = {\n  async "; PCap 3].

(** [/[;{}\])]$/] *)
Definition closedLine : regex := Seq (Chr (oneOf ";{}\])")) Eol.
(** [/[=,]$/] *)
Definition openLine : regex := Seq (Chr (oneOf "=,")) Eol.
(** [/^export\s+(const|let|var)\s+\w+\s*=$/] *)
Definition exportAssignLine : regex :=
  seqs [Bol; Lit "export"; S1; Group 1 declKeyword; S1; W1; S0; C "="; Eol].
(** [/^(import|export|return|throw|break|continue|type|interface)\s+/] *)
Definition needsSemicolonPattern : regex :=
  seqs [Bol;
        Group 1 (alts [Lit "import"; Lit "export"; Lit "return"; Lit "throw";
                       Lit "break"; Lit "continue"; Lit "type"; Lit "interface"]);
        S1].
(** [/^(const|let|var)\s+\w+\s*=\s*.+[^=,]$/] *)
Definition completeStatementPattern : regex :=
  seqs [Bol; Group 1 declKeyword; S1; W1; S0; C "="; S0; Plus (Chr dot);
        Chr (noneOf "=,"); Eol].

(** The callback of [lines.map] in Fix 2: the new line, and the fix it
    records when it appends a semicolon. *)
Definition semicolonLine (lines : list JS.jsstring) (index : nat)
           (line : JS.jsstring) : JS.jsstring * option fixEntry :=
  let trimmed := JS.trim line in
  if JS.eqb trimmed []
     || JS.startsWith trimmed (JS.str "//")
     || JS.startsWith trimmed (JS.str "/*")
     || JS.startsWith trimmed (JS.str "*")
     || test false closedLine trimmed
  then (line, None)
  else if test false openLine trimmed || test false exportAssignLine trimmed
  then (line, None)
  else
    let nextLine :=
      if index + 1 <? length lines then JS.trim (nth (index + 1) lines []) else [] in
    if JS.startsWith nextLine (JS.str "async ")
       || JS.startsWith nextLine (JS.str "function ")
    then (line, None)
    else
      let needsSemicolon := test false needsSemicolonPattern trimmed in
      let isCompleteStatement := test false completeStatementPattern trimmed in
      if (needsSemicolon || isCompleteStatement)
         && negb (JS.endsWith trimmed (JS.str ";"))
      then (line ++ JS.str ";",
            Some (MissingSemicolon (index + 1) line (line ++ JS.str ";")))
      else (line, None).

Fixpoint mapIndexed {A B : Type} (f : nat -> A -> B) (i : nat) (l : list A) : list B :=
  match l with
  | [] => []
  | x :: l' => f i x :: mapIndexed f (S i) l'
  end.

Fixpoint somes {A : Type} (l : list (option A)) : list A :=
  match l with
  | [] => []
  | Some x :: l' => x :: somes l'
  | None :: l' => somes l'
  end.

(** [/}\s*,?\s*\n\s*async\s+(\w+)/g] *)
Definition missingCommaBeforeMethod : regex :=
  seqs [C "}"; S0; Opt (C ","); S0; NL; S0; Lit "async"; S1; Group 1 W1].
(** [/(\w+:\s*[^,\n]+)\s*\n\s*(\w+:)/g] *)
Definition missingCommaPattern : regex :=
  seqs [Group 1 (seqs [W1; C ":"; S0; Plus (Chr (noneOf ",\n"))]);
        S0; NL; S0; Group 2 (Seq W1 (C ":"))].
(** [/:\s*$/gm] *)
Definition incompleteTypes : regex := seqs [C ":"; S0; Eol].
(** [/,(G)$/gm] where the group [G] is [\s*}\s*;?\s*]. *)
Definition trailingCommaAtEnd : regex :=
  seqs [C ","; Group 1 (seqs [S0; C "}"; S0; Opt (C ";"); S0]); Eol].
(** [/^},?$/] *)
Definition closingLine : regex := seqs [Bol; C "}"; Opt (C ","); Eol].
(** [/,(\s*[}\]])/g] *)
Definition trailingComma : regex :=
  Seq (C ",") (Group 1 (Seq S0 (Chr (oneOf "}\]")))).

(** The working variables of the [try] block. *)
Record work : Type := Work {
  fixedContent : JS.jsstring;
  wasFixed : bool;
  pushed : list fixEntry
}.

(** Fix 1: incomplete object declarations. *)
Definition fixIncompleteObject (language : JS.jsstring) (w : work) : work :=
  if isJsTs language && test false incompleteObjectPattern (fixedContent w)
  then Work (replaceAll false incompleteObjectPattern incompleteObjectTemplate
                        (fixedContent w))
            true (pushed w ++ [IncompleteObjectDeclaration])
  else w.

(** Fix 2: missing semicolons. *)
Definition fixSemicolons (language : JS.jsstring) (w : work) : work :=
  if isJsTs language then
    let lines := JS.split JS.nl (fixedContent w) in
    let mapped := mapIndexed (semicolonLine lines) 0 lines in
    let fixedLines := map fst mapped in
    let new := somes (map snd mapped) in
    let wasFixed' := wasFixed w || negb (length new =? 0) in
    Work (if wasFixed' then JS.join [JS.nl] fixedLines else fixedContent w)
         wasFixed' (pushed w ++ new)
  else w.

(** Fix 3: missing commas between object members. *)
Definition fixCommas (language : JS.jsstring) (w : work) : work :=
  if isJsTs language then
    let c := replaceAll false missingCommaBeforeMethod
               [L "},\n  async "; PCap 1] (fixedContent w) in
    if test false missingCommaPattern c
    then Work (replaceAll false missingCommaPattern [PCap 1; L ",\n"; PCap 2] c)
              true (pushed w ++ [MissingComma])
    else Work c (wasFixed w) (pushed w)
  else w.

(** Incomplete TypeScript type annotations. *)
Definition fixIncompleteTypes (language : JS.jsstring) (w : work) : work :=
  if JS.eqb language (JS.str "typescript")
     && test true incompleteTypes (fixedContent w)
  then Work (replaceAll true incompleteTypes [L ": any"] (fixedContent w))
            true (pushed w ++ [IncompleteType])
  else w.

(** Fix 5: a comma before the closing brace that ends a line. *)
Definition fixTrailingCommaAtEnd (w : work) : work :=
  Work (replaceAll true trailingCommaAtEnd [PCap 1] (fixedContent w))
       (wasFixed w) (pushed w).

(** The content as it stands when the bracket counts are taken. *)
Definition beforeBalancing (language : JS.jsstring) (c : JS.jsstring) : work :=
  fixTrailingCommaAtEnd
    (fixIncompleteTypes language
       (fixCommas language
          (fixSemicolons language
             (fixIncompleteObject language (Work c false []))))).

(** [lastNonEmptyLine && lastNonEmptyLine.trim().match(/^},?$/)] *)
Definition endsInClosingLine (c : JS.jsstring) : bool :=
  match JS.lastElement (JS.split JS.nl (JS.trim c)) with
  | Some lastNonEmptyLine =>
      negb (JS.eqb lastNonEmptyLine [])
      && test false closingLine (JS.trim lastNonEmptyLine)
  | None => false
  end.

(** Fix 6: balance brackets.  The six counts are taken once, before
    anything is appended. *)
Definition balance (w : work) : work :=
  let c0 := fixedContent w in
  let openBraces := JS.count "{"%char c0 in
  let closeBraces := JS.count "}"%char c0 in
  let openParens := JS.count "("%char c0 in
  let closeParens := JS.count ")"%char c0 in
  let openBrackets := JS.count "["%char c0 in
  let closeBrackets := JS.count "]"%char c0 in
  let w1 :=
    if closeBraces <? openBraces then
      Work (if endsInClosingLine c0
            then JS.trimEnd c0 ++ JS.str "\n};"
            else c0 ++ JS.str "\n" ++ JS.repeat (JS.str "}") (openBraces - closeBraces))
           true (pushed w ++ [MissingClosingBrace (openBraces - closeBraces)])
    else w in
  let w2 :=
    if closeParens <? openParens then
      Work (fixedContent w1 ++ JS.repeat (JS.str ")") (openParens - closeParens))
           true (pushed w1 ++ [MissingClosingParen (openParens - closeParens)])
    else w1 in
  if closeBrackets <? openBrackets then
    Work (fixedContent w2 ++ JS.repeat (JS.str "]") (openBrackets - closeBrackets))
         true (pushed w2 ++ [MissingClosingBracket (openBrackets - closeBrackets)])
  else w2.

(** The last step: commas before a closing brace or bracket. *)
Definition removeTrailingCommas (w : work) : work :=
  Work (replaceAll false trailingComma [PCap 1] (fixedContent w))
       (wasFixed w) (pushed w).

(** The whole [try] block on a string. *)
Definition fixBody (language : JS.jsstring) (c : JS.jsstring) : work :=
  removeTrailingCommas (balance (beforeBalancing language c)).

(** The [try] block on any value.  On a value that is not a string the
    first method call on [fixedContent] ([split] or [replace]) throws a
    TypeError; [incompleteObjectPattern.test] coerces its argument
    ("undefined", "null", "true", "false") and finds nothing, so no fix
    has been pushed by then. *)
Definition tryBlock (language : JS.jsstring) (v : value) : JS.jsstring + work :=
  match v with
  | VString c => inr (fixBody language c)
  | _ => inl (JS.str "fixedContent is not a string")
  end.

(** [attemptSyntaxFix(content, filePath, language)] *)
Definition attemptSyntaxFix (c : value) (filePath language : JS.jsstring) : result :=
  match tryBlock language c with
  | inr w =>
      Result (wasFixed w) (VString (fixedContent w)) [] (pushed w) (wasFixed w)
  | inl message => Result false c [message] [] false
  end.

(** [smartFix(content, filePath, parseError)]: the language is read off
    the file extension; [detectSyntaxErrors] only feeds the log. *)
Definition smartFix (c : value) (filePath : JS.jsstring) : result :=
  let language :=
    if JS.endsWith filePath (JS.str ".ts") || JS.endsWith filePath (JS.str ".tsx")
    then JS.str "typescript" else JS.str "javascript" in
  attemptSyntaxFix c filePath language.

(** ** Detection without repair *)

(** The entries [detectSyntaxErrors] pushes on [errors]; the [count]
    of a bracket entry is the counter itself or its opposite. *)
Inductive syntaxError : Type :=
| UnclosedBrace : Z -> syntaxError
| UnclosedBracket : Z -> syntaxError
| UnclosedParen : Z -> syntaxError
| ExtraClosingBrace : Z -> syntaxError
| ExtraClosingBracket : Z -> syntaxError
| ExtraClosingParen : Z -> syntaxError
| MissingSemicolons : nat -> syntaxError
| DetectionError : JS.jsstring -> syntaxError.

(** The three counters of the object [brackets]. *)
Record brackets : Type := Brackets {
  curly : Z;
  square : Z;
  round : Z
}.

(** The body of the loop over the characters: six tests in a row. *)
Definition countBracket (b : brackets) (char : ascii) : brackets :=
  let b1 := if JS.chr_eqb char "{" then Brackets (curly b + 1) (square b) (round b) else b in
  let b2 := if JS.chr_eqb char "}" then Brackets (curly b1 - 1) (square b1) (round b1) else b1 in
  let b3 := if JS.chr_eqb char "[" then Brackets (curly b2) (square b2 + 1) (round b2) else b2 in
  let b4 := if JS.chr_eqb char "]" then Brackets (curly b3) (square b3 - 1) (round b3) else b3 in
  let b5 := if JS.chr_eqb char "(" then Brackets (curly b4) (square b4) (round b4 + 1) else b4 in
  if JS.chr_eqb char ")" then Brackets (curly b5) (square b5) (round b5 - 1) else b5.

(** [/^(import|export|return|const|let|var)\s+/] *)
Definition statementStart : regex :=
  seqs [Bol;
        Group 1 (alts [Lit "import"; Lit "export"; Lit "return"; Lit "const";
                       Lit "let"; Lit "var"]);
        S1].

(** The test of the loop over the lines. *)
Definition lacksSemicolon (l : JS.jsstring) : bool :=
  let line := JS.trim l in
  negb (JS.eqb line [])
  && negb (JS.startsWith line (JS.str "//"))
  && negb (JS.startsWith line (JS.str "/*"))
  && test false statementStart line
  && negb (JS.endsWith line (JS.str ";"))
  && negb (JS.endsWith line (JS.str "{"))
  && negb (JS.endsWith line (JS.str "}")).

(** [detectSyntaxErrors(content, language)].  A value that is not a
    string cannot be iterated: the [for ... of] throws before anything
    is pushed, and the [catch] records the one entry. *)
Definition detectSyntaxErrors (content : value) (language : JS.jsstring)
  : list syntaxError :=
  match content with
  | VString c =>
      let b := fold_left countBracket c (Brackets 0 0 0) in
      (if (0 <? curly b)%Z then [UnclosedBrace (curly b)] else [])
      ++ (if (0 <? square b)%Z then [UnclosedBracket (square b)] else [])
      ++ (if (0 <? round b)%Z then [UnclosedParen (round b)] else [])
      ++ (if (curly b <? 0)%Z then [ExtraClosingBrace (- curly b)] else [])
      ++ (if (square b <? 0)%Z then [ExtraClosingBracket (- square b)] else [])
      ++ (if (round b <? 0)%Z then [ExtraClosingParen (- round b)] else [])
      ++ (if isJsTs language then
            let missingSemicolons :=
              length (List.filter lacksSemicolon (JS.split JS.nl c)) in
            if 0 <? missingSemicolons then [MissingSemicolons missingSemicolons]
            else []
          else [])
  | _ => [DetectionError (JS.str "content is not iterable")]
  end.

End SyntaxFixer.

(* ================================================================== *)
(** * Node's [path] (POSIX) and [Array.prototype.sort] *)
(* ================================================================== *)

Module Path.

Definition slash : ascii := "/"%char.
Definition period : ascii := "."%char.

Fixpoint dropTrailingSlashes (r : JS.jsstring) : JS.jsstring :=
  match r with
  | c :: r' => if JS.chr_eqb c slash then dropTrailingSlashes r' else r
  | [] => []
  end.

Fixpoint takeUntil (c : ascii) (s : JS.jsstring) : JS.jsstring :=
  match s with
  | [] => []
  | x :: s' => if JS.chr_eqb x c then [] else x :: takeUntil c s'
  end.

(** [path.basename(p)]: the last segment, trailing slashes ignored. *)
Definition basename (p : JS.jsstring) : JS.jsstring :=
  rev (takeUntil slash (dropTrailingSlashes (rev p))).

(** [path.extname(p)]: from the last period of the last segment, empty
    when there is none, when it leads the segment, or for [..]. *)
Definition extname (p : JS.jsstring) : JS.jsstring :=
  let b := basename p in
  let stem := rev (takeUntil period (rev b)) in   (* text after the last period *)
  if JS.eqb b (JS.str "..") then []
  else if negb (JS.includes b [period]) then []
  else if length b =? S (length stem) then []
  else period :: stem.

(** [path.basename(p, ext)] *)
Definition basenameWithout (p ext : JS.jsstring) : JS.jsstring :=
  let b := basename p in
  if negb (length ext =? 0) && JS.endsWith b ext && negb (JS.eqb b ext)
  then firstn (length b - length ext) b
  else b.

End Path.

Module Sort.

Section WithComparator.
Context {A : Type}.
(** [after a b] says that [comparefn(a, b) > 0]: [a] sorts after [b]. *)
Variable after : A -> A -> bool.

Fixpoint insert (x : A) (l : list A) : list A :=
  match l with
  | [] => [x]
  | y :: l' => if after x y then y :: insert x l' else x :: l
  end.

(** [a.sort(comparefn)]: the sort is stable, so an element stays in
    front of the later ones it does not sort after. *)
Fixpoint sort (l : list A) : list A :=
  match l with
  | [] => []
  | x :: l' => insert x (sort l')
  end.
End WithComparator.

End Sort.

(* ================================================================== *)
(** * semanticFixer.js *)
(* ================================================================== *)

Module SemanticFixer.
Import Regex.

Record codeFile : Type := CodeFile {
  path : JS.jsstring;
  fileContent : JS.jsstring
}.

Inductive confidenceLevel : Type := High | Medium | Low.

(** [confidenceOrder] *)
Definition confidenceOrder (c : confidenceLevel) : nat :=
  match c with High => 3 | Medium => 2 | Low => 1 end.

(** A detected typo.  Its [reason], a message built from the same three
    names, is left out. *)
Record typo : Type := Typo {
  line : nat;
  original : JS.jsstring;
  suggested : JS.jsstring;
  confidence : confidenceLevel;
  importedIn : JS.jsstring
}.

Record importAttempt : Type := ImportAttempt {
  attemptFile : JS.jsstring;
  importedNames : list JS.jsstring
}.

Definition declKind : regex :=
  alts [Lit "const"; Lit "let"; Lit "var"; Lit "class"; Lit "function";
        Lit "interface"; Lit "type"].

(** [/export\s+(?:const|let|var|class|function|interface|type)\s+(\w+)/g] *)
Definition exportPattern : regex :=
  seqs [Lit "export"; S1; declKind; S1; Group 1 W1].

(** The pattern
    "/import\s+(?:{([^}]+)}|\*\s+as\s+(\w+)|(\w+))\s+from\s+['\x22](.*?)['\x22]/g". *)
Definition importPattern : regex :=
  seqs [Lit "import"; S1;
        alts [seqs [C "{"; Group 1 (Plus (Chr (noneOf "}"))); C "}"];
              seqs [C "*"; S1; Lit "as"; S1; Group 2 W1];
              Group 3 W1];
        S1; Lit "from"; S1; Chr (oneOf "'\x22");
        Group 4 (Star false (Chr dot)); Chr (oneOf "'\x22")].

(** [s.split(sep)[0]]: the text before the first [sep]. *)
Fixpoint beforeFirst (sep s : JS.jsstring) : JS.jsstring :=
  match s with
  | [] => []
  | c :: s' => if JS.startsWith s sep then [] else c :: beforeFirst sep s'
  end.

Definition orElse (a b : option JS.jsstring) : option JS.jsstring :=
  match a with Some _ => a | None => b end.

(** The import statements of one file that name the target file. *)
Definition importsOf (targetFilePath : JS.jsstring) (file : codeFile)
  : list importAttempt :=
  let targetFileName :=
    Path.basenameWithout targetFilePath (Path.extname targetFilePath) in
  flat_map
    (fun m : rmatched =>
       let importedNamesStr :=
         orElse (capture 1 (m_caps m))
                (orElse (capture 2 (m_caps m)) (capture 3 (m_caps m))) in
       let importPath :=
         match capture 4 (m_caps m) with Some x => x | None => [] end in
       let isTargetFile :=
         JS.includes importPath targetFileName
         || JS.includes importPath (Path.basename targetFilePath) in
       if isTargetFile then
         [ImportAttempt (path file)
            match importedNamesStr with
            | Some names =>
                map (fun n => JS.trim (beforeFirst (JS.str " as ") (JS.trim n)))
                    (JS.split ","%char names)
            | None => []
            end]
       else [])
    (execAll false importPattern (fileContent file)).

(** [findImportAttempts(targetFilePath, allFiles)] *)
Definition findImportAttempts (targetFilePath : JS.jsstring)
           (allFiles : list codeFile) : list importAttempt :=
  flat_map
    (fun file =>
       if JS.eqb (path file) targetFilePath then []
       else importsOf targetFilePath file)
    allFiles.

(** One row of the Levenshtein matrix from the row above it:
    [matrix[j][i] = min(matrix[j][i-1] + 1, matrix[j-1][i] + 1,
                        matrix[j-1][i-1] + cost)]. *)
Fixpoint nextRow (s1 : JS.jsstring) (c2 : ascii) (above : list nat)
         (left : nat) : list nat :=
  match s1, above with
  | c1 :: s1', diag :: ((up :: _) as above') =>
      let cost := if JS.chr_eqb c1 c2 then 0 else 1 in
      let cell := Nat.min (Nat.min (left + 1) (up + 1)) (diag + cost) in
      cell :: nextRow s1' c2 above' cell
  | _, _ => []
  end.

Fixpoint levenshteinRows (s1 s2 : JS.jsstring) (j : nat) (above : list nat)
  : list nat :=
  match s2 with
  | [] => above
  | c2 :: s2' =>
      levenshteinRows s1 s2' (S j) (S j :: nextRow s1 c2 above (S j))
  end.

(** [matrix[s2.length][s1.length]] *)
Definition levenshtein (s1 s2 : JS.jsstring) : nat :=
  List.last (levenshteinRows s1 s2 0 (seq 0 (S (length s1)))) 0.

Definition ofNat (n : nat) : float := PrimFloat.of_uint63 (Uint63.of_Z (Z.of_nat n)).

(** [stringSimilarity(str1, str2)] *)
Definition stringSimilarity (str1 str2 : JS.jsstring) : float :=
  let s1 := JS.toLowerCase str1 in
  let s2 := JS.toLowerCase str2 in
  if JS.eqb s1 s2 then 1%float
  else
    let distance := levenshtein s1 s2 in
    let maxLen := Nat.max (length s1) (length s2) in
    (1 - ofNat distance / ofNat maxLen)%float.

(** The literal [0.7], that is the binary64 value nearest to 7/10. *)
Definition point7 : float := 0x1.6666666666666p-1%float.

Record exportDecl : Type := ExportDecl {
  exportName : JS.jsstring;
  exportLine : nat
}.

(** The [exec] loop over [exportPattern]: name and line of every
    export declaration. *)
Definition exportsOf (content : JS.jsstring) : list exportDecl :=
  map (fun m : rmatched =>
         ExportDecl
           (match capture 1 (m_caps m) with Some x => x | None => [] end)
           (length (JS.split JS.nl (firstn (m_index m) content))))
      (execAll false exportPattern content).

(** The high-confidence test of the inner loop. *)
Definition highConfidence (exportName importedName fileName : JS.jsstring) : bool :=
  (stringSimilarity exportName importedName <? 0.5)%float
  && (point7 <? stringSimilarity importedName fileName)%float.

(** The medium-confidence test. *)
Definition mediumConfidence (exportName importedName fileName : JS.jsstring) : bool :=
  (length exportName <=? 5)
  && JS.eqb exportName (JS.toLowerCase exportName)
  && (5 <? length fileName)
  && negb (JS.eqb fileName (JS.toLowerCase fileName))
  && (point7 <? stringSimilarity importedName fileName)%float.

(** What the body of the innermost loop pushes for one export and one
    imported name. *)
Definition flagsFor (fileName : JS.jsstring) (e : exportDecl)
           (attempt : importAttempt) (importedName : JS.jsstring) : list typo :=
  (if highConfidence (exportName e) importedName fileName
   then [Typo (exportLine e) (exportName e) importedName High (attemptFile attempt)]
   else [])
  ++
  (if mediumConfidence (exportName e) importedName fileName
   then [Typo (exportLine e) (exportName e) fileName Medium (attemptFile attempt)]
   else []).

(** [typos] before duplicates are removed. *)
Definition allFlags (content filePath : JS.jsstring) (allFiles : list codeFile)
  : list typo :=
  let fileName := Path.basenameWithout filePath (Path.extname filePath) in
  flat_map
    (fun e =>
       flat_map
         (fun attempt =>
            flat_map (flagsFor fileName e attempt) (importedNames attempt))
         (findImportAttempts filePath allFiles))
    (exportsOf content).

Definition typoKey (t : typo) : JS.jsstring := original t ++ suggested t.

(** [typoMap.set(key, typo)] when the key is new or the confidence is
    higher; a [Map] keeps a key at the place of its first insertion. *)
Fixpoint typoMapSet (m : list (JS.jsstring * typo)) (t : typo)
  : list (JS.jsstring * typo) :=
  match m with
  | [] => [(typoKey t, t)]
  | (k, existing) :: m' =>
      if JS.eqb k (typoKey t) then
        if confidenceOrder (confidence existing) <? confidenceOrder (confidence t)
        then (k, t) :: m' else m
      else (k, existing) :: typoMapSet m' t
  end.

(** [detectExportNameTypos(content, filePath, allFiles)] *)
Definition detectExportNameTypos (content filePath : JS.jsstring)
           (allFiles : list codeFile) : list typo :=
  map snd (fold_left typoMapSet (allFlags content filePath allFiles) []).

Inductive appliedFix : Type :=
| ExportNameTypo : nat -> JS.jsstring -> JS.jsstring -> appliedFix.

Record applied : Type := Applied {
  a_fixed : bool;
  a_content : JS.jsstring;
  a_fixes : list appliedFix
}.

(** The pattern built by [new RegExp] for one typo:
    [(export\s+(?:const|let|var|class|function|interface|type)\s+)NAME\b]
    with flag [g]. *)
Definition renamePattern (name : JS.jsstring) : regex :=
  seqs [Group 1 (seqs [Lit "export"; S1; declKind; S1]); LitS name; WordB].

Definition applyOne (acc : JS.jsstring * list appliedFix) (t : typo)
  : JS.jsstring * list appliedFix :=
  match confidence t with
  | High =>
      let before := fst acc in
      let fixedContent :=
        replaceAll false (renamePattern (original t))
                   (parseTemplate 1 (JS.str "$1" ++ suggested t)) before in
      if negb (JS.eqb fixedContent before)
      then (fixedContent,
            snd acc ++ [ExportNameTypo (line t) (original t) (suggested t)])
      else (fixedContent, snd acc)
  | _ => acc
  end.

(** [applySemanticFixes(content, filePath, typos)] *)
Definition applySemanticFixes (content filePath : JS.jsstring) (typos : list typo)
  : applied :=
  let sortedTypos := Sort.sort (fun a b => line a <? line b) typos in
  let r := fold_left applyOne sortedTypos (content, []) in
  Applied (negb (length (snd r) =? 0)) (fst r) (snd r).

Record result : Type := Result {
  fixed : bool;
  content : JS.jsstring;
  fixes : list appliedFix;
  shouldCommit : bool
}.

(** [semanticFix(content, filePath, allFiles)] *)
Definition semanticFix (c filePath : JS.jsstring) (allFiles : list codeFile)
  : result :=
  let typos := detectExportNameTypos c filePath allFiles in
  let unchanged := Result false c [] false in
  if 0 <? length typos then
    let r := applySemanticFixes c filePath typos in
    if a_fixed r then Result true (a_content r) (a_fixes r) true
    else unchanged
  else unchanged.

End SemanticFixer.

(* ================================================================== *)
(** * symbolGraph.js *)
(* ================================================================== *)

Module SymbolGraph.
Import Regex.

(** [SymbolType] *)
Inductive symbolType : Type :=
| FUNCTION | CLASS | METHOD | VARIABLE | IMPORT | EXPORT | INTERFACE | TYPE.

Definition symbolType_eqb (a b : symbolType) : bool :=
  match a, b with
  | FUNCTION, FUNCTION | CLASS, CLASS | METHOD, METHOD | VARIABLE, VARIABLE
  | IMPORT, IMPORT | EXPORT, EXPORT | INTERFACE, INTERFACE | TYPE, TYPE => true
  | _, _ => false
  end.

(** An extracted symbol.  The fields kept are those the graph is built
    from; parameters, flags, signature and documentation ride along in
    the source and are left out. *)
Record symbol : Type := Symbol {
  name : JS.jsstring;
  type : symbolType;
  line : nat;
  from : option JS.jsstring;
  extends : option JS.jsstring
}.

(** A symbol as stored in the graph: [{...symbol, id, file}]. *)
Record graphSymbol : Type := GraphSymbol {
  sym : symbol;
  id : JS.jsstring;
  file : JS.jsstring
}.

Record fileRecord : Type := FileRecord {
  path : JS.jsstring;
  language : JS.jsstring;
  symbolCount : nat;
  size : nat;
  imports : list symbol;
  exports : list symbol
}.

Inductive edgeType : Type := Imports | Extends.

Record edge : Type := Edge {
  e_from : JS.jsstring;
  e_to : JS.jsstring;
  e_type : edgeType
}.

(** What a repair reported: the syntax fixer's result or the semantic
    fixer's. *)
Record fixApplied : Type := FixApplied {
  fa_shouldCommit : bool;
  fa_content : JS.jsstring;
  fa_fixes : list (SyntaxFixer.fixEntry + SemanticFixer.appliedFix)
}.

Record syntaxFix : Type := SyntaxFix {
  filePath : JS.jsstring;
  originalContent : JS.jsstring;
  fixedContent : JS.jsstring;
  fixes : list (SyntaxFixer.fixEntry + SemanticFixer.appliedFix)
}.

Record graph : Type := Graph {
  symbols : gmap (list ascii) graphSymbol;
  files : gmap (list ascii) fileRecord;
  edges : list edge;
  syntaxFixes : list syntaxFix;
  totalSymbols : nat;
  totalFiles : nat
}.

Definition ofSyntaxResult (r : SyntaxFixer.result) : fixApplied :=
  FixApplied (SyntaxFixer.shouldCommit r)
             (match SyntaxFixer.content r with
              | SyntaxFixer.VString c => c
              | _ => []
              end)
             (map inl (SyntaxFixer.fixes r)).

Definition ofSemanticResult (r : SemanticFixer.result) : fixApplied :=
  FixApplied (SemanticFixer.shouldCommit r) (SemanticFixer.content r)
             (map inr (SemanticFixer.fixes r)).

Definition cap1 (m : rmatched) : JS.jsstring :=
  match capture 1 (m_caps m) with Some x => x | None => [] end.

(** [funcPatterns] of [extractGenericSymbols] *)
Definition funcPatterns : list regex :=
  [ seqs [Lit "function"; S1; Group 1 W1; S0; C "("];
    seqs [Lit "def"; S1; Group 1 W1; S0; C "("];
    seqs [Group 1 W1; S0; Chr (oneOf ":="); S0; Lit "function"; S0; C "("];
    seqs [Group 1 W1; S0; Chr (oneOf ":="); S0; C "(";
          Star true (Chr (noneOf ")")); C ")"; S0; Lit "=>"];
    seqs [Lit "const"; S1; Group 1 W1; S0; C "="; S0; C "(";
          Star true (Chr (noneOf ")")); C ")"; S0; Lit "=>"] ].

(** [classPatterns] of [extractGenericSymbols] *)
Definition classPatterns : list regex :=
  [ seqs [Lit "class"; S1; Group 1 W1];
    seqs [Lit "interface"; S1; Group 1 W1];
    seqs [Lit "type"; S1; Group 1 W1; S0; C "="] ].

(** The first pattern of the list that matches the line. *)
Fixpoint firstMatch (patterns : list regex) (l : JS.jsstring) : option rmatched :=
  match patterns with
  | [] => None
  | r :: patterns' =>
      match exec false r l with
      | Some m => Some m
      | None => firstMatch patterns' l
      end
  end.

Definition genericLine (lineNum : nat) (l : JS.jsstring) : list symbol :=
  (match firstMatch funcPatterns l with
   | Some m => [Symbol (cap1 m) FUNCTION lineNum None None]
   | None => []
   end)
  ++
  (match firstMatch classPatterns l with
   | Some m => [Symbol (cap1 m) CLASS lineNum None None]
   | None => []
   end).

(** [extractGenericSymbols(content, filePath)] *)
Definition extractGenericSymbols (content : JS.jsstring) : list symbol :=
  concat (SyntaxFixer.mapIndexed (fun i l => genericLine (i + 1) l) 0
            (JS.split JS.nl content)).

(** [/^(?:from\s+(\S+)\s+)?import\s+(.+)/] *)
Definition pyImport : regex :=
  seqs [Bol; Opt (seqs [Lit "from"; S1; Group 1 (Plus (Chr nonSpace)); S1]);
        Lit "import"; S1; Group 2 (Plus (Chr dot))].
(** [/^def\s+(\w+)\s*\((.*?)\)/] *)
Definition pyDef : regex :=
  seqs [Bol; Lit "def"; S1; Group 1 W1; S0; C "(";
        Group 2 (Star false (Chr dot)); C ")"].
(** [/^class\s+(\w+)(?:\(.*?\))?:/] *)
Definition pyClass : regex :=
  seqs [Bol; Lit "class"; S1; Group 1 W1;
        Opt (seqs [C "("; Star false (Chr dot); C ")"]); C ":"].

Definition pythonLine (lineNum : nat) (l : JS.jsstring) : list symbol :=
  (match exec false pyImport l with
   | Some m =>
       map (fun s =>
              Symbol (SemanticFixer.beforeFirst (JS.str " as ") (JS.trim s))
                     IMPORT lineNum (capture 1 (m_caps m)) None)
           (JS.split ","%char
              (match capture 2 (m_caps m) with Some x => x | None => [] end))
   | None => []
   end)
  ++
  (match exec false pyDef l with
   | Some m => [Symbol (cap1 m) FUNCTION lineNum None None]
   | None => []
   end)
  ++
  (match exec false pyClass l with
   | Some m => [Symbol (cap1 m) CLASS lineNum None None]
   | None => []
   end).

(** [parsePython(content, filePath)]; its [fixApplied] is always null. *)
Definition parsePython (content : JS.jsstring) : list symbol :=
  concat (SyntaxFixer.mapIndexed (fun i l => pythonLine (i + 1) l) 0
            (JS.split JS.nl content)).

(** [detectLanguage(ext)] *)
Definition detectLanguage (ext : JS.jsstring) : JS.jsstring :=
  let ext_is (e : string) := JS.eqb ext (JS.str e) in
  if ext_is ".js" || ext_is ".jsx" || ext_is ".mjs" then JS.str "javascript"
  else if ext_is ".ts" || ext_is ".tsx" then JS.str "typescript"
  else if ext_is ".py" then JS.str "python"
  else if ext_is ".java" then JS.str "java"
  else if ext_is ".cpp" then JS.str "cpp"
  else if ext_is ".c" then JS.str "c"
  else if ext_is ".go" then JS.str "go"
  else if ext_is ".rs" then JS.str "rust"
  else if ext_is ".rb" then JS.str "ruby"
  else if ext_is ".php" then JS.str "php"
  else JS.str "unknown".

(** The symbol id: the file path, two colons, the symbol name. *)
Definition symbolId (filePath symbolName : JS.jsstring) : JS.jsstring :=
  filePath ++ JS.str "::" ++ symbolName.

(** [buildEdges(symbols, filePath, graph)]: the edges it pushes. *)
Definition buildEdges (syms : list symbol) (filePath : JS.jsstring) : list edge :=
  map (fun imp =>
         Edge (symbolId filePath (name imp))
              (symbolId (match from imp with Some f => f | None => JS.str "null" end)
                        (name imp))
              Imports)
      (List.filter (fun s => symbolType_eqb (type s) IMPORT) syms)
  ++
  flat_map (fun cls =>
              match extends cls with
              | Some parent =>
                  [Edge (symbolId filePath (name cls)) (symbolId filePath parent) Extends]
              | None => []
              end)
           (List.filter (fun s => symbolType_eqb (type s) CLASS) syms).

Section WithParser.

(** Babel's [parser.parse] followed by the extraction loop over
    [ast.program.body]: the symbols, or [None] when anything in the
    [try] block throws.  The flag says whether the TypeScript plugin
    is on.  The loop run on repaired content extracts fewer kinds of
    symbol, hence a second function. *)
Variable extractFromAst : bool -> JS.jsstring -> option (list symbol).
Variable extractFromAstAfterFix : bool -> JS.jsstring -> option (list symbol).

(** [parseJavaScript] and [parseTypeScript] *)
Definition parseWithBabel (typescript : bool) (content filePath : JS.jsstring)
  : list symbol * option fixApplied :=
  match extractFromAst typescript content with
  | Some syms => (syms, None)
  | None =>
      let fixResult := SyntaxFixer.smartFix (SyntaxFixer.VString content) filePath in
      let fallback := (extractGenericSymbols content, None) in
      if SyntaxFixer.fixed fixResult then
        match extractFromAstAfterFix typescript (fa_content (ofSyntaxResult fixResult)) with
        | Some syms => (syms, Some (ofSyntaxResult fixResult))
        | None => fallback
        end
      else fallback
  end.

(** The dispatch on the file extension at the head of [analyzeFile]:
    the symbols and the fix to track. *)
Definition extractSymbols (f : SemanticFixer.codeFile)
           (semanticFixResult : option fixApplied)
  : list symbol * option fixApplied :=
  let ext := JS.toLowerCase (Path.extname (SemanticFixer.path f)) in
  let ext_is (e : string) := JS.eqb ext (JS.str e) in
  let content := SemanticFixer.fileContent f in
  if ext_is ".js" || ext_is ".jsx" || ext_is ".mjs" then
    parseWithBabel false content (SemanticFixer.path f)
  else if ext_is ".ts" || ext_is ".tsx" then
    parseWithBabel true content (SemanticFixer.path f)
  else if ext_is ".py" then (parsePython content, None)
  else (extractGenericSymbols content, semanticFixResult).

Definition addSymbol (filePath : JS.jsstring)
           (m : gmap (list ascii) graphSymbol) (s : symbol)
  : gmap (list ascii) graphSymbol :=
  <[symbolId filePath (name s) := GraphSymbol s (symbolId filePath (name s)) filePath]> m.

(** [analyzeFile(file, graph, repoPath, semanticFixResult)] *)
Definition analyzeFile (g : graph) (f : SemanticFixer.codeFile)
           (semanticFixResult : option fixApplied) : graph :=
  let p := SemanticFixer.path f in
  let ext := JS.toLowerCase (Path.extname p) in
  let '(syms, syntaxFixApplied) := extractSymbols f semanticFixResult in
  Graph
    (fold_left (addSymbol p) syms (symbols g))
    (<[p := FileRecord p (detectLanguage ext) (length syms)
                       (length (SemanticFixer.fileContent f))
                       (List.filter (fun s => symbolType_eqb (type s) IMPORT) syms)
                       (List.filter (fun s => symbolType_eqb (type s) EXPORT) syms)]>
       (files g))
    (edges g ++ buildEdges syms p)
    (syntaxFixes g ++
       match syntaxFixApplied with
       | Some fa =>
           if fa_shouldCommit fa
           then [SyntaxFix p (SemanticFixer.fileContent f) (fa_content fa) (fa_fixes fa)]
           else []
       | None => []
       end)
    (totalSymbols g) (totalFiles g).

(** Phase 1.  [semanticFix] runs on every file in turn and a fixed
    file gets its new content at once.  [context] is the scan of the
    repository when that found more files than were passed in;
    otherwise the context is [codeFiles] itself, so a file fixed
    earlier in the loop is seen with its new content. *)
Fixpoint phase1 (context : option (list SemanticFixer.codeFile))
         (done todo : list SemanticFixer.codeFile)
  : list (SemanticFixer.codeFile * option fixApplied) :=
  match todo with
  | [] => []
  | f :: todo' =>
      let allRepoFiles :=
        match context with Some l => l | None => done ++ todo end in
      let r := SemanticFixer.semanticFix (SemanticFixer.fileContent f)
                                         (SemanticFixer.path f) allRepoFiles in
      let f' := if SemanticFixer.fixed r
                then SemanticFixer.CodeFile (SemanticFixer.path f) (SemanticFixer.content r)
                else f in
      (f', if SemanticFixer.fixed r then Some (ofSemanticResult r) else None)
        :: phase1 context (done ++ [f']) todo'
  end.

(** [semanticFixResults.get(file.path)]: the result stored last under
    that path. *)
Definition semanticResultFor (p : JS.jsstring)
           (l : list (SemanticFixer.codeFile * option fixApplied)) : option fixApplied :=
  fold_left (fun acc x =>
               match snd x with
               | Some r => if JS.eqb (SemanticFixer.path (fst x)) p then Some r else acc
               | None => acc
               end) l None.

Definition emptyGraph (n : nat) : graph := Graph ∅ ∅ [] [] 0 n.

(** Phase 2: [analyzeFile] on every file in turn. *)
Definition phase2 (l : list (SemanticFixer.codeFile * option fixApplied)) : graph :=
  fold_left (fun g x => analyzeFile g (fst x) (semanticResultFor (SemanticFixer.path (fst x)) l))
            l (emptyGraph (length l)).

(** [buildSymbolGraph(codeFiles, repoPath)].  [scanned] is what
    [getAllCodeFiles(repoPath)] found on disk. *)
Definition buildSymbolGraph (codeFiles scanned : list SemanticFixer.codeFile) : graph :=
  let context := if length codeFiles <? length scanned then Some scanned else None in
  let g := phase2 (phase1 context [] codeFiles) in
  Graph (symbols g) (files g) (edges g) (syntaxFixes g)
        (base.size (symbols g)) (totalFiles g).

End WithParser.

(** [findReferences(graph, symbolName)] *)
Definition findReferences (g : graph) (symbolName : JS.jsstring) : list edge :=
  List.filter (fun e => JS.includes (e_to e) symbolName
                        || JS.includes (e_from e) symbolName)
              (edges g).

End SymbolGraph.

(* ================================================================== *)
(** * embeddingIndex.js *)
(* ================================================================== *)

Module EmbeddingIndex.

Local Open Scope float_scope.

(** One entry of [index.embeddings], and the same entry as a search
    result: [{...item, similarity, embedding: undefined}]. *)
Record embeddingRecord : Type := EmbeddingRecord {
  id : JS.jsstring;
  symbolName : JS.jsstring;
  symbolType : JS.jsstring;
  file : JS.jsstring;
  line : option nat;
  documentation : option JS.jsstring;
  signature : option JS.jsstring;
  embedding : option (list float)
}.

Record searchResult : Type := SearchResult {
  item : embeddingRecord;
  similarity : float
}.

Record embeddingIndex : Type := EmbeddingIndex {
  repoId : JS.jsstring;
  embeddings : list embeddingRecord
}.

(** The three sums of the [for] loop, each started at 0 and
    accumulated from the first component to the last. *)
Definition dotProduct (vec1 vec2 : list float) : float :=
  fold_left (fun acc p => acc + fst p * snd p) (combine vec1 vec2) 0.

Definition sumSquares (vec : list float) : float :=
  fold_left (fun acc x => acc + x * x) vec 0.

(** [cosineSimilarity(vec1, vec2)]; [inl] is the thrown [Error]. *)
Definition cosineSimilarity (vec1 vec2 : list float) : JS.jsstring + float :=
  if negb (length vec1 =? length vec2)%nat
  then inl (JS.str "Vectors must have the same length")
  else
    let norm1 := PrimFloat.sqrt (sumSquares vec1) in
    let norm2 := PrimFloat.sqrt (sumSquares vec2) in
    if (norm1 =? 0) || (norm2 =? 0) then inr 0
    else inr (dotProduct vec1 vec2 / (norm1 * norm2)).

(** The comparator [(a, b) => b.similarity - a.similarity] is positive,
    so that [a] sorts after [b]. *)
Definition sortsAfter (a b : searchResult) : bool :=
  0 <? similarity b - similarity a.

Definition strip (r : embeddingRecord) : embeddingRecord :=
  EmbeddingRecord (id r) (symbolName r) (symbolType r) (file r) (line r)
                  (documentation r) (signature r) None.

(** [cosineSimilarity(queryEmbedding, item.embedding)]: reading the
    length of a missing embedding throws a TypeError. *)
Definition score (queryEmbedding : list float) (r : embeddingRecord)
  : JS.jsstring + float :=
  match embedding r with
  | Some v => cosineSimilarity queryEmbedding v
  | None => inl (JS.str "Cannot read properties of undefined (reading 'length')")
  end.

(** The callback of [index.embeddings.map], run over the whole array;
    a throw in any call aborts the map. *)
Fixpoint scoreAll (queryEmbedding : list float) (l : list embeddingRecord)
  : JS.jsstring + list searchResult :=
  match l with
  | [] => inr []
  | r :: l' =>
      match score queryEmbedding r with
      | inl e => inl e
      | inr sim =>
          match scoreAll queryEmbedding l' with
          | inl e => inl e
          | inr rs => inr (SearchResult (strip r) sim :: rs)
          end
      end
  end.

Section WithModel.

(** [generateEmbedding(text)]: the vector the embedding model returns
    for a text, or the error it throws. *)
Variable generateEmbedding : JS.jsstring -> JS.jsstring + list float.

(** [semanticSearch(index, query, topK)]; [inl] is the error it
    rethrows. *)
Definition semanticSearch (index : embeddingIndex) (query : JS.jsstring)
           (topK : nat) : JS.jsstring + list searchResult :=
  match generateEmbedding query with
  | inl e => inl e
  | inr queryEmbedding =>
      match scoreAll queryEmbedding (embeddings index) with
      | inl e => inl e
      | inr results => inr (firstn topK (Sort.sort sortsAfter results))
      end
  end.

(** [findSimilarSymbols(index, symbolName, topK)] *)
Definition findSimilarSymbols (index : embeddingIndex) (name : JS.jsstring)
           (topK : nat) : JS.jsstring + list searchResult :=
  semanticSearch index (JS.str "function or class named " ++ name) topK.

End WithModel.

(** [findSymbolsByType(index, symbolType, limit)] *)
Definition findSymbolsByType (index : embeddingIndex) (type : JS.jsstring)
           (limit : nat) : list embeddingRecord :=
  firstn limit (List.filter (fun item => JS.eqb (symbolType item) type)
                            (embeddings index)).

(** [findSymbolsInFile(index, filePath, limit)] *)
Definition findSymbolsInFile (index : embeddingIndex) (filePath : JS.jsstring)
           (limit : nat) : list embeddingRecord :=
  firstn limit (List.filter (fun item => JS.eqb (file item) filePath)
                            (embeddings index)).

(** ** The index files *)

Inductive errno : Type := ENOENT | EACCES | EISDIR.

(** What sits at a path: a file that can be removed, a file whose
    directory refuses the removal, or a directory. *)
Inductive node : Type := RegularFile | ProtectedFile | Directory.

(** [fs.access(path)] *)
Definition access (fs : gmap (list ascii) node) (p : JS.jsstring) : errno + unit :=
  match fs !! p with
  | Some _ => inr tt
  | None => inl ENOENT
  end.

(** [fs.unlink(path)] *)
Definition unlink (fs : gmap (list ascii) node) (p : JS.jsstring)
  : (errno + unit) * gmap (list ascii) node :=
  match fs !! p with
  | Some RegularFile => (inr tt, delete p fs)
  | Some ProtectedFile => (inl EACCES, fs)
  | Some Directory => (inl EISDIR, fs)
  | None => (inl ENOENT, fs)
  end.

(** The pattern "/[^a-zA-Z0-9-_]/g" replaced by an underscore. *)
Definition sanitizeRepoId (repoId : JS.jsstring) : JS.jsstring :=
  map (fun c =>
         let n := JS.code c in
         if ((97 <=? n) && (n <=? 122) || (65 <=? n) && (n <=? 90)
             || (48 <=? n) && (n <=? 57) || (n =? 45) || (n =? 95))%nat
         then c else "_"%char)
      repoId.

(** What the call wrote to the log. *)
Inductive logged : Type :=
| IndexDeleted : logged
| IndexFileDoesNotExist : logged
| FailedToDeleteIndex : errno -> logged.

(** How an [async] call ends. *)
Inductive settled (A : Type) : Type :=
| Resolved : A -> settled A
| Rejected : errno -> settled A.
Arguments Resolved {A} _.
Arguments Rejected {A} _.

Section WithIndexDir.

(** [INDEX_DIR], that is [<cwd>/data/indexes]. *)
Variable indexDir : JS.jsstring.

Definition indexPath (repoId : JS.jsstring) : JS.jsstring :=
  indexDir ++ JS.str "/" ++ sanitizeRepoId repoId ++ JS.str ".json".

(** The inner [try] of [deleteIndex]: [access], then [unlink]. *)
Definition accessThenUnlink (fs : gmap (list ascii) node) (p : JS.jsstring)
  : settled logged * gmap (list ascii) node :=
  match access fs p with
  | inl e => (Rejected e, fs)
  | inr _ =>
      match unlink fs p with
      | (inl e, fs') => (Rejected e, fs')
      | (inr _, fs') => (Resolved IndexDeleted, fs')
      end
  end.

(** [deleteIndex(repoId)]: the inner [catch] swallows [ENOENT] and
    rethrows the rest; the outer [catch] logs a warning. *)
Definition deleteIndex (repoId : JS.jsstring) (fs : gmap (list ascii) node)
  : settled logged * gmap (list ascii) node :=
  let inner :=
    match accessThenUnlink fs (indexPath repoId) with
    | (Rejected ENOENT, fs') => (Resolved IndexFileDoesNotExist, fs')
    | other => other
    end in
  match inner with
  | (Rejected e, fs') => (Resolved (FailedToDeleteIndex e), fs')
  | other => other
  end.


End WithIndexDir.

End EmbeddingIndex.

(* ================================================================== *)
(** * contextRetriever.js *)
(* ================================================================== *)

Module ContextRetriever.

(** One entry of a file's [relevantSymbols]. *)
Record relevantSymbol : Type := RelevantSymbol {
  rs_name : JS.jsstring;
  rs_type : JS.jsstring;
  rs_line : option nat;
  rs_similarity : float;
  rs_documentation : option JS.jsstring;
  rs_signature : option JS.jsstring
}.

Record snippet : Type := Snippet {
  sn_symbolName : JS.jsstring;
  sn_line : option nat;
  sn_code : JS.jsstring
}.

(** A file of the context; [snippet] and [fullContent] may be null. *)
Record fileContext : Type := FileContext {
  fc_path : JS.jsstring;
  fc_language : JS.jsstring;
  fc_relevantSymbols : list relevantSymbol;
  fc_imports : list JS.jsstring;
  fc_exports : list JS.jsstring;
  fc_snippet : option (list snippet);
  fc_fullContent : option JS.jsstring
}.

Record callEdge : Type := CallEdge {
  caller : JS.jsstring;
  callee : JS.jsstring;
  ce_symbolName : JS.jsstring
}.

Record dependency : Type := Dependency {
  dep_from : JS.jsstring;
  dep_to : JS.jsstring;
  dep_symbol : JS.jsstring
}.

Record topFile : Type := TopFile {
  tf_path : JS.jsstring;
  tf_symbolCount : nat;
  tf_language : JS.jsstring
}.

Record summary : Type := Summary {
  totalFiles : nat;
  totalSymbols : nat;
  languages : list JS.jsstring;
  symbolTypes : list (JS.jsstring * nat);
  topFiles : list topFile
}.

Record context : Type := Context {
  relevantFiles : list fileContext;
  relevantSymbols : list EmbeddingIndex.searchResult;
  callGraph : list callEdge;
  dependencies : list dependency;
  ctx_summary : summary
}.

Definition line_string (l : option nat) : JS.jsstring :=
  match l with Some n => JS.ofNat n | None => JS.str "undefined" end.

(** [JSON.stringify(symbolTypes, null, 2)] for an object whose keys are
    symbol type names and whose values are counts. *)
Definition stringifySymbolTypes (o : list (JS.jsstring * nat)) : JS.jsstring :=
  match o with
  | [] => JS.str "{}"
  | _ =>
      JS.str "{\n"
      ++ JS.join (JS.str ",\n")
           (map (fun kv => JS.str "  \x22" ++ fst kv ++ JS.str "\x22: " ++ JS.ofNat (snd kv)) o)
      ++ JS.str "\n}"
  end.

(** [x.toFixed(1)] for [|x| < 1e21]: the integer [n] nearest to
    [10 * |x|], the larger one on a tie, written with one decimal.
    Beyond that range the source falls back to [String(x)], which the
    model does not render in exponent notation. *)
Definition toFixed1 (x : float) : JS.jsstring :=
  match Prim2SF x with
  | S754_nan => JS.str "NaN"
  | S754_infinity false => JS.str "Infinity"
  | S754_infinity true => JS.str "-Infinity"
  | S754_zero _ => JS.str "0.0"
  | S754_finite sign m e =>
      let n :=
        match e with
        | Zneg d => ((2 * 10 * Zpos m + 2 ^ Zpos d) / (2 * 2 ^ Zpos d))%Z
        | _ => (10 * Zpos m * 2 ^ e)%Z
        end in
      (if sign then JS.str "-" else [])
      ++ JS.ofZ (n / 10) ++ JS.str "." ++ JS.ofZ (n mod 10)
  end.

Definition truthy (o : option JS.jsstring) : option JS.jsstring :=
  match o with
  | Some [] => None
  | other => other
  end.

Definition formatSymbol (s : relevantSymbol) : list JS.jsstring :=
  [JS.str "  - " ++ rs_name s ++ JS.str " (" ++ rs_type s ++ JS.str ") at line "
     ++ line_string (rs_line s)]
  ++ match truthy (rs_documentation s) with
     | Some d => [JS.str "    Doc: " ++ d]
     | None => []
     end
  ++ match truthy (rs_signature s) with
     | Some g => [JS.str "    Signature: " ++ g]
     | None => []
     end
  ++ [JS.str "    Relevance: " ++ toFixed1 (rs_similarity s * 100)%float ++ JS.str "%"].

Definition formatSnippet (sn : snippet) : list JS.jsstring :=
  [JS.str "\n  Symbol: " ++ sn_symbolName sn ++ JS.str " (line "
     ++ line_string (sn_line sn) ++ JS.str ")";
   JS.str "  ```"; sn_code sn; JS.str "  ```"].

Definition formatFile (f : fileContext) : list JS.jsstring :=
  [JS.str "\n--- File: " ++ fc_path f ++ JS.str " (" ++ fc_language f ++ JS.str ") ---"]
  ++ (if 0 <? length (fc_imports f)
      then [JS.str "Imports: " ++ JS.join (JS.str ", ") (fc_imports f)] else [])
  ++ (if 0 <? length (fc_exports f)
      then [JS.str "Exports: " ++ JS.join (JS.str ", ") (fc_exports f)] else [])
  ++ [JS.str "\nRelevant Symbols:"]
  ++ flat_map formatSymbol (firstn 10 (fc_relevantSymbols f))
  ++ match fc_snippet f with
     | Some ((_ :: _) as sns) =>
         JS.str "\nCode Snippets:" :: flat_map formatSnippet (firstn 3 sns)
     | _ => []
     end.

(** [formatContextForAI(context)] *)
Definition formatContextForAI (c : context) : JS.jsstring :=
  let sm := ctx_summary c in
  JS.join (JS.str "\n")
    ([JS.str "=== CODE CONTEXT SUMMARY ===";
      JS.str "Total Files: " ++ JS.ofNat (totalFiles sm);
      JS.str "Total Symbols: " ++ JS.ofNat (totalSymbols sm);
      JS.str "Languages: " ++ JS.join (JS.str ", ") (languages sm);
      JS.str "Symbol Types: " ++ stringifySymbolTypes (symbolTypes sm);
      [];
      JS.str "=== TOP RELEVANT FILES ==="]
     ++ map (fun t => JS.str "- " ++ tf_path t ++ JS.str " (" ++ tf_language t
                        ++ JS.str ", " ++ JS.ofNat (tf_symbolCount t)
                        ++ JS.str " relevant symbols)")
            (topFiles sm)
     ++ [[]; JS.str "=== FILE DETAILS ==="]
     ++ flat_map formatFile (relevantFiles c)
     ++ (if 0 <? length (dependencies c)
         then JS.str "\n=== DEPENDENCIES ==="
                :: map (fun d => dep_from d ++ JS.str " -> " ++ dep_to d
                                   ++ JS.str " (" ++ dep_symbol d ++ JS.str ")")
                       (firstn 20 (dependencies c))
         else [])).

(** [estimateTokens(text)]: [Math.ceil(text.length / 4)] *)
Definition estimateTokens (text : JS.jsstring) : nat := (length text + 3) / 4.

(** The body of the [for] loop over [compactContext.relevantFiles]. *)
Definition compactFile (f : fileContext) : fileContext :=
  FileContext (fc_path f) (fc_language f) (fc_relevantSymbols f)
              (fc_imports f) (fc_exports f)
              (match fc_snippet f with
               | Some sns => Some (firstn 2 sns)
               | None => None
               end)
              None.

(** [createCompactContext(context, maxTokens)].  The files kept are the
    caller's own objects, which the loop changes in place; the model
    returns their new state. *)
Definition createCompactContext (c : context) (maxTokens : nat) : context :=
  let estimated := estimateTokens (formatContextForAI c) in
  if estimated <=? maxTokens then c
  else
    Context (map compactFile (firstn 5 (relevantFiles c)))
            (firstn 20 (relevantSymbols c))
            (firstn 10 (callGraph c))
            (firstn 10 (dependencies c))
            (ctx_summary c).

(** ** Snippets, dependencies and calls *)

(** [contextLines]: lines shown before and after a symbol. *)
Definition contextLines : nat := 5.

(** What the inner loop appends for line [i]: its number, the line,
    a line feed. *)
Definition renderLine (lines : list JS.jsstring) (i : nat) : JS.jsstring :=
  JS.ofNat (i + 1) ++ JS.str ": " ++ nth i lines [] ++ JS.str "\n".

(** The body of the inner loop: [snippet] and [addedLines]. *)
Definition addLine (lines : list JS.jsstring) (acc : JS.jsstring * gset nat)
           (i : nat) : JS.jsstring * gset nat :=
  if bool_decide (i ∈ snd acc) then acc
  else (fst acc ++ renderLine lines i, {[i]} ∪ snd acc).

(** The body of the loop over the symbols: [snippets] and
    [addedLines].  A symbol without a line, or at line 0, is skipped;
    [startLine] is [Math.max(0, line - contextLines - 1)]. *)
Definition snippetStep (lines : list JS.jsstring)
           (acc : list snippet * gset nat)
           (symbol : EmbeddingIndex.embeddingRecord) : list snippet * gset nat :=
  match EmbeddingIndex.line symbol with
  | None | Some 0 => acc
  | Some line =>
      let startLine := line - contextLines - 1 in
      let endLine := Nat.min (length lines) (line + contextLines) in
      let r := fold_left (addLine lines) (seq startLine (endLine - startLine))
                         ([], snd acc) in
      (match fst r with
       | [] => fst acc
       | code => fst acc ++ [Snippet (EmbeddingIndex.symbolName symbol) (Some line) code]
       end,
       snd r)
  end.

(** [extractRelevantSnippets(content, relevantSymbols)]; the symbols
    are index records or search results, read through their
    [symbolName] and [line]. *)
Definition extractRelevantSnippets (content : JS.jsstring)
           (relevantSymbols : list EmbeddingIndex.embeddingRecord) : list snippet :=
  fst (fold_left (snippetStep (JS.split JS.nl content))
                 (firstn 5 relevantSymbols) ([], ∅)).

Definition isImports (t : SymbolGraph.edgeType) : bool :=
  match t with SymbolGraph.Imports => true | SymbolGraph.Extends => false end.

(** [buildDependencyGraph(relevantFiles, symbolGraph)]; the [type] of
    every entry is ['imports']. *)
Definition buildDependencyGraph (files : list fileContext) (g : SymbolGraph.graph)
  : list dependency :=
  flat_map
    (fun file =>
       flat_map
         (fun importName =>
            map (fun e => Dependency (fc_path file) (SymbolGraph.e_to e) importName)
                (List.filter
                   (fun e => JS.includes (SymbolGraph.e_from e) (fc_path file)
                             && isImports (SymbolGraph.e_type e))
                   (SymbolGraph.edges g)))
         (fc_imports file))
    files.

(** [buildCallGraph(relevantSymbols, symbolGraph)] *)
Definition buildCallGraph (symbols : list EmbeddingIndex.searchResult)
           (g : SymbolGraph.graph) : list callEdge :=
  flat_map
    (fun symbol =>
       let r := EmbeddingIndex.item symbol in
       if JS.eqb (EmbeddingIndex.symbolType r) (JS.str "function")
          || JS.eqb (EmbeddingIndex.symbolType r) (JS.str "method")
       then
         map (fun ref => CallEdge (SymbolGraph.e_from ref) (SymbolGraph.e_to ref)
                                  (EmbeddingIndex.symbolName r))
             (firstn 5 (SymbolGraph.findReferences g (EmbeddingIndex.symbolName r)))
       else [])
    symbols.

End ContextRetriever.

(* ================================================================== *)
(** * What a match looks like *)
(* ================================================================== *)

Module RegexSpec.
Import Regex.

(** Zero or more steps of a relation on matcher states. *)
Inductive star (R : mstate -> mstate -> Prop) : mstate -> mstate -> Prop :=
| star_refl : forall st, star R st st
| star_step : forall st st1 st2, R st st1 -> star R st1 st2 -> star R st st2.

(** What a successful run of [rmatch] on [r] does to the state, the
    look-around conditions left aside. *)
Fixpoint steps (r : regex) (st st' : mstate) {struct r} : Prop :=
  match r with
  | Eps | Bol | Eol | WordB => st' = st
  | Chr p =>
      exists c tl, rest st = c :: tl /\ p c = true
                   /\ st' = MState (Some c) tl (caps st)
  | Seq a b => exists st1, steps a st st1 /\ steps b st1 st'
  | Alt a b => steps a st st' \/ steps b st st'
  | Star _ a => star (steps a) st st'
  | Group n a =>
      exists st1, steps a st st1
                  /\ st' = MState (prev st1) (rest st1)
                                  ((n, consumed (rest st) (rest st1)) :: caps st1)
  end.

(** Every character set of the pattern accepts only characters in [P]. *)
Fixpoint allChr (P : ascii -> Prop) (r : regex) : Prop :=
  match r with
  | Chr p => forall c, p c = true -> P c
  | Seq a b | Alt a b => allChr P a /\ allChr P b
  | Star _ a | Group _ a => allChr P a
  | _ => True
  end.

(** The capturing groups of a pattern, left to right. *)
Fixpoint groupsOf (r : regex) : list nat :=
  match r with
  | Seq a b | Alt a b => groupsOf a ++ groupsOf b
  | Star _ a => groupsOf a
  | Group n a => n :: groupsOf a
  | _ => []
  end.

(** No character set of the pattern accepts [c]. *)
Fixpoint avoids (c : ascii) (r : regex) : bool :=
  match r with
  | Chr p => negb (p c)
  | Seq a b | Alt a b => avoids c a && avoids c b
  | Star _ a | Group _ a => avoids c a
  | _ => true
  end.

(** A sequence of capturing groups without inner groups, and of
    group-free parts that never consume [c]. *)
Fixpoint linear (c : ascii) (r : regex) : bool :=
  match r with
  | Seq a b => linear c a && linear c b
  | Group _ a => (length (groupsOf a) =? 0)
  | _ => (length (groupsOf r) =? 0) && avoids c r
  end.

Definition capval (n : nat) (cs : list (nat * JS.jsstring)) : JS.jsstring :=
  match capture n cs with Some x => x | None => [] end.

(** The occurrences of [c] in the captures [gs]. *)
Definition capSum (c : ascii) (cs : list (nat * JS.jsstring)) (gs : list nat) : nat :=
  list_sum (map (fun n => JS.count c (capval n cs)) gs).

Fixpoint templateCaps (t : list piece) : list nat :=
  match t with
  | [] => []
  | PCap n :: t' => n :: templateCaps t'
  | _ :: t' => templateCaps t'
  end.

(** Only literal text free of [c], and captures. *)
Fixpoint templatePlain (c : ascii) (t : list piece) : bool :=
  match t with
  | [] => true
  | PLit s :: t' => (JS.count c s =? 0) && templatePlain c t'
  | PCap _ :: t' => templatePlain c t'
  | _ => false
  end.

Fixpoint nodupb (l : list nat) : bool :=
  match l with
  | [] => true
  | x :: l' => negb (existsb (Nat.eqb x) l') && nodupb l'
  end.

Fixpoint natlist_eqb (a b : list nat) : bool :=
  match a, b with
  | [], [] => true
  | x :: a', y :: b' => (x =? y) && natlist_eqb a' b'
  | _, _ => false
  end.

(** A replacement that keeps the number of [c]: what is matched
    outside the groups never holds [c], and the template puts every
    group back once, adding no [c]. *)
Definition keepsCount (c : ascii) (r : regex) (t : list piece) : bool :=
  linear c r && nodupb (groupsOf r) && natlist_eqb (templateCaps t) (groupsOf r)
  && templatePlain c t.

End RegexSpec.

(* ================================================================== *)
(** * The properties, stated *)
(* ================================================================== *)

Module Props.

(** ** Syntax repair *)

(** [repair(content, filePath)] of the specification is [smartFix] on a
    string. *)
Definition repair (c filePath : JS.jsstring) : SyntaxFixer.result :=
  SyntaxFixer.smartFix (SyntaxFixer.VString c) filePath.

Definition repairedContent (c filePath : JS.jsstring) : JS.jsstring :=
  match SyntaxFixer.content (repair c filePath) with
  | SyntaxFixer.VString c' => c'
  | _ => c
  end.

(** [smartFix]'s choice of language. *)
Definition languageOf (filePath : JS.jsstring) : JS.jsstring :=
  if JS.endsWith filePath (JS.str ".ts") || JS.endsWith filePath (JS.str ".tsx")
  then JS.str "typescript" else JS.str "javascript".

(** The text whose brackets [repair] counts: the content after the
    earlier fixes. *)
Definition textBalanced (c filePath : JS.jsstring) : JS.jsstring :=
  SyntaxFixer.fixedContent (SyntaxFixer.beforeBalancing (languageOf filePath) c).

(** The fixes that append closing parentheses or square brackets. *)
Definition isClosingFix (x : SyntaxFixer.fixEntry) : bool :=
  match x with
  | SyntaxFixer.MissingClosingParen _ | SyntaxFixer.MissingClosingBracket _ => true
  | _ => false
  end.

Definition roundAndSquare : JS.jsstring := JS.str "()[]".

(** Bracket balance of a text. *)
Definition balancedBraces (c : JS.jsstring) : Prop :=
  JS.count "{"%char c = JS.count "}"%char c.
Definition balancedParens (c : JS.jsstring) : Prop :=
  JS.count "("%char c = JS.count ")"%char c.
Definition balancedBrackets (c : JS.jsstring) : Prop :=
  JS.count "["%char c = JS.count "]"%char c.

(** ** Compaction caps *)

Definition snippetsWithin (n : nat) (f : ContextRetriever.fileContext) : Prop :=
  match ContextRetriever.fc_snippet f with
  | Some sns => length sns <= n
  | None => True
  end.

Definition withinCaps (c : ContextRetriever.context) : Prop :=
  length (ContextRetriever.relevantFiles c) <= 5
  /\ length (ContextRetriever.relevantSymbols c) <= 20
  /\ length (ContextRetriever.dependencies c) <= 10
  /\ Forall (snippetsWithin 2) (ContextRetriever.relevantFiles c).

(** ** Cosine similarity and search *)



(** Each result's similarity is at most that of the result before it. *)
Definition descending (l : list EmbeddingIndex.searchResult) : Prop :=
  Sorted (fun a b =>
            (EmbeddingIndex.similarity b <=? EmbeddingIndex.similarity a)%float = true) l.

(** The sign of the comparator agrees with the order of the two
    similarities it compares. *)
Definition comparatorAgrees (x y : float) : Prop :=
  if (0 <? y - x)%float then (x <=? y)%float = true else (y <=? x)%float = true.

(** The comparator [after] agrees with the relation [R] on a pair. *)
Definition agrees {A : Type} (after : A -> A -> bool) (R : A -> A -> Prop)
           (x y : A) : Prop :=
  if after x y then R y x else R x y.

Definition stripped (r : EmbeddingIndex.searchResult) : Prop :=
  EmbeddingIndex.embedding (EmbeddingIndex.item r) = None.

(** The similarities computed for the records of an index. *)
Definition scores (q : list float) (index : EmbeddingIndex.embeddingIndex) : list float :=
  match EmbeddingIndex.scoreAll q (EmbeddingIndex.embeddings index) with
  | inr rs => map EmbeddingIndex.similarity rs
  | inl _ => []
  end.

(** ** Graph consistency *)



(** The ids the run gives to the symbols of the analysed files. *)
Definition idsOf (f : SemanticFixer.codeFile) (syms : list SymbolGraph.symbol)
  : list JS.jsstring :=
  map (fun s => SymbolGraph.symbolId (SemanticFixer.path f) (SymbolGraph.name s)) syms.

(** The files as Phase 2 analyses them: with the content Phase 1 left. *)
Definition analysedFiles (codeFiles scanned : list SemanticFixer.codeFile)
  : list SemanticFixer.codeFile :=
  map fst (SymbolGraph.phase1
             (if length codeFiles <? length scanned then Some scanned else None)
             [] codeFiles).

Section WithParser.
Variable ea eaf : bool -> JS.jsstring -> option (list SymbolGraph.symbol).

(** The symbols extracted from a file. *)
Definition extracted (f : SemanticFixer.codeFile) : list SymbolGraph.symbol :=
  fst (SymbolGraph.extractSymbols ea eaf f None).

Definition idsIn (f : SemanticFixer.codeFile) : list JS.jsstring :=
  idsOf f (extracted f).

(** The entries they make in [graph.symbols]. *)
Definition entriesOf (f : SemanticFixer.codeFile)
  : list (list ascii * SymbolGraph.graphSymbol) :=
  map (fun s =>
         (SymbolGraph.symbolId (SemanticFixer.path f) (SymbolGraph.name s),
          SymbolGraph.GraphSymbol s
            (SymbolGraph.symbolId (SemanticFixer.path f) (SymbolGraph.name s))
            (SemanticFixer.path f)))
      (extracted f).
End WithParser.

(** ** Naming repair *)

(** The returned flags hold a high-confidence flag for the pair. *)
Definition flagged (typos : list SemanticFixer.typo) (e i : JS.jsstring) : Prop :=
  exists t, In t typos
            /\ SemanticFixer.original t = e
            /\ SemanticFixer.suggested t = i
            /\ SemanticFixer.confidence t = SemanticFixer.High.


(** ** Sample inputs *)

(** Six small files, no symbols. *)
Definition sixFiles : ContextRetriever.context :=
  let f (p : string) :=
    ContextRetriever.FileContext (JS.str p) (JS.str "javascript") [] [] [] None None in
  ContextRetriever.Context
    [f "a.js"; f "b.js"; f "c.js"; f "d.js"; f "e.js"; f "f.js"] [] [] []
    (ContextRetriever.Summary 6 0 [JS.str "javascript"] [] []).

Definition record (n : string) (v : list float) : EmbeddingIndex.embeddingRecord :=
  EmbeddingIndex.EmbeddingRecord (JS.str n) (JS.str n) (JS.str "function")
    (JS.str "a.js") (Some 1) None None (Some v).

(** An embedding model that answers every query with [[1, 1]], and an
    index with one very large stored vector. *)
Definition nanQuery : JS.jsstring -> JS.jsstring + list float :=
  fun _ => inr [1; 1]%float.

Definition nanIndex : EmbeddingIndex.embeddingIndex :=
  EmbeddingIndex.EmbeddingIndex (JS.str "repo")
    [record "a.js::huge" [0x1p+1023; 0x1p+1023]%float;
     record "a.js::unit" [1; 0]%float].

Definition unitQuery : JS.jsstring -> JS.jsstring + list float :=
  fun _ => inr [1; 0]%float.

Definition smallIndex : EmbeddingIndex.embeddingIndex :=
  EmbeddingIndex.EmbeddingIndex (JS.str "repo")
    [record "a.js::low" [0; 1]%float; record "a.js::high" [1; 0]%float;
     record "a.js::mid" [1; 1]%float].

(** A Babel that rejects everything; the sample repositories below
    hold no JavaScript or TypeScript file, so it is never asked. *)
Definition noBabel : bool -> JS.jsstring -> option (list SymbolGraph.symbol) :=
  fun _ _ => None.


Definition smallRepo : list SemanticFixer.codeFile :=
  [SemanticFixer.CodeFile (JS.str "tool.py") (JS.str "import os\ndef run(x):");
   SemanticFixer.CodeFile (JS.str "lib.go") (JS.str "function run(a) {")].

Definition collidingFiles : list SemanticFixer.codeFile :=
  [SemanticFixer.CodeFile (JS.str "bcdefghij.js")
     (JS.str "export const a = 1;\nexport const ab = 2;\n");
   SemanticFixer.CodeFile (JS.str "main.js")
     (JS.str "import { bcdefghij, cdefghij } from './bcdefghij';\n")].

(** ** Further properties *)

(** The edit distance of two strings, by the usual recursion on their
    first characters: drop one from the first string, drop one from the
    second, or pair the two, at cost 1 unless they are equal. *)
Fixpoint editDistance (a b : JS.jsstring) : nat :=
  match a with
  | [] => length b
  | x :: a' =>
      (fix inner (b : JS.jsstring) : nat :=
         match b with
         | [] => length a
         | y :: b' =>
             Nat.min (Nat.min (editDistance a' b + 1) (inner b' + 1))
                     (editDistance a' b' + (if JS.chr_eqb x y then 0 else 1))
         end) b
  end.

(** The prefixes of a string, shortest first. *)
Fixpoint prefixes (s : JS.jsstring) : list JS.jsstring :=
  match s with
  | [] => [[]]
  | c :: s' => [] :: map (cons c) (prefixes s')
  end.


(** The extensions [analyzeFile] hands to Babel. *)
Definition babelExtensions : list JS.jsstring :=
  [JS.str ".js"; JS.str ".jsx"; JS.str ".mjs"; JS.str ".ts"; JS.str ".tsx"].

(** The extension [analyzeFile] dispatches on. *)
Definition extensionOf (p : JS.jsstring) : JS.jsstring :=
  JS.toLowerCase (Path.extname p).

Definition isSemantic {A B : Type} (x : A + B) : Prop :=
  match x with inr _ => True | inl _ => False end.

(** What Phase 1 may do to a file: leave it, or give it the content
    [semanticFix] returned for it within some list of files. *)
Definition phase1Step (f f' : SemanticFixer.codeFile) : Prop :=
  SemanticFixer.path f' = SemanticFixer.path f
  /\ (f' = f
      \/ exists allRepoFiles,
           let r := SemanticFixer.semanticFix (SemanticFixer.fileContent f)
                                              (SemanticFixer.path f) allRepoFiles in
           SemanticFixer.fixed r = true
           /\ SemanticFixer.fileContent f' = SemanticFixer.content r).

(** What [analyzeFile] pushes on [graph.syntaxFixes] for one file. *)
Definition tracked (ea eaf : bool -> JS.jsstring -> option (list SymbolGraph.symbol))
           (f : SemanticFixer.codeFile) (semanticFixResult : option SymbolGraph.fixApplied)
  : list SymbolGraph.syntaxFix :=
  match snd (SymbolGraph.extractSymbols ea eaf f semanticFixResult) with
  | Some fa =>
      if SymbolGraph.fa_shouldCommit fa
      then [SymbolGraph.SyntaxFix (SemanticFixer.path f) (SemanticFixer.fileContent f)
              (SymbolGraph.fa_content fa) (SymbolGraph.fa_fixes fa)]
      else []
  | None => []
  end.

(** The edge [buildEdges] makes for an import symbol of a file; a
    missing [from] is printed as [null]. *)
Definition importEdge (filePath : JS.jsstring) (s : SymbolGraph.symbol) : SymbolGraph.edge :=
  SymbolGraph.Edge
    (SymbolGraph.symbolId filePath (SymbolGraph.name s))
    (SymbolGraph.symbolId
       (match SymbolGraph.from s with Some f => f | None => JS.str "null" end)
       (SymbolGraph.name s))
    SymbolGraph.Imports.

(** A Babel that accepts repaired content and finds nothing in it. *)
Definition emptyBabel : bool -> JS.jsstring -> option (list SymbolGraph.symbol) :=
  fun _ _ => Some [].

Definition unclosedCall : list SemanticFixer.codeFile :=
  [SemanticFixer.CodeFile (JS.str "a.js") (JS.str "run(1")].

(** The characters [sanitizeRepoId] keeps: letters, digits, the hyphen
    and the underscore. *)
Definition safeChar (c : ascii) : bool := JS.isWord c || (JS.code c =? 45).

(** A record the query cannot be compared with: no embedding, or one of
    another length. *)
Definition incomparable (q : list float) (r : EmbeddingIndex.embeddingRecord) : Prop :=
  match EmbeddingIndex.embedding r with
  | None => True
  | Some v => length v <> length q
  end.

(** A result is a record of the index, stripped, with its score. *)
Definition scored (q : list float) (rec : EmbeddingIndex.embeddingRecord)
           (r : EmbeddingIndex.searchResult) : Prop :=
  EmbeddingIndex.item r = EmbeddingIndex.strip rec
  /\ EmbeddingIndex.score q rec = inr (EmbeddingIndex.similarity r).

Definition brokenIndex : EmbeddingIndex.embeddingIndex :=
  EmbeddingIndex.EmbeddingIndex (JS.str "repo")
    [record "a.js::good" [0; 1]%float; record "a.js::short" [1]%float].

(** The room a list of sections takes once joined by line feeds: the
    length of each, plus one. *)
Definition weight (l : list JS.jsstring) : nat :=
  list_sum (map (fun x => S (length x)) l).

(** The import edges [buildDependencyGraph] keeps for a file: those
    whose [from] contains the path. *)
Definition importEdgesFrom (g : SymbolGraph.graph) (p : JS.jsstring)
  : list SymbolGraph.edge :=
  List.filter (fun e => JS.includes (SymbolGraph.e_from e) p
                        && ContextRetriever.isImports (SymbolGraph.e_type e))
              (SymbolGraph.edges g).

(** The symbols [buildCallGraph] looks at. *)
Definition isCallable (s : EmbeddingIndex.searchResult) : bool :=
  JS.eqb (EmbeddingIndex.symbolType (EmbeddingIndex.item s)) (JS.str "function")
  || JS.eqb (EmbeddingIndex.symbolType (EmbeddingIndex.item s)) (JS.str "method").

(** The number of lines a snippet shows: each line it holds ends in a
    line feed. *)
Definition linesShown (s : ContextRetriever.snippet) : nat :=
  JS.count JS.nl (ContextRetriever.sn_code s).

(** A snippet made for one of the symbols: it carries the symbol's name
    and its line, which is not 0. *)
Definition snippetOf (symbols : list EmbeddingIndex.embeddingRecord)
           (s : ContextRetriever.snippet) : Prop :=
  exists sym l,
    In sym symbols /\ EmbeddingIndex.line sym = Some l /\ 0 < l
    /\ ContextRetriever.sn_symbolName s = EmbeddingIndex.symbolName sym
    /\ ContextRetriever.sn_line s = Some l.

End Props.
(* ================================================================== *)
(** * Lists, strings and counting *)
(* ================================================================== *)

Import Props.

Lemma chr_eqb_eq : forall a b, JS.chr_eqb a b = true <-> a = b.
Proof. intros a b. unfold JS.chr_eqb. apply Ascii.eqb_eq. Qed.

Lemma jseqb_eq : forall a b, JS.eqb a b = true <-> a = b.
Proof.
  induction a as [|x a IH]; destruct b as [|y b]; cbn; split; intros H;
    try reflexivity; try discriminate.
  - apply andb_true_iff in H as [H1 H2]. apply chr_eqb_eq in H1. apply IH in H2.
    congruence.
  - injection H as -> ->. apply andb_true_iff. split; [apply chr_eqb_eq | apply IH]; reflexivity.
Qed.

Lemma jseqb_refl : forall a, JS.eqb a a = true.
Proof. intros a. apply jseqb_eq. reflexivity. Qed.



Lemma NoDup_app_disjoint :
  forall {A} (l1 l2 : list A) a,
    List.NoDup (l1 ++ l2) -> In a l1 -> ~ In a l2.
Proof.
  intros A l1 l2 a. induction l1 as [|x l1 IH]; intros Hnd Hin; [destruct Hin|].
  cbn in Hnd. apply List.NoDup_cons_iff in Hnd as [Hx Hnd].
  destruct Hin as [-> | Hin]; [|apply IH; assumption].
  intros H. apply Hx. apply in_or_app. right; exact H.
Qed.

Lemma flat_map_map :
  forall {A B C} (g : A -> B) (f : B -> list C) l,
    flat_map f (map g l) = flat_map (fun x => f (g x)) l.
Proof.
  intros A B C g f l. induction l as [|x l IH]; cbn; [reflexivity|].
  rewrite IH. reflexivity.
Qed.

Lemma In_firstn :
  forall {A} n (l : list A) x, In x (firstn n l) -> In x l.
Proof.
  intros A n l x H. rewrite <- (firstn_skipn n l). apply in_or_app. left; exact H.
Qed.

Lemma Sorted_firstn :
  forall {A} (R : A -> A -> Prop) n l, Sorted R l -> Sorted R (firstn n l).
Proof.
  intros A R n. induction n as [|n IH]; intros l H; [constructor|].
  destruct l as [|x l]; [constructor|]. cbn.
  inversion H as [|? ? Hs Hhd]; subst. constructor; [apply IH; exact Hs|].
  destruct n; [constructor|]. destruct l; [constructor|]. cbn.
  inversion Hhd; subst. constructor; assumption.
Qed.

Lemma count_app : forall c a b, JS.count c (a ++ b) = JS.count c a + JS.count c b.
Proof. intros c a b. unfold JS.count. apply count_occ_app. Qed.

Lemma count_cons :
  forall c x s, JS.count c (x :: s) = (if ascii_dec x c then 1 else 0) + JS.count c s.
Proof. intros c x s. unfold JS.count. cbn. destruct (ascii_dec x c); reflexivity. Qed.

Lemma count_rev : forall c s, JS.count c (rev s) = JS.count c s.
Proof.
  intros c s. unfold JS.count. induction s as [|x s IH]; [reflexivity|].
  cbn [rev]. rewrite count_occ_app, IH. cbn. destruct (ascii_dec x c); lia.
Qed.

Lemma count_Forall_neq :
  forall c t, Forall (fun x => x <> c) t -> JS.count c t = 0.
Proof.
  intros c t H. unfold JS.count. induction H as [|x t Hx _ IH]; cbn; [reflexivity|].
  destruct (ascii_dec x c); [contradiction | exact IH].
Qed.

Lemma count_trimStart :
  forall c s, JS.isSpace c = false -> JS.count c (JS.trimStart s) = JS.count c s.
Proof.
  intros c s Hc. induction s as [|x s IH]; [reflexivity|].
  cbn [JS.trimStart]. destruct (JS.isSpace x) eqn:E; [|reflexivity].
  rewrite IH, count_cons. destruct (ascii_dec x c); [congruence | reflexivity].
Qed.

Lemma count_trimEnd :
  forall c s, JS.isSpace c = false -> JS.count c (JS.trimEnd s) = JS.count c s.
Proof.
  intros c s Hc. unfold JS.trimEnd.
  rewrite count_rev, count_trimStart, count_rev by exact Hc. reflexivity.
Qed.

Lemma count_repeat :
  forall c d n,
    JS.count c (JS.repeat [d] n) = if ascii_dec d c then n else 0.
Proof.
  intros c d n. induction n as [|n IH]; cbn [JS.repeat].
  - destruct (ascii_dec d c); reflexivity.
  - rewrite count_app, IH, count_cons. change (JS.count c []) with 0.
    destruct (ascii_dec d c); lia.
Qed.

Lemma count_join_pointwise :
  forall c sep l l',
    Forall2 (fun a b => JS.count c a = JS.count c b) l l' ->
    JS.count c (JS.join sep l) = JS.count c (JS.join sep l').
Proof.
  intros c sep l l' H. induction H as [|a b l l' Hab Hl IH]; [reflexivity|].
  destruct Hl as [|a' b' l l' Hab' Hl].
  - cbn [JS.join]. exact Hab.
  - cbn [JS.join] in *. rewrite !count_app, Hab, IH. reflexivity.
Qed.

Lemma split_cons : forall sep s, exists l ls, JS.split sep s = l :: ls.
Proof.
  intros sep s. induction s as [|c s (l & ls & IH)]; cbn [JS.split]; [eauto|].
  destruct (JS.chr_eqb c sep); [eauto|]. rewrite IH. eauto.
Qed.

Lemma join_split : forall s, JS.join [JS.nl] (JS.split JS.nl s) = s.
Proof.
  induction s as [|c s IH]; [reflexivity|].
  cbn [JS.split]. destruct (split_cons JS.nl s) as (l & ls & Es).
  rewrite Es in *. destruct (JS.chr_eqb c JS.nl) eqn:E.
  - apply Ascii.eqb_eq in E. subst c.
    cbn [JS.join]. cbn [JS.join] in IH. rewrite IH. reflexivity.
  - destruct ls as [|l' ls]; cbn [JS.join] in *; rewrite <- IH; reflexivity.
Qed.

(* ================================================================== *)
(** * The matcher is sound for [steps] *)
(* ================================================================== *)

Section RegexFacts.
Import Regex RegexSpec.

Lemma starLoop_sound :
  forall (body : mstate -> (mstate -> option mstate) -> option mstate)
         (R : mstate -> mstate -> Prop),
    (forall st k res, body st k = Some res -> exists st', R st st' /\ k st' = Some res) ->
    forall greedy k fuel st res,
      starLoop body greedy k fuel st = Some res ->
      exists st', star R st st' /\ k st' = Some res.
Proof.
  intros body R Hbody greedy k fuel.
  induction fuel as [|fuel IH]; intros st res H; cbn in H.
  - exists st. split; [apply star_refl | exact H].
  - assert (Hagain :
        body st (fun st1 =>
                   if length (rest st1) <? length (rest st)
                   then starLoop body greedy k fuel st1 else None) = Some res ->
        exists st', star R st st' /\ k st' = Some res).
    { intros Ha. apply Hbody in Ha as (st1 & H1 & Ha).
      destruct (length (rest st1) <? length (rest st)); [|discriminate].
      apply IH in Ha as (st' & H2 & Ha).
      exists st'. split; [|exact Ha]. econstructor; [exact H1 | exact H2]. }
    destruct greedy.
    + match type of H with
      | match ?x with _ => _ end = _ => destruct x as [res'|] eqn:E
      end.
      * injection H as <-. apply Hagain. exact E.
      * exists st. split; [apply star_refl | exact H].
    + destruct (k st) as [res'|] eqn:E.
      * injection H as <-. exists st. split; [apply star_refl | exact E].
      * apply Hagain. exact H.
Qed.

Lemma rmatch_sound :
  forall ml r st k res,
    rmatch ml r st k = Some res ->
    exists st', steps r st st' /\ k st' = Some res.
Proof.
  intros ml r. induction r as [| p | a IHa b IHb | a IHa b IHb | g a IHa | n a IHa | | |];
    intros st k res H; cbn [rmatch] in H.
  - exists st. split; [reflexivity | exact H].
  - destruct (rest st) as [|c tl] eqn:E; [discriminate|].
    destruct (p c) eqn:Ep; [|discriminate].
    eexists. split; [|exact H]. cbn. exists c, tl. auto.
  - apply IHa in H as (st1 & H1 & H). apply IHb in H as (st2 & H2 & H).
    exists st2. split; [|exact H]. cbn. exists st1. auto.
  - destruct (rmatch ml a st k) as [res'|] eqn:E.
    + injection H as <-. apply IHa in E as (st' & H1 & H).
      exists st'. split; [left; exact H1 | exact H].
    + apply IHb in H as (st' & H1 & H). exists st'. split; [right; exact H1 | exact H].
  - apply (starLoop_sound _ (steps a) IHa) in H. exact H.
  - apply IHa in H as (st1 & H1 & H). eexists. split; [|exact H].
    cbn. exists st1. auto.
  - exists st. split; [reflexivity|].
    destruct (prev st); [destruct (ml && _)|]; congruence.
  - exists st. split; [reflexivity|].
    destruct (rest st); [|destruct (ml && _)]; congruence.
  - exists st. split; [reflexivity|].
    destruct (xorb _ _); congruence.
Qed.

Lemma consumed_app : forall t s : JS.jsstring, consumed (t ++ s) s = t.
Proof.
  intros t s. unfold consumed. rewrite length_app.
  replace (length t + length s - length s) with (length t) by lia.
  rewrite firstn_app, Nat.sub_diag, firstn_all. cbn. apply app_nil_r.
Qed.

Lemma star_ind_text :
  forall (R : mstate -> mstate -> Prop) (P : ascii -> Prop),
    (forall st st', R st st' -> exists t, rest st = t ++ rest st' /\ Forall P t) ->
    forall st st', star R st st' -> exists t, rest st = t ++ rest st' /\ Forall P t.
Proof.
  intros R P HR st st' H. induction H as [st | st st1 st2 H1 _ IH].
  - exists []. split; [reflexivity | constructor].
  - apply HR in H1 as (t1 & E1 & F1). destruct IH as (t2 & E2 & F2).
    exists (t1 ++ t2). split; [rewrite E1, E2, app_assoc; reflexivity|].
    apply Forall_app; split; assumption.
Qed.

Lemma steps_text :
  forall (P : ascii -> Prop) r,
    allChr P r ->
    forall st st', steps r st st' ->
      exists t, rest st = t ++ rest st' /\ Forall P t.
Proof.
  intros P r. induction r as [| p | a IHa b IHb | a IHa b IHb | g a IHa | n a IHa | | |];
    intros Hall st st' H; cbn in H, Hall;
    try (subst st'; exists []; split; [reflexivity | constructor]).
  - destruct H as (c & tl & E & Hp & ->). exists [c]. cbn. split; [exact E|].
    constructor; [apply Hall; exact Hp | constructor].
  - destruct Hall as [Ha Hb]. destruct H as (st1 & H1 & H2).
    apply (IHa Ha) in H1 as (t1 & E1 & F1). apply (IHb Hb) in H2 as (t2 & E2 & F2).
    exists (t1 ++ t2). split; [rewrite E1, E2, app_assoc; reflexivity|].
    apply Forall_app; split; assumption.
  - destruct Hall as [Ha Hb]. destruct H as [H | H]; [apply (IHa Ha) | apply (IHb Hb)]; exact H.
  - apply (star_ind_text (steps a) P (IHa Hall)). exact H.
  - destruct H as (st1 & H1 & ->). cbn. apply (IHa Hall). exact H1.
Qed.

Lemma allChr_True : forall r, allChr (fun _ => True) r.
Proof. induction r; cbn; auto. Qed.

Lemma steps_suffix :
  forall r st st', steps r st st' -> exists t, rest st = t ++ rest st'.
Proof.
  intros r st st' H.
  destruct (steps_text (fun _ => True) r (allChr_True r) st st' H) as (t & E & _).
  exists t; exact E.
Qed.

Lemma avoids_allChr :
  forall c r, avoids c r = true -> allChr (fun x => x <> c) r.
Proof.
  intros c r. induction r; cbn; intros H; auto.
  - intros x Hx ->. rewrite Hx in H. discriminate.
  - apply andb_true_iff in H as [H1 H2]. auto.
  - apply andb_true_iff in H as [H1 H2]. auto.
Qed.

Lemma star_caps :
  forall (R : mstate -> mstate -> Prop),
    (forall st st', R st st' -> caps st' = caps st) ->
    forall st st', star R st st' -> caps st' = caps st.
Proof.
  intros R HR st st' H. induction H as [st | st st1 st2 H1 _ IH]; [reflexivity|].
  rewrite IH. apply HR. exact H1.
Qed.

Lemma steps_nogroups :
  forall r, length (groupsOf r) = 0 ->
    forall st st', steps r st st' -> caps st' = caps st.
Proof.
  induction r as [| p | a IHa b IHb | a IHa b IHb | g a IHa | n a IHa | | |];
    intros Hg st st' H; cbn in H, Hg; try (subst; reflexivity).
  - destruct H as (c & tl & _ & _ & ->). reflexivity.
  - rewrite length_app in Hg. destruct H as (st1 & H1 & H2).
    rewrite (IHb ltac:(lia) _ _ H2). apply IHa; [lia | exact H1].
  - rewrite length_app in Hg. destruct H as [H | H]; [apply IHa | apply IHb]; (lia || exact H).
  - apply (star_caps (steps a)); [apply IHa; exact Hg | exact H].
  - discriminate.
Qed.

Lemma nodupb_NoDup : forall l, nodupb l = true -> List.NoDup l.
Proof.
  induction l as [|x l IH]; cbn; intros H; [constructor|].
  apply andb_true_iff in H as [H1 H2]. constructor; [|apply IH; exact H2].
  intros Hin. apply negb_true_iff in H1.
  assert (existsb (Nat.eqb x) l = true); [|congruence].
  apply existsb_exists. exists x. split; [exact Hin | apply Nat.eqb_refl].
Qed.

Lemma natlist_eqb_eq : forall a b, natlist_eqb a b = true -> a = b.
Proof.
  induction a as [|x a IH]; destruct b as [|y b]; cbn; intros H;
    try reflexivity; try discriminate.
  apply andb_true_iff in H as [H1 H2]. apply Nat.eqb_eq in H1. apply IH in H2. congruence.
Qed.

Lemma capSum_app :
  forall c cs g1 g2, capSum c cs (g1 ++ g2) = capSum c cs g1 + capSum c cs g2.
Proof. intros. unfold capSum. rewrite map_app, list_sum_app. reflexivity. Qed.

Lemma capSum_ext :
  forall c cs cs' gs,
    (forall n, In n gs -> capture n cs = capture n cs') ->
    capSum c cs gs = capSum c cs' gs.
Proof.
  intros c cs cs' gs H. unfold capSum. f_equal. apply map_ext_in.
  intros n Hn. unfold capval. rewrite (H n Hn). reflexivity.
Qed.

Lemma groups_nil : forall r, length (groupsOf r) = 0 -> groupsOf r = [].
Proof. intros r H. destruct (groupsOf r); [reflexivity | discriminate]. Qed.

Lemma steps_plain :
  forall c r,
    length (groupsOf r) = 0 -> avoids c r = true ->
    forall st st', steps r st st' ->
      exists t, rest st = t ++ rest st'
                /\ JS.count c t = capSum c (caps st') (groupsOf r)
                /\ (forall n, ~ In n (groupsOf r) ->
                      capture n (caps st') = capture n (caps st)).
Proof.
  intros c r Hg Ha st st' H.
  destruct (steps_text _ r (avoids_allChr c r Ha) st st' H) as (t & E & F).
  exists t. split; [exact E|]. rewrite (groups_nil r Hg). split.
  - cbn. apply count_Forall_neq. exact F.
  - intros n _. rewrite (steps_nogroups r Hg st st' H). reflexivity.
Qed.

Lemma steps_linear :
  forall c r,
    linear c r = true -> List.NoDup (groupsOf r) ->
    forall st st', steps r st st' ->
      exists t, rest st = t ++ rest st'
                /\ JS.count c t = capSum c (caps st') (groupsOf r)
                /\ (forall n, ~ In n (groupsOf r) ->
                      capture n (caps st') = capture n (caps st)).
Proof.
  intros c r. induction r as [| p | a IHa b IHb | a IHa b IHb | g a IHa | n a IHa | | |];
    intros Hl Hnd st st' H;
    try (apply andb_true_iff in Hl as [Hl1 Hl2]; apply Nat.eqb_eq in Hl1;
         apply steps_plain; assumption).
  - cbn in Hl, Hnd, H. apply andb_true_iff in Hl as [La Lb].
    destruct H as (st1 & H1 & H2).
    destruct (IHa La (NoDup_app_remove_r _ _ Hnd) _ _ H1) as (t1 & E1 & C1 & F1).
    destruct (IHb Lb (NoDup_app_remove_l _ _ Hnd) _ _ H2) as (t2 & E2 & C2 & F2).
    exists (t1 ++ t2). cbn [groupsOf]. split; [rewrite E1, E2, app_assoc; reflexivity|]. split.
    + rewrite count_app, capSum_app, C1, C2. f_equal.
      apply capSum_ext. intros m Hm. symmetry. apply F2.
      intros Hb. revert Hb. apply (NoDup_app_disjoint _ _ m Hnd Hm).
    + intros m Hm. rewrite F2, F1; [reflexivity| |];
        intros Hin; apply Hm; apply in_or_app; [left | right]; exact Hin.
  - cbn in Hl, H. apply Nat.eqb_eq in Hl.
    destruct H as (st1 & H1 & ->).
    destruct (steps_suffix a st st1 H1) as (t & E).
    exists t. cbn [rest caps groupsOf]. split; [exact E|].
    rewrite (groups_nil a Hl), E, consumed_app. split.
    + unfold capSum, capval. cbn. rewrite Nat.eqb_refl. rewrite Nat.add_0_r. reflexivity.
    + intros m Hm. cbn. destruct (m =? n) eqn:Emn.
      * apply Nat.eqb_eq in Emn. exfalso. apply Hm. left. congruence.
      * rewrite (steps_nogroups a Hl st st1 H1). reflexivity.
Qed.

Lemma expand_count :
  forall c t before m,
    templatePlain c t = true ->
    JS.count c (expand t before m) = capSum c (m_caps m) (templateCaps t).
Proof.
  intros c t before m. induction t as [|[s | n | | |] t IH];
    cbn [expand templateCaps templatePlain]; intros H;
    try discriminate; [reflexivity | |].
  - apply andb_true_iff in H as [H1 H2]. apply Nat.eqb_eq in H1.
    rewrite count_app, H1, IH by exact H2. reflexivity.
  - rewrite count_app, IH by exact H. reflexivity.
Qed.

Lemma search_sound :
  forall ml r s p k m,
    search ml r p s k = Some m ->
    exists s1 p' st',
      s = s1 ++ m_text m ++ m_after m
      /\ m_index m = k + length s1
      /\ steps r (MState p' (m_text m ++ m_after m) []) st'
      /\ m_caps m = caps st' /\ m_after m = rest st'.
Proof.
  intros ml r s. induction s as [|c s IH]; intros p k m H; cbn [search] in H.
  - destruct (matchAt ml r p []) as [st|] eqn:E; [|discriminate].
    injection H as <-. unfold matchAt in E.
    apply rmatch_sound in E as (st' & Hs & E). injection E as ->.
    destruct (steps_suffix _ _ _ Hs) as (t & Et). cbn [rest] in Et.
    exists [], p, st. cbn [m_text m_after m_index m_caps app length].
    rewrite Et, consumed_app, <- Et. rewrite Nat.add_0_r. auto.
  - destruct (matchAt ml r p (c :: s)) as [st|] eqn:E.
    + injection H as <-. unfold matchAt in E.
      apply rmatch_sound in E as (st' & Hs & E). injection E as ->.
      destruct (steps_suffix _ _ _ Hs) as (t & Et). cbn [rest] in Et.
      exists [], p, st. cbn [m_text m_after m_index m_caps app length].
      rewrite Et, consumed_app, <- Et. rewrite Nat.add_0_r. auto.
    + apply IH in H as (s1 & p' & st' & E1 & E2 & Hs & E3 & E4).
      exists (c :: s1), p', st'. cbn [app length]. rewrite <- E1.
      repeat split; try assumption. lia.
Qed.

Lemma match_count :
  forall c r t before p' st' (m : rmatched),
    keepsCount c r t = true ->
    steps r (MState p' (m_text m ++ m_after m) []) st' ->
    m_caps m = caps st' -> m_after m = rest st' ->
    JS.count c (expand t before m) = JS.count c (m_text m).
Proof.
  intros c r t before p' st' m Hk Hs Ec Ea.
  unfold keepsCount in Hk.
  apply andb_true_iff in Hk as [Hk Hplain].
  apply andb_true_iff in Hk as [Hk Heq].
  apply andb_true_iff in Hk as [Hlin Hnd].
  apply nodupb_NoDup in Hnd. apply natlist_eqb_eq in Heq.
  destruct (steps_linear c r Hlin Hnd _ _ Hs) as (t0 & E & C & _).
  cbn [rest] in E. rewrite <- Ea in E. apply app_inv_tail in E. subst t0.
  rewrite expand_count by exact Hplain. rewrite Heq, Ec. symmetry. exact C.
Qed.

Lemma replaceFrom_count :
  forall c ml r t,
    keepsCount c r t = true ->
    forall fuel before p s,
      JS.count c (replaceFrom fuel ml r t before p s) = JS.count c s.
Proof.
  intros c ml r t Hk fuel. induction fuel as [|fuel IH]; intros before p s;
    cbn [replaceFrom]; [reflexivity|].
  destruct (search ml r p s 0) as [m|] eqn:E; [|reflexivity].
  apply search_sound in E as (s1 & p' & st' & E1 & E2 & Hs & E3 & E4).
  cbn in E2. rewrite E2.
  assert (Hfirst : firstn (length s1) s = s1).
  { rewrite E1, firstn_app, Nat.sub_diag, firstn_all. cbn. apply app_nil_r. }
  cbv zeta. rewrite Hfirst.
  pose proof (fun b => match_count c r t b p' st' m Hk Hs E3 E4) as Hm.
  assert (Hc : JS.count c s
               = JS.count c s1 + (JS.count c (m_text m) + JS.count c (m_after m))).
  { rewrite E1 at 1. rewrite !count_app. reflexivity. }
  rewrite Hc. clear Hc E1 Hfirst.
  destruct (m_text m) as [|x tx] eqn:Et; destruct (m_after m) as [|y ty] eqn:Ea.
  - rewrite count_app, Hm. change (JS.count c []) with 0. lia.
  - rewrite count_app.
    change (y :: replaceFrom fuel ml r t (y :: rev s1 ++ before) (Some y) ty)
      with ([y] ++ replaceFrom fuel ml r t (y :: rev s1 ++ before) (Some y) ty).
    change (y :: ty) with ([y] ++ ty).
    rewrite !count_app, Hm, IH. change (JS.count c []) with 0. lia.
  - rewrite !count_app, Hm, IH. change (JS.count c []) with 0. lia.
  - rewrite !count_app, Hm, IH. lia.
Qed.

Theorem replaceAll_count :
  forall c ml r t s,
    keepsCount c r t = true ->
    JS.count c (replaceAll ml r t s) = JS.count c s.
Proof.
  intros c ml r t s Hk. unfold replaceAll. apply replaceFrom_count. exact Hk.
Qed.

End RegexFacts.

(* ================================================================== *)
(** * Syntax repair *)
(* ================================================================== *)

Section SyntaxFixerFacts.
Import Regex RegexSpec SyntaxFixer.

Example keeps_trailingComma :
  forallb (fun c => keepsCount c SyntaxFixer.trailingComma [PCap 1])
          (JS.str "{}()[]") = true.
Proof. vm_compute. reflexivity. Qed.

Example keeps_all :
  forallb (fun c =>
             keepsCount c incompleteObjectPattern incompleteObjectTemplate
             && keepsCount c missingCommaBeforeMethod [L "},\n  async "; PCap 1]
             && keepsCount c missingCommaPattern [PCap 1; L ",\n"; PCap 2]
             && keepsCount c incompleteTypes [L ": any"]
             && keepsCount c trailingCommaAtEnd [PCap 1]
             && keepsCount c trailingComma [PCap 1])
          roundAndSquare = true.
Proof. vm_compute. reflexivity. Qed.

Lemma keeps_of_forallb :
  forall c, In c roundAndSquare ->
    keepsCount c incompleteObjectPattern incompleteObjectTemplate = true
    /\ keepsCount c missingCommaBeforeMethod [L "},\n  async "; PCap 1] = true
    /\ keepsCount c missingCommaPattern [PCap 1; L ",\n"; PCap 2] = true
    /\ keepsCount c incompleteTypes [L ": any"] = true
    /\ keepsCount c trailingCommaAtEnd [PCap 1] = true
    /\ keepsCount c trailingComma [PCap 1] = true.
Proof.
  intros c Hc. pose proof keeps_all as H. rewrite forallb_forall in H.
  specialize (H c Hc). do 5 (apply andb_true_iff in H as [H ?]). repeat split; assumption.
Qed.

Lemma roundAndSquare_not_semicolon : forall c, In c roundAndSquare -> c <> ";"%char.
Proof.
  intros c Hc ->. vm_compute in Hc.
  repeat (destruct Hc as [Hc | Hc]; [discriminate Hc|]). exact Hc.
Qed.

Lemma semicolonLine_fst :
  forall lines i l,
    fst (semicolonLine lines i l) = l \/ fst (semicolonLine lines i l) = l ++ JS.str ";".
Proof.
  intros lines i l. unfold semicolonLine.
  repeat match goal with |- context [if ?b then _ else _] => destruct b end;
    cbn [fst]; auto.
Qed.

Lemma semicolonLine_snd :
  forall lines i l,
    snd (semicolonLine lines i l) = None
    \/ exists n a b, snd (semicolonLine lines i l) = Some (MissingSemicolon n a b).
Proof.
  intros lines i l. unfold semicolonLine.
  repeat match goal with |- context [if ?b then _ else _] => destruct b end;
    cbn [snd]; eauto.
Qed.

Lemma mapIndexed_count :
  forall c lines, c <> ";"%char ->
    forall l i,
      Forall2 (fun a b => JS.count c a = JS.count c b)
              (map fst (mapIndexed (semicolonLine lines) i l)) l.
Proof.
  intros c lines Hc l. induction l as [|x l IH]; intros i; cbn [mapIndexed map];
    constructor; [|apply IH].
  destruct (semicolonLine_fst lines i x) as [-> | ->]; [reflexivity|].
  rewrite count_app. change (JS.str ";") with [";"%char].
  rewrite count_cons. change (JS.count c []) with 0.
  destruct (ascii_dec ";"%char c); [congruence | lia].
Qed.

Lemma fixSemicolons_count :
  forall c language w, c <> ";"%char ->
    JS.count c (fixedContent (fixSemicolons language w)) = JS.count c (fixedContent w).
Proof.
  intros c language w Hc. unfold fixSemicolons.
  destruct (isJsTs language); [|reflexivity]. cbn [fixedContent].
  match goal with |- context [if ?b then _ else _] => destruct b end; [|reflexivity].
  rewrite (count_join_pointwise c [JS.nl] _ _
             (mapIndexed_count c _ Hc (JS.split JS.nl (fixedContent w)) 0)).
  rewrite join_split. reflexivity.
Qed.

Lemma beforeBalancing_count :
  forall c language s, In c roundAndSquare ->
    JS.count c (fixedContent (beforeBalancing language s)) = JS.count c s.
Proof.
  intros c language s Hc.
  destruct (keeps_of_forallb c Hc) as (K1 & K2 & K3 & K4 & K5 & _).
  unfold beforeBalancing.
  unfold fixTrailingCommaAtEnd. cbn [fixedContent].
  rewrite replaceAll_count by exact K5.
  unfold fixIncompleteTypes.
  match goal with |- context [if ?b then _ else _] => destruct b end;
    cbn [fixedContent]; [rewrite replaceAll_count by exact K4|].
  all: unfold fixCommas; destruct (isJsTs language) eqn:Ejs.
  all: try (match goal with |- context [if ?b then _ else _] => destruct b end;
            cbn [fixedContent]; [rewrite replaceAll_count by exact K3|];
            rewrite replaceAll_count by exact K2).
  all: rewrite fixSemicolons_count by (apply roundAndSquare_not_semicolon; exact Hc).
  all: unfold fixIncompleteObject; rewrite Ejs; cbn [andb fixedContent].
  all: try reflexivity.
  all: match goal with |- context [if ?b then _ else _] => destruct b end;
       cbn [fixedContent]; [rewrite replaceAll_count by exact K1|]; reflexivity.
Qed.

Ltac count_literals :=
  repeat match goal with
         | |- context [JS.count ?c (JS.str ?s)] =>
             let v := eval vm_compute in (JS.count c (JS.str s)) in
             change (JS.count c (JS.str s)) with v
         | |- context [ascii_dec ?a ?b] =>
             let v := eval vm_compute in (if ascii_dec a b then true else false) in
             match v with
             | true => destruct (ascii_dec a b) as [_|?]; [|congruence]
             | false => destruct (ascii_dec a b) as [?|_]; [discriminate|]
             end
         end.

Ltac count_steps :=
  cbn [fixedContent];
  change (JS.str "}") with ["}"%char];
  change (JS.str ")") with [")"%char];
  change (JS.str "]") with ["]"%char];
  repeat rewrite count_app;
  repeat rewrite count_repeat;
  repeat rewrite count_trimEnd by reflexivity;
  count_literals.

Lemma balance_counts :
  forall w,
    let c0 := fixedContent w in
    let c' := fixedContent (balance w) in
    JS.count "("%char c' = JS.count "("%char c0
    /\ JS.count ")"%char c' = Nat.max (JS.count "("%char c0) (JS.count ")"%char c0)
    /\ JS.count "["%char c' = JS.count "["%char c0
    /\ JS.count "]"%char c' = Nat.max (JS.count "["%char c0) (JS.count "]"%char c0)
    /\ JS.count "{"%char c' = JS.count "{"%char c0
    /\ JS.count "}"%char c'
       = (if JS.count "}"%char c0 <? JS.count "{"%char c0
          then if endsInClosingLine c0
               then S (JS.count "}"%char c0) else JS.count "{"%char c0
          else JS.count "}"%char c0).
Proof.
  intros w c0 c'. subst c0 c'. unfold balance.
  destruct (Nat.ltb_spec (JS.count "}"%char (fixedContent w)) (JS.count "{"%char (fixedContent w)));
    destruct (Nat.ltb_spec (JS.count ")"%char (fixedContent w)) (JS.count "("%char (fixedContent w)));
    destruct (Nat.ltb_spec (JS.count "]"%char (fixedContent w)) (JS.count "["%char (fixedContent w)));
    try destruct (endsInClosingLine (fixedContent w));
    repeat split; count_steps; lia.
Qed.

Lemma repairedContent_eq :
  forall c p,
    repairedContent c p
    = fixedContent (removeTrailingCommas (balance (beforeBalancing (languageOf p) c))).
Proof. reflexivity. Qed.

Lemma repair_fixes :
  forall c p,
    fixes (repair c p) = pushed (balance (beforeBalancing (languageOf p) c)).
Proof. reflexivity. Qed.

Lemma removeTrailingCommas_count :
  forall c w, In c (JS.str "{}()[]") ->
    JS.count c (fixedContent (removeTrailingCommas w)) = JS.count c (fixedContent w).
Proof.
  intros c w Hc. unfold removeTrailingCommas. cbn [fixedContent].
  apply replaceAll_count.
  pose proof keeps_trailingComma as H. rewrite forallb_forall in H. apply H. exact Hc.
Qed.

Lemma repair_counts :
  forall c p,
    let out := repairedContent c p in
    let pre := textBalanced c p in
    JS.count "("%char out = JS.count "("%char c
    /\ JS.count ")"%char out = Nat.max (JS.count "("%char c) (JS.count ")"%char c)
    /\ JS.count "["%char out = JS.count "["%char c
    /\ JS.count "]"%char out = Nat.max (JS.count "["%char c) (JS.count "]"%char c)
    /\ JS.count "{"%char out = JS.count "{"%char pre
    /\ JS.count "}"%char out
       = (if JS.count "}"%char pre <? JS.count "{"%char pre
          then if endsInClosingLine pre
               then S (JS.count "}"%char pre) else JS.count "{"%char pre
          else JS.count "}"%char pre).
Proof.
  intros c p out pre. subst out pre. rewrite repairedContent_eq. unfold textBalanced.
  destruct (balance_counts (beforeBalancing (languageOf p) c))
    as (B1 & B2 & B3 & B4 & B5 & B6).
  rewrite !removeTrailingCommas_count by (vm_compute; tauto).
  rewrite B1, B2, B3, B4, B5, B6.
  rewrite !beforeBalancing_count by (vm_compute; tauto).
  repeat split; reflexivity.
Qed.

Lemma somes_semicolons :
  forall lines l i,
    Forall (fun x => isClosingFix x = false)
           (somes (map snd (mapIndexed (semicolonLine lines) i l))).
Proof.
  intros lines l. induction l as [|x l IH]; intros i; cbn [mapIndexed map somes];
    [constructor|].
  destruct (semicolonLine_snd lines i x) as [-> | (n & a & b & ->)]; [apply IH|].
  constructor; [reflexivity | apply IH].
Qed.

Lemma beforeBalancing_pushed :
  forall language s,
    Forall (fun x => isClosingFix x = false) (pushed (beforeBalancing language s)).
Proof.
  intros language s. unfold beforeBalancing, fixTrailingCommaAtEnd. cbn [pushed].
  assert (H1 : Forall (fun x => isClosingFix x = false)
                 (pushed (fixIncompleteObject language (Work s false [])))).
  { unfold fixIncompleteObject.
    match goal with |- context [if ?b then _ else _] => destruct b end; cbn [pushed app];
      repeat constructor. }
  assert (H2 : Forall (fun x => isClosingFix x = false)
                 (pushed (fixSemicolons language
                            (fixIncompleteObject language (Work s false []))))).
  { unfold fixSemicolons at 1. destruct (isJsTs language); [|exact H1].
    cbn [pushed]. apply Forall_app. split; [exact H1 | apply somes_semicolons]. }
  assert (H3 : Forall (fun x => isClosingFix x = false)
                 (pushed (fixCommas language
                            (fixSemicolons language
                               (fixIncompleteObject language (Work s false [])))))).
  { unfold fixCommas at 1. destruct (isJsTs language); [|exact H2].
    match goal with |- context [if ?b then _ else _] => destruct b end; cbn [pushed];
      [|exact H2].
    apply Forall_app. split; [exact H2 | repeat constructor]. }
  unfold fixIncompleteTypes at 1.
  match goal with |- context [if ?b then _ else _] => destruct b end; cbn [pushed];
    [|exact H3].
  apply Forall_app. split; [exact H3 | repeat constructor].
Qed.

Lemma balance_pushed :
  forall w x,
    In x (pushed (balance w)) -> isClosingFix x = true ->
    In x (pushed w)
    \/ JS.count ")"%char (fixedContent w) < JS.count "("%char (fixedContent w)
    \/ JS.count "]"%char (fixedContent w) < JS.count "["%char (fixedContent w).
Proof.
  intros w x Hin Hx. unfold balance in Hin.
  destruct (Nat.ltb_spec (JS.count ")"%char (fixedContent w)) (JS.count "("%char (fixedContent w)));
    [right; left; assumption|].
  destruct (Nat.ltb_spec (JS.count "]"%char (fixedContent w)) (JS.count "["%char (fixedContent w)));
    [right; right; assumption|].
  left.
  destruct (JS.count "}"%char (fixedContent w) <? JS.count "{"%char (fixedContent w));
    cbn [pushed] in Hin; [|exact Hin].
  apply in_app_or in Hin as [Hin | [<- | []]]; [exact Hin | discriminate].
Qed.

(** An object declared without its opening brace: the brace is put after
    the [=], the closing one is appended, and the result is to be
    committed. *)
Example repair_inserts_open_brace :
  let c := JS.str "export const helper = \n  async doWork() {...}" in
  let r := repair c (JS.str "helper.js") in
  SyntaxFixer.content r
  = SyntaxFixer.VString (JS.str "export const helper = {\n  async doWork() {...}\n}")
  /\ SyntaxFixer.fixed r = true
  /\ SyntaxFixer.shouldCommit r = true.
Proof. vm_compute. repeat split. Qed.

(** C1, as stated, fails: three object members without commas.  The first
    repair adds one comma and reports a fix; repairing its output adds
    the second comma and reports a fix again. *)
Lemma repair_not_idempotent :
  let c := JS.str "a: 1\nb: 2\nc: 3" in
  let p := JS.str "config.js" in
  repairedContent c p = JS.str "a: 1,\nb: 2\nc: 3"
  /\ SyntaxFixer.fixed (repair (repairedContent c p) p) = true
  /\ repairedContent (repairedContent c p) p = JS.str "a: 1,\nb: 2,\nc: 3".
Proof. vm_compute. repeat split. Qed.

(** The smart closing of braces appends one brace whatever the deficit, so
    a second repair finds a brace still missing. *)
Lemma repair_not_idempotent_braces :
  let c := JS.str "{{{\n}" in
  let p := JS.str "config.js" in
  repairedContent c p = JS.str "{{{\n}\n};"
  /\ SyntaxFixer.fixes (repair c p) = [SyntaxFixer.MissingClosingBrace 2]
  /\ SyntaxFixer.fixed (repair (repairedContent c p) p) = true.
Proof. vm_compute. repeat split. Qed.

(** C1, amended: on the content returned by a first repair, a second
    repair reports no missing closing parenthesis and no missing closing
    square bracket, and leaves the numbers of round and square brackets
    as they are. *)
Theorem repair_twice_appends_no_bracket :
  forall c p : JS.jsstring,
    let first := repairedContent c p in
    let second := repair first p in
    (forall x, In x (fixes second) -> isClosingFix x = false)
    /\ JS.count "("%char (repairedContent first p) = JS.count "("%char first
    /\ JS.count ")"%char (repairedContent first p) = JS.count ")"%char first
    /\ JS.count "["%char (repairedContent first p) = JS.count "["%char first
    /\ JS.count "]"%char (repairedContent first p) = JS.count "]"%char first.
Proof.
  intros c p first second.
  destruct (repair_counts c p) as (H1 & H2 & H3 & H4 & _).
  fold first in H1, H2, H3, H4.
  destruct (repair_counts first p) as (G1 & G2 & G3 & G4 & _).
  split; [|repeat split; lia].
  intros x Hin. destruct (isClosingFix x) eqn:Hx; [exfalso|reflexivity].
  subst second. rewrite repair_fixes in Hin.
  apply balance_pushed in Hin as [Hin | Hlt]; [| | exact Hx].
  - pose proof (beforeBalancing_pushed (languageOf p) first) as Hf.
    rewrite List.Forall_forall in Hf. rewrite (Hf x Hin) in Hx. discriminate.
  - rewrite !beforeBalancing_count in Hlt by (vm_compute; tauto). lia.
Qed.

(** C2, as stated, fails: a lone closing brace is returned as it is. *)
Lemma repair_leaves_unbalanced :
  let c := JS.str "}" in
  let p := JS.str "config.js" in
  repairedContent c p = JS.str "}"
  /\ ~ balancedBraces (repairedContent c p).
Proof. split; [vm_compute; reflexivity|]. vm_compute. discriminate. Qed.

(** C2, amended: repair appends the closing tokens that are missing and
    removes none.  Content with at least as many opening as closing
    parentheses (square brackets) comes back with equally many; braces
    come back balanced when the text reaching the balancing step has no
    surplus of closing braces and either does not end in a line that is
    a closing brace with an optional comma, or lacks a single brace.  A
    surplus of closing tokens stays. *)
Theorem repair_balances_what_is_open :
  forall c p : JS.jsstring,
    let out := repairedContent c p in
    let pre := textBalanced c p in
    (JS.count ")"%char c <= JS.count "("%char c -> balancedParens out)
    /\ (JS.count "]"%char c <= JS.count "["%char c -> balancedBrackets out)
    /\ (JS.count "}"%char pre <= JS.count "{"%char pre ->
        endsInClosingLine pre = false \/ JS.count "{"%char pre <= S (JS.count "}"%char pre) ->
        balancedBraces out)
    /\ JS.count "("%char out <= JS.count ")"%char out
    /\ JS.count "["%char out <= JS.count "]"%char out
    /\ (JS.count "("%char c < JS.count ")"%char c ->
        JS.count "("%char out < JS.count ")"%char out)
    /\ (JS.count "["%char c < JS.count "]"%char c ->
        JS.count "["%char out < JS.count "]"%char out)
    /\ (JS.count "{"%char pre < JS.count "}"%char pre ->
        JS.count "{"%char out < JS.count "}"%char out).
Proof.
  intros c p out pre.
  destruct (repair_counts c p) as (H1 & H2 & H3 & H4 & H5 & H6).
  fold out pre in H1, H2, H3, H4, H5, H6.
  unfold balancedParens, balancedBrackets, balancedBraces.
  rewrite H1, H2, H3, H4, H5, H6.
  destruct (Nat.ltb_spec (JS.count "}"%char pre) (JS.count "{"%char pre)) as [Hlt | Hge];
    [destruct (endsInClosingLine pre)|];
    repeat split; intros; lia.
Qed.

Lemma repair_balances_what_is_open_witness :
  balancedParens (repairedContent (JS.str "run(a, [1, 2") (JS.str "main.js"))
  /\ balancedBrackets (repairedContent (JS.str "run(a, [1, 2") (JS.str "main.js"))
  /\ balancedBraces (repairedContent (JS.str "if (x) {") (JS.str "main.js")).
Proof.
  split; [|split].
  - apply (repair_balances_what_is_open (JS.str "run(a, [1, 2") (JS.str "main.js")).
    vm_compute. lia.
  - apply (repair_balances_what_is_open (JS.str "run(a, [1, 2") (JS.str "main.js")).
    vm_compute. lia.
  - apply (repair_balances_what_is_open (JS.str "if (x) {") (JS.str "main.js")).
    + vm_compute. lia.
    + left. vm_compute. reflexivity.
Defined.



End SyntaxFixerFacts.

(* ================================================================== *)
(** * Naming repair *)
(* ================================================================== *)

Lemma typoMapSet_In :
  forall m t x,
    In x (map snd (SemanticFixer.typoMapSet m t)) -> x = t \/ In x (map snd m).
Proof.
  induction m as [|[k e] m IH]; intros t x H; cbn [SemanticFixer.typoMapSet] in H.
  - destruct H as [<- | []]. left; reflexivity.
  - destruct (JS.eqb k (SemanticFixer.typoKey t)).
    + destruct (Nat.ltb _ _); cbn [map snd In] in H |- *.
      * destruct H as [H | H]; [left; symmetry; exact H | right; right; exact H].
      * right; exact H.
    + cbn [map snd In] in H |- *. destruct H as [H | H]; [right; left; exact H|].
      apply IH in H as [H | H]; [left; exact H | right; right; exact H].
Qed.

Lemma typoMap_In :
  forall l m x,
    In x (map snd (fold_left SemanticFixer.typoMapSet l m)) ->
    In x l \/ In x (map snd m).
Proof.
  induction l as [|t l IH]; intros m x H; cbn in H; [right; exact H|].
  apply IH in H as [H | H]; [left; right; exact H|].
  apply typoMapSet_In in H as [-> | H]; [left; left; reflexivity | right; exact H].
Qed.

Lemma flagsFor_high :
  forall fileName e attempt importedName t,
    In t (SemanticFixer.flagsFor fileName e attempt importedName) ->
    SemanticFixer.confidence t = SemanticFixer.High ->
    SemanticFixer.original t = SemanticFixer.exportName e
    /\ SemanticFixer.suggested t = importedName
    /\ SemanticFixer.highConfidence (SemanticFixer.exportName e) importedName fileName = true.
Proof.
  intros fileName e attempt importedName t H Hc. unfold SemanticFixer.flagsFor in H.
  apply in_app_or in H as [H | H].
  - destruct (SemanticFixer.highConfidence _ _ _) eqn:E; [|destruct H].
    destruct H as [<- | []]. auto.
  - destruct (SemanticFixer.mediumConfidence _ _ _); [|destruct H].
    destruct H as [<- | []]. discriminate.
Qed.

(** X10: every high-confidence flag that is returned passed the test: the
    similarity of export and import is below 0.5 and that of import and
    file name is above 0.7. *)
Lemma detectExportNameTypos_sound :
  forall (c filePath : JS.jsstring) (allFiles : list SemanticFixer.codeFile) (e i : JS.jsstring),
    flagged (SemanticFixer.detectExportNameTypos c filePath allFiles) e i ->
    SemanticFixer.highConfidence e i
      (Path.basenameWithout filePath (Path.extname filePath)) = true.
Proof.
  intros c filePath allFiles e i (t & Hin & <- & <- & Hc).
  unfold SemanticFixer.detectExportNameTypos in Hin.
  apply typoMap_In in Hin as [Hin | []].
  unfold SemanticFixer.allFlags in Hin.
  apply in_flat_map in Hin as (ex & _ & Hin).
  apply in_flat_map in Hin as (attempt & _ & Hin).
  apply in_flat_map in Hin as (name & _ & Hin).
  destruct (flagsFor_high _ _ _ _ _ Hin Hc) as (-> & -> & H). exact H.
Qed.

(** C9 at the failing input: [bcdefghij.js] exports [a] and [ab], and
    [main.js] imports [bcdefghij] and [cdefghij] from it.  The pair
    ([ab], [cdefghij]) passes the high-confidence test, but its key
    [abcdefghij] is also the key of ([a], [bcdefghij]), and the flag is
    dropped with the duplicates. *)
Lemma detectExportNameTypos_drops_flag :
  let c := JS.str "export const a = 1;\nexport const ab = 2;\n" in
  let p := JS.str "bcdefghij.js" in
  map SemanticFixer.exportName (SemanticFixer.exportsOf c) = [JS.str "a"; JS.str "ab"]
  /\ map SemanticFixer.importedNames (SemanticFixer.findImportAttempts p collidingFiles)
     = [[JS.str "bcdefghij"; JS.str "cdefghij"]]
  /\ SemanticFixer.highConfidence (JS.str "ab") (JS.str "cdefghij") (JS.str "bcdefghij") = true
  /\ map (fun t => (SemanticFixer.original t, SemanticFixer.suggested t))
         (SemanticFixer.detectExportNameTypos c p collidingFiles)
     = [(JS.str "a", JS.str "bcdefghij"); (JS.str "a", JS.str "cdefghij");
        (JS.str "ab", JS.str "bcdefghij")]
  /\ ~ flagged (SemanticFixer.detectExportNameTypos c p collidingFiles)
               (JS.str "ab") (JS.str "cdefghij").
Proof.
  cbv zeta.
  split; [vm_compute; reflexivity|].
  split; [vm_compute; reflexivity|].
  split; [vm_compute; reflexivity|].
  split; [vm_compute; reflexivity|].
  intros (t & Hin & Ho & Hs & _).
  assert (Hm : In (SemanticFixer.original t, SemanticFixer.suggested t)
                  (map (fun t => (SemanticFixer.original t, SemanticFixer.suggested t))
                       (SemanticFixer.detectExportNameTypos
                          (JS.str "export const a = 1;\nexport const ab = 2;\n")
                          (JS.str "bcdefghij.js") collidingFiles))).
  { apply (in_map (fun t => (SemanticFixer.original t, SemanticFixer.suggested t))). exact Hin. }
  rewrite Ho, Hs in Hm. vm_compute in Hm.
  repeat (destruct Hm as [Hm|Hm]; [discriminate Hm|]). exact Hm.
Qed.

(** C10: [semanticFix] returns [shouldCommit = true] exactly when
    [fixed = true], and with [fixed = false] the content is the input. *)
Theorem semanticFix_consistent :
  forall (c filePath : JS.jsstring) (allFiles : list SemanticFixer.codeFile),
    let r := SemanticFixer.semanticFix c filePath allFiles in
    (SemanticFixer.shouldCommit r = true <-> SemanticFixer.fixed r = true)
    /\ (SemanticFixer.fixed r = false -> SemanticFixer.content r = c).
Proof.
  intros c filePath allFiles. unfold SemanticFixer.semanticFix.
  destruct (0 <? length _);
    [destruct (SemanticFixer.a_fixed _)|]; cbn; intuition congruence.
Qed.

Lemma semanticFix_consistent_witness :
  let r := SemanticFixer.semanticFix (JS.str "export const a = 1;") (JS.str "a.js") [] in
  SemanticFixer.fixed r = false /\ SemanticFixer.content r = JS.str "export const a = 1;".
Proof.
  split; [vm_compute; reflexivity|].
  apply (semanticFix_consistent (JS.str "export const a = 1;") (JS.str "a.js") []).
  vm_compute; reflexivity.
Defined.

(* ================================================================== *)
(** * The symbol graph *)
(* ================================================================== *)


Section GraphFacts.
Variable ea eaf : bool -> JS.jsstring -> option (list SymbolGraph.symbol).

Lemma extractSymbols_fst :
  forall f r, fst (SymbolGraph.extractSymbols ea eaf f r) = extracted ea eaf f.
Proof.
  intros f r. unfold extracted, SymbolGraph.extractSymbols.
  repeat match goal with |- context [if ?b then _ else _] => destruct b end;
    reflexivity.
Qed.

Lemma analyzeFile_symbols :
  forall g f r,
    SymbolGraph.symbols (SymbolGraph.analyzeFile ea eaf g f r)
    = fold_left (SymbolGraph.addSymbol (SemanticFixer.path f)) (extracted ea eaf f)
                (SymbolGraph.symbols g).
Proof.
  intros g f r. unfold SymbolGraph.analyzeFile.
  rewrite <- (extractSymbols_fst f r).
  destruct (SymbolGraph.extractSymbols ea eaf f r); reflexivity.
Qed.

Lemma analyzeFile_files :
  forall g f r,
    exists rec,
      SymbolGraph.files (SymbolGraph.analyzeFile ea eaf g f r)
      = <[SemanticFixer.path f := rec]> (SymbolGraph.files g)
      /\ SymbolGraph.path rec = SemanticFixer.path f
      /\ SymbolGraph.symbolCount rec = length (extracted ea eaf f).
Proof.
  intros g f r. unfold SymbolGraph.analyzeFile.
  rewrite <- (extractSymbols_fst f r).
  destruct (SymbolGraph.extractSymbols ea eaf f r); cbn.
  eexists. split; [reflexivity|]. split; reflexivity.
Qed.



Lemma entriesOf_fst : forall f, map fst (entriesOf ea eaf f) = idsIn ea eaf f.
Proof. intros f. unfold entriesOf, idsIn, idsOf. rewrite map_map. reflexivity. Qed.

Section Phase2.
Context {X : Type}.
Variable fileOf : X -> SemanticFixer.codeFile.
Variable resultOf : X -> option SymbolGraph.fixApplied.


End Phase2.
End GraphFacts.



(* ================================================================== *)
(** * Binary64: the sign of a difference and the order *)
(* ================================================================== *)

Section SpecFacts.
Local Open Scope Z_scope.

Lemma digits2_bounds :
  forall m, 2 ^ (Zpos (digits2_pos m) - 1) <= Zpos m < 2 ^ Zpos (digits2_pos m).
Proof.
  induction m as [m IH | m IH |]; cbn [digits2_pos].
  - rewrite Pos2Z.inj_succ.
    replace (Z.succ (Zpos (digits2_pos m)) - 1) with (Z.succ (Zpos (digits2_pos m) - 1)) by lia.
    rewrite !Z.pow_succ_r by lia. lia.
  - rewrite Pos2Z.inj_succ.
    replace (Z.succ (Zpos (digits2_pos m)) - 1) with (Z.succ (Zpos (digits2_pos m) - 1)) by lia.
    rewrite !Z.pow_succ_r by lia. lia.
  - cbn. lia.
Qed.

Lemma shr_1_m :
  forall mrs, 0 <= shr_m mrs -> shr_m (shr_1 mrs) = shr_m mrs / 2.
Proof.
  intros [m r s] H. cbn [shr_m] in H.
  destruct m as [|[p|p|]|p]; cbn [shr_1 shr_m]; try lia.
  - reflexivity.
  - apply Z.div_unique with (r := 1); lia.
  - apply Z.div_unique with (r := 0); lia.
  - reflexivity.
Qed.

Lemma pow2_xO : forall p, 2 ^ Zpos p~0 = 2 ^ Zpos p * 2 ^ Zpos p.
Proof.
  intros p. rewrite <- Z.pow_add_r by lia. f_equal. lia.
Qed.

Lemma pow2_xI : forall p, 2 ^ Zpos p~1 = 2 * (2 ^ Zpos p * 2 ^ Zpos p).
Proof.
  intros p. rewrite <- Z.pow_add_r, <- Z.pow_succ_r by lia. f_equal. lia.
Qed.

Lemma iter_shr_1_m :
  forall p mrs, 0 <= shr_m mrs ->
    shr_m (SpecFloat.iter_pos shr_1 p mrs) = shr_m mrs / 2 ^ Zpos p.
Proof.
  induction p as [p IH | p IH |]; intros mrs H; cbn [SpecFloat.iter_pos].
  - assert (H1 : 0 <= shr_m (shr_1 mrs))
      by (rewrite shr_1_m by exact H; apply Z.div_pos; lia).
    assert (H2 : 0 <= shr_m (SpecFloat.iter_pos shr_1 p (shr_1 mrs)))
      by (rewrite IH by exact H1; apply Z.div_pos; lia).
    rewrite IH, IH, shr_1_m by assumption.
    rewrite !Z.div_div by lia. rewrite pow2_xI. reflexivity.
  - assert (H2 : 0 <= shr_m (SpecFloat.iter_pos shr_1 p mrs))
      by (rewrite IH by exact H; apply Z.div_pos; lia).
    rewrite IH, IH by assumption. rewrite Z.div_div by lia.
    rewrite pow2_xO. reflexivity.
  - rewrite shr_1_m by exact H. reflexivity.
Qed.

(** Rounding the mantissa to the format never loses a positive
    number whose exponent is in range. *)
Lemma shr_fexp_pos :
  forall m e l,
    0 < m -> emin <= e ->
    0 < shr_m (fst (shr_fexp prec emax m e l))
    /\ emin <= snd (shr_fexp prec emax m e l).
Proof.
  intros m e l Hm He. unfold shr_fexp, shr.
  destruct m as [|m|m]; try lia. cbn [Zdigits2].
  assert (Hrec : shr_m (shr_record_of_loc (Zpos m) l) = Zpos m)
    by (destruct l as [|[| |]]; reflexivity).
  destruct (SpecFloat.fexp prec emax (Zpos (digits2_pos m) + e) - e) as [|n|n] eqn:En;
    cbn [fst snd]; try (rewrite Hrec; split; [lia | exact He]).
  split.
  - rewrite iter_shr_1_m by (rewrite Hrec; lia). rewrite Hrec.
    unfold SpecFloat.fexp in En.
    assert (Hn : Zpos n <= Zpos (digits2_pos m) - 1) by (assert (prec = 53) by reflexivity; lia).
    destruct (digits2_bounds m) as [Hlo _].
    apply Z.div_str_pos. split; [lia|].
    eapply Z.le_trans; [|exact Hlo]. apply Z.pow_le_mono_r; lia.
  - lia.
Qed.

Lemma round_nearest_even_ge : forall m l, m <= round_nearest_even m l.
Proof.
  intros m [|[| |]]; cbn; try lia. destruct (Z.even m); lia.
Qed.

Lemma fexp_ge_emin : forall x, emin <= SpecFloat.fexp prec emax x.
Proof. intros x. unfold SpecFloat.fexp. lia. Qed.

Lemma binary_round_aux_positive :
  forall m e l,
    0 < m -> emin <= e ->
    SFltb (S754_zero false) (binary_round_aux prec emax false m e l) = true.
Proof.
  intros m e l Hm He. unfold binary_round_aux.
  destruct (shr_fexp_pos m e l Hm He) as [H1 H2].
  destruct (shr_fexp prec emax m e l) as [mrs' e']. cbn [fst snd] in H1, H2.
  pose proof (round_nearest_even_ge (shr_m mrs') (loc_of_shr_record mrs')) as Hr.
  destruct (shr_fexp_pos (round_nearest_even (shr_m mrs') (loc_of_shr_record mrs'))
              e' loc_Exact ltac:(lia) H2) as [H3 _].
  destruct (shr_fexp prec emax _ e' loc_Exact) as [mrs'' e'']. cbn [fst] in H3.
  destruct (shr_m mrs'') as [|p|p]; try lia.
  destruct (e'' <=? emax - prec); reflexivity.
Qed.

Lemma binary_round_aux_negative :
  forall m e l,
    SFltb (S754_zero false) (binary_round_aux prec emax true m e l) = false.
Proof.
  intros m e l. unfold binary_round_aux.
  destruct (shr_fexp prec emax m e l) as [mrs' e'].
  destruct (shr_fexp prec emax _ e' loc_Exact) as [mrs'' e''].
  destruct (shr_m mrs'') as [|p|p]; try reflexivity.
  destruct (e'' <=? emax - prec); reflexivity.
Qed.

Lemma shl_align_exponent :
  forall m e e', emin <= e -> emin <= e' -> emin <= snd (shl_align m e e').
Proof.
  intros m e e' H H'. unfold shl_align. destruct (e' - e); cbn [snd]; assumption.
Qed.

(** The sign of a difference survives normalisation: it does not
    round to zero. *)
Lemma binary_normalize_sign :
  forall d e,
    emin <= e ->
    SFltb (S754_zero false) (binary_normalize prec emax d e false) = (0 <? d).
Proof.
  intros d e He. destruct d as [|d|d]; cbn [binary_normalize]; [reflexivity | |].
  - unfold binary_round.
    pose proof (shl_align_exponent d e (SpecFloat.fexp prec emax (Zpos (digits2_pos d) + e))
                  He (fexp_ge_emin _)) as Hs.
    destruct (shl_align d e _) as [mz ez]. cbn [snd] in Hs.
    rewrite binary_round_aux_positive by (lia || exact Hs). reflexivity.
  - unfold binary_round. destruct (shl_align d e _) as [mz ez].
    rewrite binary_round_aux_negative. reflexivity.
Qed.

(** [shl_align] multiplies the mantissa by the power of two that
    takes it to the smaller exponent. *)
Lemma iter_xO : forall d m, Zpos (Pos.iter xO m d) = Zpos m * 2 ^ Zpos d.
Proof.
  intros d m. induction d as [|d IH] using Pos.peano_ind.
  - cbn. lia.
  - rewrite Pos.iter_succ, Pos2Z.inj_xO, IH, Pos2Z.inj_succ, Z.pow_succ_r by lia. lia.
Qed.

Lemma shl_align_mantissa :
  forall m e e', e' <= e -> Zpos (fst (shl_align m e e')) = Zpos m * 2 ^ (e - e').
Proof.
  intros m e e' H. unfold shl_align.
  destruct (e' - e) as [|d|d] eqn:E; cbn [fst]; try lia.
  - replace (e - e') with 0 by lia. lia.
  - rewrite iter_xO. f_equal. f_equal. lia.
Qed.

(** A canonical mantissa has at most [prec] digits, and exactly
    [prec] above the smallest exponent. *)
Lemma bounded_canonical :
  forall m e,
    bounded prec emax m e = true ->
    emin <= e /\ Zpos (digits2_pos m) <= prec
    /\ (emin < e -> Zpos (digits2_pos m) = prec).
Proof.
  intros m e H. unfold bounded, canonical_mantissa in H.
  apply andb_true_iff in H as [H _]. apply Z.eqb_eq in H.
  unfold SpecFloat.fexp in H. lia.
Qed.

Lemma aligned_lt :
  forall m1 e1 m2 e2,
    bounded prec emax m1 e1 = true -> bounded prec emax m2 e2 = true ->
    e1 < e2 -> Zpos m1 < Zpos m2 * 2 ^ (e2 - e1).
Proof.
  intros m1 e1 m2 e2 H1 H2 Hlt.
  destruct (bounded_canonical _ _ H1) as (He1 & Hd1 & _).
  destruct (bounded_canonical _ _ H2) as (_ & _ & Hd2).
  specialize (Hd2 ltac:(lia)).
  destruct (digits2_bounds m1) as [_ Hhi]. destruct (digits2_bounds m2) as [Hlo _].
  rewrite Hd2 in Hlo.
  assert (Hp : 2 ^ Zpos (digits2_pos m1) <= 2 ^ prec) by (apply Z.pow_le_mono_r; lia).
  assert (Hq : 2 ^ 1 <= 2 ^ (e2 - e1)) by (apply Z.pow_le_mono_r; lia).
  change (2 ^ 1) with 2 in Hq.
  assert (Hr : 2 ^ prec = 2 ^ (prec - 1) * 2)
    by (unfold prec; reflexivity).
  nia.
Qed.

Lemma compare_aligned :
  forall m1 e1 m2 e2,
    bounded prec emax m1 e1 = true -> bounded prec emax m2 e2 = true ->
    match e1 ?= e2 with
    | Lt => Lt
    | Gt => Gt
    | Eq => Pos.compare_cont Eq m1 m2
    end
    = (Zpos m1 * 2 ^ (e1 - Z.min e1 e2) ?= Zpos m2 * 2 ^ (e2 - Z.min e1 e2)).
Proof.
  intros m1 e1 m2 e2 H1 H2. destruct (Z.compare_spec e1 e2) as [E | E | E].
  - subst e2. rewrite Z.min_id, Z.sub_diag. change (2 ^ 0) with 1.
    rewrite !Z.mul_1_r. reflexivity.
  - rewrite Z.min_l by lia. rewrite Z.sub_diag. change (2 ^ 0) with 1.
    rewrite Z.mul_1_r. symmetry. apply Z.compare_lt_iff.
    apply aligned_lt; assumption.
  - rewrite Z.min_r by lia. rewrite Z.sub_diag. change (2 ^ 0) with 1.
    rewrite Z.mul_1_r. symmetry. apply Z.compare_gt_iff.
    apply aligned_lt; assumption.
Qed.

Lemma SFcompare_finite :
  forall s1 m1 e1 s2 m2 e2,
    bounded prec emax m1 e1 = true -> bounded prec emax m2 e2 = true ->
    SFcompare (S754_finite s1 m1 e1) (S754_finite s2 m2 e2)
    = Some (cond_Zopp s1 (Zpos m1 * 2 ^ (e1 - Z.min e1 e2))
            ?= cond_Zopp s2 (Zpos m2 * 2 ^ (e2 - Z.min e1 e2))).
Proof.
  intros s1 m1 e1 s2 m2 e2 H1 H2. cbn [SFcompare]. f_equal.
  assert (P1 : 0 < Zpos m1 * 2 ^ (e1 - Z.min e1 e2))
    by (apply Z.mul_pos_pos; [lia | apply Z.pow_pos_nonneg; lia]).
  assert (P2 : 0 < Zpos m2 * 2 ^ (e2 - Z.min e1 e2))
    by (apply Z.mul_pos_pos; [lia | apply Z.pow_pos_nonneg; lia]).
  pose proof (compare_aligned m1 e1 m2 e2 H1 H2) as Hc.
  set (a1 := Zpos m1 * 2 ^ (e1 - Z.min e1 e2)) in *.
  set (a2 := Zpos m2 * 2 ^ (e2 - Z.min e1 e2)) in *.
  destruct s1, s2; cbn [cond_Zopp].
  - rewrite Z.compare_opp, (Z.compare_antisym a1 a2), <- Hc.
    destruct (e1 ?= e2); reflexivity.
  - symmetry. apply Z.compare_lt_iff. lia.
  - symmetry. apply Z.compare_gt_iff. lia.
  - exact Hc.
Qed.

(** The sign of [y - x] tells the order of [x] and [y], for all
    values but NaN. *)
Lemma SFsub_sign_order :
  forall X Y,
    valid_binary X = true -> valid_binary Y = true ->
    X <> S754_nan -> Y <> S754_nan ->
    if SFltb (S754_zero false) (SF64sub Y X)
    then SFleb X Y = true else SFleb Y X = true.
Proof.
  intros X Y VX VY NX NY.
  destruct X as [sx | sx | | sx mx ex]; try congruence;
    destruct Y as [sy | sy | | sy my ey]; try congruence;
    try (destruct sx, sy; reflexivity).
  cbn [valid_binary] in VX, VY.
  unfold SF64sub. cbn [SFsub].
  destruct (bounded_canonical _ _ VX) as (Ex & _).
  destruct (bounded_canonical _ _ VY) as (Ey & _).
  rewrite binary_normalize_sign by lia.
  rewrite !shl_align_mantissa by lia.
  unfold SFleb.
  rewrite (SFcompare_finite sx mx ex sy my ey VX VY).
  rewrite (SFcompare_finite sy my ey sx mx ex VY VX).
  rewrite (Z.min_comm ex ey).
  set (vx := cond_Zopp sx (Zpos mx * 2 ^ (ex - Z.min ey ex))).
  set (vy := cond_Zopp sy (Zpos my * 2 ^ (ey - Z.min ey ex))).
  destruct (Z.ltb_spec 0 (vy - vx)) as [H | H].
  - destruct (Z.compare_spec vx vy); (reflexivity || lia).
  - destruct (Z.compare_spec vy vx); (reflexivity || lia).
Qed.
End SpecFacts.

Lemma Prim2SF_not_nan : forall x, is_nan x = false -> Prim2SF x <> S754_nan.
Proof.
  intros x H. unfold Prim2SF. rewrite H.
  destruct (is_zero x); [discriminate|].
  destruct (is_infinity x); [discriminate|].
  destruct (Z.frexp x) as [r e].
  destruct (shr_fexp prec emax _ _ loc_Exact) as [mrs e'].
  destruct (shr_m mrs); discriminate.
Qed.

Lemma sub_sign_order :
  forall x y : float,
    is_nan x = false -> is_nan y = false ->
    if (0 <? y - x)%float then (x <=? y)%float = true else (y <=? x)%float = true.
Proof.
  intros x y Hx Hy.
  rewrite ltb_spec, sub_spec, !leb_spec.
  change (Prim2SF 0%float) with (S754_zero false).
  apply SFsub_sign_order;
    (apply Prim2SF_valid || (apply Prim2SF_not_nan; assumption)).
Qed.

(* ================================================================== *)
(** * Cosine similarity, search, and the index files *)
(* ================================================================== *)






Section SortFacts.
Context {A : Type}.
Variable after : A -> A -> bool.

Lemma insert_length : forall x l, length (Sort.insert after x l) = S (length l).
Proof.
  intros x l. induction l as [|y l IH]; cbn; [reflexivity|].
  destruct (after x y); cbn; [rewrite IH|]; reflexivity.
Qed.

Lemma sort_length : forall l, length (Sort.sort after l) = length l.
Proof.
  induction l as [|x l IH]; cbn; [reflexivity|].
  rewrite insert_length, IH. reflexivity.
Qed.

Lemma insert_Forall :
  forall (P : A -> Prop) x l, P x -> Forall P l -> Forall P (Sort.insert after x l).
Proof.
  intros P x l Hx Hl. induction Hl as [|y l Hy Hl IH]; cbn.
  - constructor; [exact Hx | constructor].
  - destruct (after x y); constructor; auto.
Qed.

Lemma sort_Forall :
  forall (P : A -> Prop) l, Forall P l -> Forall P (Sort.sort after l).
Proof.
  intros P l H. induction H as [|x l Hx Hl IH]; cbn; [constructor|].
  apply insert_Forall; assumption.
Qed.

(** [R a b]: [b] may come right after [a]. *)
Variable R : A -> A -> Prop.

Lemma insert_HdRel :
  forall a x l, R a x -> HdRel R a l -> HdRel R a (Sort.insert after x l).
Proof.
  intros a x l Hax Hl. destruct l as [|y l]; cbn.
  - constructor; exact Hax.
  - destruct (after x y); constructor; [|exact Hax].
    inversion Hl; assumption.
Qed.

Lemma insert_Sorted :
  forall x l, Forall (agrees after R x) l -> Sorted R l -> Sorted R (Sort.insert after x l).
Proof.
  intros x l Hx Hs. induction Hs as [|y l Hs IH Hhd]; cbn.
  - repeat constructor.
  - inversion Hx as [|? ? Hxy Hxl]; subst. unfold agrees in Hxy.
    destruct (after x y).
    + constructor; [apply IH; exact Hxl|].
      apply insert_HdRel; assumption.
    + constructor; [constructor; assumption|]. constructor; exact Hxy.
Qed.

Lemma sort_Sorted :
  forall l, Forall (fun x => Forall (agrees after R x) l) l -> Sorted R (Sort.sort after l).
Proof.
  induction l as [|x l IH]; intros H; cbn; [constructor|].
  inversion H as [|? ? Hx Hl]; subst.
  apply insert_Sorted.
  - apply sort_Forall. inversion Hx; assumption.
  - apply IH. eapply List.Forall_impl; [|exact Hl].
    intros y Hy. inversion Hy; assumption.
Qed.
End SortFacts.

Lemma scoreAll_spec :
  forall q l rs,
    EmbeddingIndex.scoreAll q l = inr rs ->
    length rs = length l /\ Forall stripped rs.
Proof.
  intros q l. induction l as [|r l IH]; intros rs H; cbn in H.
  - injection H as <-. split; [reflexivity | constructor].
  - destruct (EmbeddingIndex.score q r) as [e|sim]; [discriminate|].
    destruct (EmbeddingIndex.scoreAll q l) as [e|rs']; [discriminate|].
    injection H as <-. destruct (IH rs' eq_refl) as [Hlen Hst].
    split; [cbn; rewrite Hlen; reflexivity|].
    constructor; [reflexivity | exact Hst].
Qed.

(** C6, as stated, fails: the stored vector [[2^1023, 2^1023]] makes the
    dot product and the norm overflow, the similarity is NaN, and no
    order of the two results is descending. *)
Lemma semanticSearch_not_descending :
  exists a b,
    EmbeddingIndex.semanticSearch nanQuery nanIndex (JS.str "security") 10 = inr [a; b]
    /\ PrimFloat.is_nan (EmbeddingIndex.similarity a) = true
    /\ EmbeddingIndex.similarity b = 0x1.6a09e667f3bccp-1%float
    /\ ~ descending [a; b] /\ ~ descending [b; a].
Proof.
  eexists. eexists. split; [vm_compute; reflexivity|].
  split; [vm_compute; reflexivity|].
  split; [vm_compute; reflexivity|].
  split; intros H; inversion H as [|? ? _ Hhd]; subst;
    inversion Hhd as [|? ? Hle]; subst; vm_compute in Hle; discriminate.
Qed.

(** C6, amended: the results are at most [topK] and at most as many as
    the stored records, each has its embedding stripped, and they are in
    descending order of similarity provided no computed similarity is
    NaN. *)
Theorem semanticSearch_results :
  forall (generateEmbedding : JS.jsstring -> JS.jsstring + list float)
         (index : EmbeddingIndex.embeddingIndex) (query : JS.jsstring) (topK : nat)
         (q : list float) (results : list EmbeddingIndex.searchResult),
    generateEmbedding query = inr q ->
    EmbeddingIndex.semanticSearch generateEmbedding index query topK = inr results ->
    length results <= topK
    /\ length results <= length (EmbeddingIndex.embeddings index)
    /\ Forall stripped results
    /\ (Forall (fun x => PrimFloat.is_nan x = false) (scores q index) ->
        descending results).
Proof.
  intros gen index query topK q results Hq H.
  unfold EmbeddingIndex.semanticSearch in H. rewrite Hq in H.
  unfold scores.
  destruct (EmbeddingIndex.scoreAll q (EmbeddingIndex.embeddings index)) as [e|rs] eqn:E;
    [discriminate|].
  injection H as <-. destruct (scoreAll_spec _ _ _ E) as [Hlen Hst].
  split; [rewrite length_firstn; lia|].
  split; [rewrite length_firstn, sort_length; lia|].
  split.
  - apply List.Forall_forall. intros r Hr. apply In_firstn in Hr.
    pose proof (sort_Forall EmbeddingIndex.sortsAfter stripped rs Hst) as Hs.
    rewrite List.Forall_forall in Hs. apply Hs. exact Hr.
  - intros Hnan. apply Sorted_firstn. apply sort_Sorted.
    rewrite List.Forall_forall in Hnan. apply List.Forall_forall. intros x Hx.
    apply List.Forall_forall. intros y Hy.
    pose proof (sub_sign_order _ _
                  (Hnan _ (in_map EmbeddingIndex.similarity _ _ Hx))
                  (Hnan _ (in_map EmbeddingIndex.similarity _ _ Hy))) as Hxy.
    unfold agrees, EmbeddingIndex.sortsAfter.
    destruct (0 <? _)%float; exact Hxy.
Qed.

Lemma semanticSearch_results_witness :
  exists results,
    EmbeddingIndex.semanticSearch unitQuery smallIndex (JS.str "security") 2 = inr results
    /\ length results <= 2 /\ descending results.
Proof.
  eexists. split; [vm_compute; reflexivity|].
  match goal with |- length ?r <= _ /\ _ =>
    destruct (semanticSearch_results unitQuery smallIndex (JS.str "security") 2
                [1; 0]%float r eq_refl) as (H1 & _ & _ & H4)
  end.
  - vm_compute; reflexivity.
  - split; [exact H1|]. apply H4.
    vm_compute. repeat constructor.
Defined.

(** C7: [deleteIndex] resolves whatever the state of the index file, two
    calls in a row both resolve, the second changes nothing, and with no
    index file the first call reports that and changes nothing. *)
Theorem deleteIndex_total_and_idempotent :
  forall (indexDir repoId : JS.jsstring) (fs : gmap (list ascii) EmbeddingIndex.node),
    let first := EmbeddingIndex.deleteIndex indexDir repoId fs in
    let second := EmbeddingIndex.deleteIndex indexDir repoId (snd first) in
    (exists l, fst first = EmbeddingIndex.Resolved l)
    /\ (exists l, fst second = EmbeddingIndex.Resolved l)
    /\ snd second = snd first
    /\ (fs !! EmbeddingIndex.indexPath indexDir repoId = None ->
        first = (EmbeddingIndex.Resolved EmbeddingIndex.IndexFileDoesNotExist, fs)).
Proof.
  intros indexDir repoId fs.
  unfold EmbeddingIndex.deleteIndex, EmbeddingIndex.accessThenUnlink,
    EmbeddingIndex.access, EmbeddingIndex.unlink.
  set (p := EmbeddingIndex.indexPath indexDir repoId).
  destruct (fs !! p) as [[| |]|] eqn:E; cbn.
  - rewrite lookup_delete_eq. cbn. repeat split; eauto. discriminate.
  - rewrite E. cbn. repeat split; eauto. discriminate.
  - rewrite E. cbn. repeat split; eauto. discriminate.
  - rewrite E. cbn. repeat split; eauto.
Qed.

Lemma deleteIndex_total_and_idempotent_witness :
  EmbeddingIndex.deleteIndex (JS.str "/srv/data/indexes") (JS.str "octo/repo") ∅
  = (EmbeddingIndex.Resolved EmbeddingIndex.IndexFileDoesNotExist, ∅).
Proof.
  apply (deleteIndex_total_and_idempotent (JS.str "/srv/data/indexes") (JS.str "octo/repo") ∅).
  apply lookup_empty.
Defined.

(* ================================================================== *)
(** * Compaction *)
(* ================================================================== *)

(** C4, as stated, fails: six small files are within the default budget
    and come back as they are. *)
Lemma createCompactContext_exceeds_caps :
  ContextRetriever.estimateTokens (ContextRetriever.formatContextForAI sixFiles) = 116
  /\ ~ withinCaps (ContextRetriever.createCompactContext sixFiles 10000).
Proof.
  split; [vm_compute; reflexivity|].
  intros (H & _). vm_compute in H. lia.
Qed.

(** C4, amended: when the estimate exceeds the budget the returned
    context is within the caps; otherwise the context is returned
    unchanged. *)
Theorem createCompactContext_caps_over_budget :
  forall (c : ContextRetriever.context) (maxTokens : nat),
    (maxTokens < ContextRetriever.estimateTokens (ContextRetriever.formatContextForAI c) ->
     withinCaps (ContextRetriever.createCompactContext c maxTokens))
    /\ (ContextRetriever.estimateTokens (ContextRetriever.formatContextForAI c) <= maxTokens ->
        ContextRetriever.createCompactContext c maxTokens = c).
Proof.
  intros c maxTokens. unfold ContextRetriever.createCompactContext. split; intros H.
  - destruct (Nat.leb_spec (ContextRetriever.estimateTokens (ContextRetriever.formatContextForAI c)) maxTokens) as [H'|_];
      [lia|].
    unfold withinCaps; cbn. rewrite length_map, !length_firstn.
    repeat split; try lia.
    apply List.Forall_forall. intros f Hf. apply List.in_map_iff in Hf as (f0 & <- & _).
    unfold snippetsWithin, ContextRetriever.compactFile; cbn.
    destruct (ContextRetriever.fc_snippet f0); [rewrite length_firstn; lia|exact I].
  - apply Nat.leb_le in H. rewrite H. reflexivity.
Qed.

Lemma createCompactContext_caps_over_budget_witness :
  withinCaps (ContextRetriever.createCompactContext sixFiles 50).
Proof.
  apply (createCompactContext_caps_over_budget sixFiles 50).
  vm_compute. lia.
Defined.

(* ================================================================== *)
(** * Detection, and what a repair reports *)
(* ================================================================== *)

Section DetectionFacts.
Import Regex RegexSpec SyntaxFixer.

Lemma chr_eqb_dec :
forall a b, JS.chr_eqb a b = if ascii_dec a b then true else false.
Proof.
intros a b. destruct (ascii_dec a b) as [->|n].
- apply chr_eqb_eq. reflexivity.
- destruct (JS.chr_eqb a b) eqn:E; [|reflexivity].
  apply chr_eqb_eq in E. contradiction.
Qed.

(** The counters after the loop: what they were, plus the opening and
  minus the closing tokens met. *)
Lemma countBracket_fold :
forall s b,
  fold_left countBracket s b
  = Brackets
      (curly b + Z.of_nat (JS.count "{"%char s) - Z.of_nat (JS.count "}"%char s))
      (square b + Z.of_nat (JS.count "["%char s) - Z.of_nat (JS.count "]"%char s))
      (round b + Z.of_nat (JS.count "("%char s) - Z.of_nat (JS.count ")"%char s)).
Proof.
induction s as [|x s IH]; intros [cu sq ro].
- cbn. f_equal; lia.
- cbn [fold_left]. rewrite IH. rewrite !count_cons.
  unfold countBracket. rewrite !chr_eqb_dec.
  destruct (ascii_dec x "{") as [->|?]; [cbn; f_equal; lia|].
  destruct (ascii_dec x "}") as [->|?]; [cbn; f_equal; lia|].
  destruct (ascii_dec x "[") as [->|?]; [cbn; f_equal; lia|].
  destruct (ascii_dec x "]") as [->|?]; [cbn; f_equal; lia|].
  destruct (ascii_dec x "(") as [->|?]; [cbn; f_equal; lia|].
  destruct (ascii_dec x ")") as [->|?]; cbn; f_equal; lia.
Qed.

Lemma detect_counters :
forall s,
  fold_left countBracket s (Brackets 0 0 0)
  = Brackets
      (Z.of_nat (JS.count "{"%char s) - Z.of_nat (JS.count "}"%char s))
      (Z.of_nat (JS.count "["%char s) - Z.of_nat (JS.count "]"%char s))
      (Z.of_nat (JS.count "("%char s) - Z.of_nat (JS.count ")"%char s)).
Proof. intros s. rewrite countBracket_fold. reflexivity. Qed.

Lemma In_if_single :
forall {A} (b : bool) (x e : A), In e (if b then [x] else []) <-> b = true /\ e = x.
Proof.
intros A [] x e; cbn; split.
- intros [<- | []]. auto.
- intros [_ ->]. auto.
- intros [].
- intros [H _]. discriminate.
Qed.

(** Membership in the list [detectSyntaxErrors] returns, entry by entry. *)
Lemma detect_In :
forall s language e,
  In e (detectSyntaxErrors (VString s) language) <->
  let cu := (Z.of_nat (JS.count "{"%char s) - Z.of_nat (JS.count "}"%char s))%Z in
  let sq := (Z.of_nat (JS.count "["%char s) - Z.of_nat (JS.count "]"%char s))%Z in
  let ro := (Z.of_nat (JS.count "("%char s) - Z.of_nat (JS.count ")"%char s))%Z in
  ((0 < cu)%Z /\ e = UnclosedBrace cu)
  \/ ((0 < sq)%Z /\ e = UnclosedBracket sq)
  \/ ((0 < ro)%Z /\ e = UnclosedParen ro)
  \/ ((cu < 0)%Z /\ e = ExtraClosingBrace (- cu))
  \/ ((sq < 0)%Z /\ e = ExtraClosingBracket (- sq))
  \/ ((ro < 0)%Z /\ e = ExtraClosingParen (- ro))
  \/ (isJsTs language = true
      /\ 0 < length (List.filter lacksSemicolon (JS.split JS.nl s))
      /\ e = MissingSemicolons (length (List.filter lacksSemicolon (JS.split JS.nl s)))).
Proof.
intros s language e. unfold detectSyntaxErrors. rewrite detect_counters.
cbn [curly square round]. cbv zeta.
set (n := length (List.filter lacksSemicolon (JS.split JS.nl s))).
rewrite !in_app_iff, !In_if_single, !Z.ltb_lt.
assert (Hlast :
          In e (if isJsTs language
                then if 0 <? n then [MissingSemicolons n] else []
                else [])
          <-> isJsTs language = true /\ 0 < n /\ e = MissingSemicolons n).
{ destruct (isJsTs language).
  - rewrite In_if_single, Nat.ltb_lt. tauto.
  - cbn. split; [intros [] | intros [H _]; discriminate]. }
rewrite Hlast. reflexivity.
Qed.

(** X2: the bracket entries of [detectSyntaxErrors] say exactly by how
  much each kind of bracket is out of balance: an [unclosed] entry
  with count [n] is there exactly when the opening tokens outnumber
  the closing ones by [n > 0], an [extra-closing] entry exactly when
  the closing ones outnumber the opening ones by [n > 0]. *)
Theorem detectSyntaxErrors_counts :
forall (s language : JS.jsstring) (n : Z),
  let errs := detectSyntaxErrors (VString s) language in
  let occ (c : ascii) := Z.of_nat (JS.count c s) in
  (In (UnclosedBrace n) errs <-> (0 < n)%Z /\ (occ "{"%char - occ "}"%char = n)%Z)
  /\ (In (UnclosedBracket n) errs <-> (0 < n)%Z /\ (occ "["%char - occ "]"%char = n)%Z)
  /\ (In (UnclosedParen n) errs <-> (0 < n)%Z /\ (occ "("%char - occ ")"%char = n)%Z)
  /\ (In (ExtraClosingBrace n) errs <-> (0 < n)%Z /\ (occ "}"%char - occ "{"%char = n)%Z)
  /\ (In (ExtraClosingBracket n) errs <-> (0 < n)%Z /\ (occ "]"%char - occ "["%char = n)%Z)
  /\ (In (ExtraClosingParen n) errs <-> (0 < n)%Z /\ (occ ")"%char - occ "("%char = n)%Z).
Proof.
intros s language n errs occ. subst errs occ. cbv beta.
refine (conj _ (conj _ (conj _ (conj _ (conj _ _))))).
all: split;
  [ intros H; apply detect_In in H; cbv zeta in H;
    repeat (destruct H as [H | H]);
    repeat match type of H with _ /\ _ => destruct H as [? H] end;
    try discriminate; injection H as H; lia
  | intros [Hpos Heq]; apply detect_In; cbv zeta; subst n ].
- left. split; [exact Hpos | reflexivity].
- right; left. split; [exact Hpos | reflexivity].
- right; right; left. split; [exact Hpos | reflexivity].
- right; right; right; left. split; [lia | f_equal; lia].
- right; right; right; right; left. split; [lia | f_equal; lia].
- right; right; right; right; right; left. split; [lia | f_equal; lia].
Qed.

(** X3: on repaired content [detectSyntaxErrors] never reports an
  unclosed parenthesis or square bracket; it reports surplus closing
  ones exactly as it does on the input; and an unclosed brace can be
  left only by the branch that appends a single closing brace. *)
Theorem detectSyntaxErrors_after_repair :
forall (c p language : JS.jsstring) (n : Z),
  let after := detectSyntaxErrors (VString (repairedContent c p)) language in
  let before := detectSyntaxErrors (VString c) language in
  ~ In (UnclosedParen n) after
  /\ ~ In (UnclosedBracket n) after
  /\ (In (ExtraClosingParen n) after <-> In (ExtraClosingParen n) before)
  /\ (In (ExtraClosingBracket n) after <-> In (ExtraClosingBracket n) before)
  /\ (In (UnclosedBrace n) after -> endsInClosingLine (textBalanced c p) = true).
Proof.
intros c p language n after before. subst after before.
destruct (repair_counts c p) as (Ho & Hc & Hso & Hsc & Hbo & Hbc).
cbv zeta in Ho, Hc, Hso, Hsc, Hbo, Hbc.
assert (Hin : forall s e,
           In e (detectSyntaxErrors (VString s) language) -> _)
  by (intros s e H; apply detect_In in H; cbv zeta in H; exact H).
refine (conj _ (conj _ (conj _ (conj _ _)))).
- intros H. apply Hin in H.
  repeat (destruct H as [H | H]);
    repeat match type of H with _ /\ _ => destruct H as [? H] end;
    try discriminate. lia.
- intros H. apply Hin in H.
  repeat (destruct H as [H | H]);
    repeat match type of H with _ /\ _ => destruct H as [? H] end;
    try discriminate. lia.
- split; intros H; apply Hin in H;
    repeat (destruct H as [H | H]);
    repeat match type of H with _ /\ _ => destruct H as [? H] end;
    try discriminate;
    injection H as H; apply detect_In; cbv zeta;
    do 5 right; left; (split; [lia | f_equal; lia]).
- split; intros H; apply Hin in H;
    repeat (destruct H as [H | H]);
    repeat match type of H with _ /\ _ => destruct H as [? H] end;
    try discriminate;
    injection H as H; apply detect_In; cbv zeta;
    do 4 right; left; (split; [lia | f_equal; lia]).
- intros H. apply Hin in H.
  repeat (destruct H as [H | H]);
    repeat match type of H with _ /\ _ => destruct H as [? H] end;
    try discriminate.
  clear H.
  destruct (Nat.ltb_spec (JS.count "}"%char (textBalanced c p))
                         (JS.count "{"%char (textBalanced c p))); [|lia].
  destruct (endsInClosingLine (textBalanced c p)); [reflexivity | lia].
Qed.

(** Each step of the repair keeps the flag and the list of fixes in
  step: the flag is set exactly when a fix has been pushed. *)
Lemma snoc_not_nil : forall {A} (l : list A) x, l ++ [x] <> [].
Proof. intros A l x E. apply app_eq_nil in E. destruct E. discriminate. Qed.

Lemma fixIncompleteObject_flag :
forall language w,
  (wasFixed w = true <-> pushed w <> []) ->
  (wasFixed (fixIncompleteObject language w) = true
   <-> pushed (fixIncompleteObject language w) <> []).
Proof.
intros language w H. unfold fixIncompleteObject.
match goal with |- context [if ?b then _ else _] => destruct b end; [|exact H].
cbn [wasFixed pushed]. split; [intros _; apply snoc_not_nil | reflexivity].
Qed.

Lemma fixSemicolons_flag :
forall language w,
  (wasFixed w = true <-> pushed w <> []) ->
  (wasFixed (fixSemicolons language w) = true
   <-> pushed (fixSemicolons language w) <> []).
Proof.
intros language w H. unfold fixSemicolons.
destruct (isJsTs language); [|exact H]. cbv zeta. cbn [wasFixed pushed].
match goal with |- context [somes ?x] => set (new := somes x) end.
destruct new as [|e new]; cbn [length Nat.eqb negb].
- rewrite app_nil_r, orb_false_r. exact H.
- rewrite orb_true_r. split; [intros _ E | reflexivity].
  apply app_eq_nil in E. destruct E. discriminate.
Qed.

Lemma fixCommas_flag :
forall language w,
  (wasFixed w = true <-> pushed w <> []) ->
  (wasFixed (fixCommas language w) = true
   <-> pushed (fixCommas language w) <> []).
Proof.
intros language w H. unfold fixCommas.
destruct (isJsTs language); [|exact H]. cbv zeta.
match goal with |- context [if ?b then _ else _] => destruct b end;
  cbn [wasFixed pushed]; [|exact H].
split; [intros _; apply snoc_not_nil | reflexivity].
Qed.

Lemma fixIncompleteTypes_flag :
forall language w,
  (wasFixed w = true <-> pushed w <> []) ->
  (wasFixed (fixIncompleteTypes language w) = true
   <-> pushed (fixIncompleteTypes language w) <> []).
Proof.
intros language w H. unfold fixIncompleteTypes.
match goal with |- context [if ?b then _ else _] => destruct b end; [|exact H].
cbn [wasFixed pushed]. split; [intros _; apply snoc_not_nil | reflexivity].
Qed.

Lemma balance_flag :
forall w,
  (wasFixed w = true <-> pushed w <> []) ->
  (wasFixed (balance w) = true <-> pushed (balance w) <> []).
Proof.
intros w H. unfold balance. cbv zeta.
destruct (JS.count "}"%char (fixedContent w) <? JS.count "{"%char (fixedContent w));
  destruct (JS.count ")"%char (fixedContent w) <? JS.count "("%char (fixedContent w));
  destruct (JS.count "]"%char (fixedContent w) <? JS.count "["%char (fixedContent w));
  cbn [wasFixed pushed fixedContent];
  try exact H;
  (split; [intros _; apply snoc_not_nil | reflexivity]).
Qed.

Lemma fixBody_flag :
forall language c,
  wasFixed (fixBody language c) = true <-> pushed (fixBody language c) <> [].
Proof.
intros language c. unfold fixBody, removeTrailingCommas. cbn [wasFixed pushed].
apply balance_flag. unfold beforeBalancing, fixTrailingCommaAtEnd.
cbn [wasFixed pushed].
apply fixIncompleteTypes_flag, fixCommas_flag, fixSemicolons_flag,
  fixIncompleteObject_flag.
cbn. split; [discriminate | intros H; contradiction H; reflexivity].
Qed.

(** X1: on a string, [attemptSyntaxFix] returns [fixed = true] exactly
  when it lists at least one fix, [shouldCommit] equals [fixed], and
  no error is recorded. *)
Theorem attemptSyntaxFix_fixed_iff_fixes :
forall (c filePath language : JS.jsstring),
  let r := attemptSyntaxFix (VString c) filePath language in
  (fixed r = true <-> fixes r <> [])
  /\ shouldCommit r = fixed r
  /\ errors r = [].
Proof.
intros c filePath language. cbv zeta.
unfold attemptSyntaxFix, tryBlock. cbn [fixed fixes shouldCommit errors].
split; [apply fixBody_flag | split; reflexivity].
Qed.

End DetectionFacts.

(* ================================================================== *)
(** * Edit distance and the naming repair *)
(* ================================================================== *)

Section LevenshteinFacts.
Import SemanticFixer.

Lemma editDistance_nil_r : forall a, editDistance a [] = length a.
Proof. destruct a; reflexivity. Qed.

Lemma editDistance_cons :
forall x a y b,
  editDistance (x :: a) (y :: b)
  = Nat.min (Nat.min (editDistance a (y :: b) + 1) (editDistance (x :: a) b + 1))
            (editDistance a b + (if JS.chr_eqb x y then 0 else 1)).
Proof. reflexivity. Qed.

Lemma min9 :
forall t1 t2 t3 t4 t5 t6 t7 t8 t9 cuv cxy : nat,
  Nat.min
    (Nat.min (Nat.min (Nat.min (t1 + 1) (t2 + 1)) (t3 + cxy) + 1)
             (Nat.min (Nat.min (t4 + 1) (t5 + 1)) (t6 + cxy) + 1))
    (Nat.min (Nat.min (t7 + 1) (t8 + 1)) (t9 + cxy) + cuv)
  = Nat.min
      (Nat.min (Nat.min (Nat.min (t1 + 1) (t4 + 1)) (t7 + cuv) + 1)
               (Nat.min (Nat.min (t2 + 1) (t5 + 1)) (t8 + cuv) + 1))
      (Nat.min (Nat.min (t3 + 1) (t6 + 1)) (t9 + cuv) + cxy).
Proof.
intros.
rewrite <- !Nat.add_min_distr_r.
apply Nat.le_antisymm; repeat apply Nat.min_glb.
all: repeat match goal with
     | |- Nat.min ?a ?b <= ?c =>
         first [ solve [etransitivity; [apply Nat.le_min_l|]; lia]
               | solve [etransitivity; [apply Nat.le_min_r|]; lia]
               | (etransitivity; [apply Nat.le_min_l|])
               | (etransitivity; [apply Nat.le_min_r|]) ]
     end.
all: lia.
Qed.

(** The same recursion read from the last characters. *)
Lemma editDistance_snoc :
forall n a b x y,
  length a + length b <= n ->
  editDistance (a ++ [x]) (b ++ [y])
  = Nat.min (Nat.min (editDistance a (b ++ [y]) + 1) (editDistance (a ++ [x]) b + 1))
            (editDistance a b + (if JS.chr_eqb x y then 0 else 1)).
Proof.
induction n as [|n IH]; intros a b x y Hn.
- destruct a, b; cbn in Hn; try lia. reflexivity.
- destruct a as [|u a], b as [|v b].
  + reflexivity.
  + cbn [app]. rewrite editDistance_cons.
    change (editDistance [] (v :: b ++ [y])) with (length (v :: b ++ [y])).
    change (editDistance [] (b ++ [y])) with (length (b ++ [y])).
    change ([x]) with ([] ++ [x]).
    rewrite (IH [] b x y) by (cbn in *; lia).
    cbn [app]. rewrite editDistance_cons.
    change (editDistance [] (v :: b)) with (length (v :: b)).
    change (editDistance [] b) with (length b).
    change (editDistance [] (b ++ [y])) with (length (b ++ [y])).
    cbn [length]. rewrite length_app. cbn [length].
    destruct (JS.chr_eqb x v), (JS.chr_eqb x y); lia.
  + cbn [app]. rewrite editDistance_cons.
    rewrite !editDistance_nil_r.
    change ([y]) with ([] ++ [y]).
    rewrite (IH a [] x y) by (cbn in *; lia).
    cbn [app]. rewrite editDistance_cons.
    rewrite !editDistance_nil_r.
    cbn [length]. rewrite length_app. cbn [length].
    destruct (JS.chr_eqb u y), (JS.chr_eqb x y); lia.
  + cbn [app]. rewrite editDistance_cons.
    change (v :: b ++ [y]) with ((v :: b) ++ [y]).
    change (u :: a ++ [x]) with ((u :: a) ++ [x]).
    rewrite (IH a (v :: b) x y) by (cbn in *; lia).
    rewrite (IH (u :: a) b x y) by (cbn in *; lia).
    rewrite (IH a b x y) by (cbn in *; lia).
    cbn [app]. rewrite !editDistance_cons.
    apply min9.
Qed.

Lemma prefixes_head : forall s, exists t, prefixes s = [] :: t.
Proof. destruct s; cbn; eauto. Qed.

Lemma last_map_cons :
forall (c : ascii) (l : list JS.jsstring) d,
  l <> [] -> List.last (map (cons c) l) d = c :: List.last l [].
Proof.
intros c l d Hl. induction l as [|q l IH]; [contradiction|].
destruct l as [|q' l]; [reflexivity|].
change (List.last (map (cons c) (q :: q' :: l)) d)
  with (List.last (map (cons c) (q' :: l)) d).
change (List.last (q :: q' :: l) []) with (List.last (q' :: l) []).
apply IH. discriminate.
Qed.

Lemma prefixes_last : forall s, List.last (prefixes s) [] = s.
Proof.
induction s as [|c s IH]; [reflexivity|].
cbn [prefixes]. destruct (prefixes_head s) as [t Ht].
change (List.last ([] :: map (cons c) (prefixes s)) [])
  with (match map (cons c) (prefixes s) with
        | [] => []
        | _ :: _ => List.last (map (cons c) (prefixes s)) []
        end).
rewrite Ht at 1. cbn [map].
rewrite last_map_cons by (rewrite Ht; discriminate).
rewrite IH. reflexivity.
Qed.

Lemma prefixes_length : forall s, map (@length ascii) (prefixes s) = seq 0 (S (length s)).
Proof.
induction s as [|c s IH]; [reflexivity|].
cbn [prefixes length map]. rewrite map_map.
change (seq 0 (S (S (length s)))) with (0 :: seq 1 (S (length s))).
f_equal. rewrite <- seq_shift, <- IH, map_map. reflexivity.
Qed.

(** One row of the matrix from the row above: the cells right of
  column [length p1]. *)
Lemma nextRow_spec :
forall c2 p2 s1 p1 left,
  left = editDistance p1 (p2 ++ [c2]) ->
  nextRow s1 c2 (map (fun q => editDistance (p1 ++ q) p2) (prefixes s1)) left
  = map (fun q => editDistance (p1 ++ q) (p2 ++ [c2])) (tl (prefixes s1)).
Proof.
intros c2 p2. induction s1 as [|c1 r IH]; intros p1 left Hleft.
- reflexivity.
- specialize (IH (p1 ++ [c1]) (editDistance (p1 ++ [c1]) (p2 ++ [c2])) eq_refl).
  cbn [prefixes tl]. rewrite !map_map.
  destruct (prefixes_head r) as [t Ht]. rewrite Ht in *.
  cbn [map tl] in *. cbn [nextRow]. rewrite app_nil_r in *.
  assert (Hcell :
            Nat.min (Nat.min (left + 1) (editDistance (p1 ++ [c1]) p2 + 1))
                    (editDistance p1 p2 + (if JS.chr_eqb c1 c2 then 0 else 1))
            = editDistance (p1 ++ [c1]) (p2 ++ [c2])).
  { subst left. symmetry.
    apply (editDistance_snoc (length p1 + length p2)). lia. }
  rewrite Hcell. f_equal. rewrite map_map.
  assert (He : forall q s, editDistance (p1 ++ c1 :: q) s
                           = editDistance ((p1 ++ [c1]) ++ q) s).
  { intros q s. rewrite <- app_assoc. reflexivity. }
  rewrite (map_ext _ _ (fun q => He q p2)).
  rewrite (map_ext _ _ (fun q => He q (p2 ++ [c2]))).
  exact IH.
Qed.

Lemma levenshteinRows_spec :
forall s1 s2 p2,
  levenshteinRows s1 s2 (length p2) (map (fun q => editDistance q p2) (prefixes s1))
  = map (fun q => editDistance q (p2 ++ s2)) (prefixes s1).
Proof.
intros s1. induction s2 as [|c2 s2 IH]; intros p2.
- cbn [levenshteinRows]. rewrite app_nil_r. reflexivity.
- cbn [levenshteinRows].
  assert (Hrow :
            S (length p2)
              :: nextRow s1 c2 (map (fun q => editDistance q p2) (prefixes s1))
                         (S (length p2))
            = map (fun q => editDistance q (p2 ++ [c2])) (prefixes s1)).
  { pose proof (nextRow_spec c2 p2 s1 [] (S (length p2))) as H.
    cbn [app] in H. unfold JS.jsstring in *. rewrite H.
    - destruct (prefixes_head s1) as [t Ht]. rewrite Ht. cbn [map tl].
      f_equal. cbn [editDistance]. rewrite length_app. cbn. lia.
    - cbn [editDistance]. rewrite length_app. cbn. lia. }
  rewrite Hrow.
  specialize (IH (p2 ++ [c2])).
  rewrite length_app in IH. cbn [length] in IH.
  replace (length p2 + 1) with (S (length p2)) in IH by lia.
  rewrite IH, <- app_assoc. reflexivity.
Qed.

(** The bottom right cell of the matrix is the edit distance. *)
Lemma last_map :
forall {A B} (f : A -> B) (l : list A) d e,
  l <> [] -> List.last (map f l) d = f (List.last l e).
Proof.
intros A B f l d e Hne. induction l as [|q l IHl]; [contradiction|].
destruct l as [|q' l]; [reflexivity|].
change (List.last (map f (q :: q' :: l)) d) with (List.last (map f (q' :: l)) d).
change (List.last (q :: q' :: l) e) with (List.last (q' :: l) e).
apply IHl. discriminate.
Qed.

(** The bottom right cell of the matrix is the edit distance. *)
Lemma levenshtein_editDistance :
forall s1 s2, levenshtein s1 s2 = editDistance s1 s2.
Proof.
intros s1 s2. unfold levenshtein.
rewrite <- prefixes_length.
pose proof (levenshteinRows_spec s1 s2 []) as H.
cbn [length app] in H.
rewrite (map_ext _ _ editDistance_nil_r) in H.
unfold JS.jsstring in *. rewrite H.
destruct (prefixes_head s1) as [t Ht].
rewrite (last_map _ _ 0 []) by (rewrite Ht; discriminate).
rewrite prefixes_last. reflexivity.
Qed.

Lemma chr_eqb_sym : forall x y, JS.chr_eqb x y = JS.chr_eqb y x.
Proof.
intros x y. destruct (JS.chr_eqb x y) eqn:E.
- apply chr_eqb_eq in E. subst. symmetry. apply chr_eqb_eq. reflexivity.
- destruct (JS.chr_eqb y x) eqn:E'; [|reflexivity].
  apply chr_eqb_eq in E'. subst.
  assert (JS.chr_eqb x x = true) by (apply chr_eqb_eq; reflexivity). congruence.
Qed.

Lemma editDistance_sym : forall a b, editDistance a b = editDistance b a.
Proof.
induction a as [|x a IHa]; intros b.
- rewrite editDistance_nil_r. reflexivity.
- induction b as [|y b IHb].
  + reflexivity.
  + rewrite !editDistance_cons, IHb, (IHa (y :: b)), (IHa b), (chr_eqb_sym x y).
    lia.
Qed.

Lemma editDistance_bounds :
forall a b,
  editDistance a b <= Nat.max (length a) (length b)
  /\ length a - length b <= editDistance a b
  /\ length b - length a <= editDistance a b.
Proof.
induction a as [|x a IHa]; intros b.
- cbn. lia.
- induction b as [|y b IHb].
  + cbn. lia.
  + rewrite editDistance_cons.
    destruct (IHa (y :: b)) as (U1 & L1 & L1').
    destruct (IHa b) as (U2 & L2 & L2').
    destruct IHb as (U3 & L3 & L3').
    cbn [length] in *.
    destruct (JS.chr_eqb x y); lia.
Qed.

Lemma editDistance_zero : forall a b, editDistance a b = 0 <-> a = b.
Proof.
induction a as [|x a IHa]; intros b.
- cbn. destruct b; cbn; split; intros H; try reflexivity; discriminate.
- induction b as [|y b IHb].
  + cbn. split; discriminate.
  + rewrite editDistance_cons. split.
    * intros H.
      destruct (JS.chr_eqb x y) eqn:E.
      -- apply chr_eqb_eq in E. subst y.
         assert (H0 : editDistance a b = 0) by lia.
         apply IHa in H0. subst. reflexivity.
      -- lia.
    * intros H. injection H as -> ->.
      assert (E : JS.chr_eqb y y = true) by (apply chr_eqb_eq; reflexivity).
      rewrite E. assert (H0 : editDistance b b = 0) by (apply IHa; reflexivity).
      lia.
Qed.

(** X4: the matrix computation of [stringSimilarity] yields the edit
  distance of the two strings. *)
Theorem levenshtein_is_editDistance :
forall s1 s2 : JS.jsstring, levenshtein s1 s2 = editDistance s1 s2.
Proof. exact levenshtein_editDistance. Qed.

(** X5: the distance is symmetric, zero only for equal strings, at most
  the length of the longer string and at least the difference of the
  lengths. *)
Theorem levenshtein_metric :
forall a b : JS.jsstring,
  levenshtein a b = levenshtein b a
  /\ (levenshtein a b = 0 <-> a = b)
  /\ levenshtein a b <= Nat.max (length a) (length b)
  /\ length a - length b <= levenshtein a b
  /\ length b - length a <= levenshtein a b.
Proof.
intros a b. rewrite !levenshtein_editDistance.
split; [apply editDistance_sym|].
split; [apply editDistance_zero|].
apply editDistance_bounds.
Qed.

Lemma jseqb_sym : forall a b, JS.eqb a b = JS.eqb b a.
Proof.
intros a b. destruct (JS.eqb a b) eqn:E.
- apply jseqb_eq in E. subst. symmetry. apply jseqb_refl.
- destruct (JS.eqb b a) eqn:E'; [|reflexivity].
  apply jseqb_eq in E'. subst. rewrite jseqb_refl in E. discriminate.
Qed.

Lemma lowerChar_idem : forall c, JS.lowerChar (JS.lowerChar c) = JS.lowerChar c.
Proof.
intros c.
destruct c as [[] [] [] [] [] [] [] []]; vm_compute; reflexivity.
Qed.

Lemma toLowerCase_idem : forall s, JS.toLowerCase (JS.toLowerCase s) = JS.toLowerCase s.
Proof.
intros s. unfold JS.toLowerCase. rewrite map_map.
apply map_ext. apply lowerChar_idem.
Qed.

(** X6: [stringSimilarity] does not depend on the order of its
  arguments nor on the case of their letters, and it is exactly 1 for
  strings that are equal up to case. *)
Theorem stringSimilarity_symmetric :
forall a b : JS.jsstring,
  stringSimilarity a b = stringSimilarity b a
  /\ stringSimilarity (JS.toLowerCase a) (JS.toLowerCase b) = stringSimilarity a b
  /\ (JS.toLowerCase a = JS.toLowerCase b -> stringSimilarity a b = 1%float).
Proof.
intros a b. unfold stringSimilarity. cbv zeta.
rewrite !toLowerCase_idem.
split; [|split].
- rewrite (jseqb_sym (JS.toLowerCase b)).
  rewrite !levenshtein_editDistance.
  rewrite (editDistance_sym (JS.toLowerCase b)).
  rewrite (Nat.max_comm (length (JS.toLowerCase b))).
  reflexivity.
- reflexivity.
- intros H. rewrite H, jseqb_refl. reflexivity.
Qed.

End LevenshteinFacts.

Section SortPermutation.
Context {A : Type}.
Variable after : A -> A -> bool.

Lemma insert_Permutation : forall x l, Permutation (Sort.insert after x l) (x :: l).
Proof.
intros x l. induction l as [|y l IH]; cbn; [reflexivity|].
destruct (after x y); [|reflexivity].
rewrite IH. apply perm_swap.
Qed.

Lemma sort_Permutation : forall l, Permutation (Sort.sort after l) l.
Proof.
induction l as [|x l IH]; cbn; [reflexivity|].
rewrite insert_Permutation, IH. reflexivity.
Qed.
End SortPermutation.

Section NamingFacts.
Import SemanticFixer.




Lemma split_length : forall sep s, length (JS.split sep s) = S (JS.count sep s).
Proof.
intros sep s. induction s as [|c s IH]; [reflexivity|].
rewrite count_cons. cbn [JS.split].
destruct (JS.chr_eqb c sep) eqn:E.
- apply chr_eqb_eq in E. subst c. cbn [length]. rewrite IH.
  destruct (ascii_dec sep sep); [reflexivity | contradiction].
- destruct (ascii_dec c sep) as [->|_].
  + assert (JS.chr_eqb sep sep = true) by (apply chr_eqb_eq; reflexivity).
    congruence.
  + destruct (JS.split sep s) eqn:Es; cbn [length] in *; lia.
Qed.

Lemma count_firstn : forall c n s, JS.count c (firstn n s) <= JS.count c s.
Proof.
intros c n s. rewrite <- (firstn_skipn n s) at 2. rewrite count_app. lia.
Qed.

Lemma exportsOf_line :
forall content e,
  In e (exportsOf content) ->
  1 <= exportLine e <= length (JS.split JS.nl content).
Proof.
intros content e H. unfold exportsOf in H.
apply List.in_map_iff in H as (m & <- & _). cbn [exportLine].
rewrite !split_length. pose proof (count_firstn JS.nl (Regex.m_index m) content). lia.
Qed.

Lemma findImportAttempts_from :
forall targetFilePath allFiles a,
  In a (findImportAttempts targetFilePath allFiles) ->
  exists f, In f allFiles /\ path f <> targetFilePath /\ attemptFile a = path f.
Proof.
intros p files a H. unfold findImportAttempts in H.
apply in_flat_map in H as (f & Hf & H).
destruct (JS.eqb (path f) p) eqn:E; [destruct H|].
exists f. split; [exact Hf|]. split.
- intros Heq. rewrite Heq, jseqb_refl in E. discriminate.
- unfold importsOf in H. apply in_flat_map in H as (m & _ & H).
  match type of H with In _ (if ?b then _ else _) => destruct b end;
    [|destruct H].
  destruct H as [<- | []]. reflexivity.
Qed.

Lemma flagsFor_spec :
forall fileName e attempt importedName t,
  In t (flagsFor fileName e attempt importedName) ->
  original t = exportName e /\ line t = exportLine e
  /\ importedIn t = attemptFile attempt
  /\ ((confidence t = High /\ suggested t = importedName)
      \/ (confidence t = Medium /\ suggested t = fileName)).
Proof.
intros fileName e attempt importedName t H. unfold flagsFor in H.
apply in_app_or in H as [H | H].
- destruct (highConfidence _ _ _); [|destruct H].
  destruct H as [<- | []]. cbn. auto 6.
- destruct (mediumConfidence _ _ _); [|destruct H].
  destruct H as [<- | []]. cbn. auto 6.
Qed.

Lemma allFlags_spec :
forall content filePath allFiles t,
  In t (allFlags content filePath allFiles) ->
  1 <= line t <= length (JS.split JS.nl content)
  /\ (exists f, In f allFiles /\ path f <> filePath /\ importedIn t = path f)
  /\ (confidence t = High \/ confidence t = Medium)
  /\ (confidence t = Medium ->
      suggested t = Path.basenameWithout filePath (Path.extname filePath)).
Proof.
intros content filePath allFiles t H. unfold allFlags in H.
apply in_flat_map in H as (e & He & H).
apply in_flat_map in H as (attempt & Ha & H).
apply in_flat_map in H as (name & _ & H).
apply flagsFor_spec in H as (Ho & Hl & Hi & Hc).
split; [rewrite Hl; apply exportsOf_line; exact He|].
split.
- apply findImportAttempts_from in Ha as (f & Hf & Hne & Hp).
  exists f. rewrite Hi, Hp. auto.
- destruct Hc as [[Hc Hs] | [Hc Hs]]; rewrite Hc.
  + split; [left; reflexivity | discriminate].
  + split; [right; reflexivity | intros _; exact Hs].
Qed.

(** The map of typos keeps its keys distinct, each the key of its
  value. *)
Lemma typoMapSet_keys :
forall m t,
  List.NoDup (map fst m) ->
  Forall (fun kv => fst kv = typoKey (snd kv)) m ->
  List.NoDup (map fst (typoMapSet m t))
  /\ Forall (fun kv => fst kv = typoKey (snd kv)) (typoMapSet m t)
  /\ (forall k, In k (map fst (typoMapSet m t)) -> k = typoKey t \/ In k (map fst m)).
Proof.
induction m as [|[k e] m IH]; intros t Hnd Hk.
- cbn. split; [repeat constructor; intros []|].
  split; [repeat constructor|]. intros k [<- | []]. left; reflexivity.
- cbn [typoMapSet]. apply List.NoDup_cons_iff in Hnd as [Hnin Hnd].
  apply Forall_cons_iff in Hk as [Hke Hk].
  destruct (JS.eqb k (typoKey t)) eqn:E.
  + apply jseqb_eq in E.
    destruct (Nat.ltb _ _).
    * cbn [map fst]. split; [constructor; assumption|].
      split; [constructor; [exact E | exact Hk]|].
      intros k' H. right. exact H.
    * split; [cbn [map fst]; constructor; assumption|].
      split; [constructor; assumption|]. intros k' H. right. exact H.
  + destruct (IH t Hnd Hk) as (Hnd' & Hk' & Hin').
    cbn [map fst]. split.
    * constructor; [|exact Hnd'].
      intros H. apply Hin' in H as [H | H]; [|contradiction].
      cbn [fst] in *. subst k. rewrite jseqb_refl in E. discriminate.
    * split; [constructor; assumption|].
      intros k' [<- | H]; [right; left; reflexivity|].
      apply Hin' in H as [H | H]; [left; exact H | right; right; exact H].
Qed.

Lemma typoMap_keys :
forall l m,
  List.NoDup (map fst m) ->
  Forall (fun kv => fst kv = typoKey (snd kv)) m ->
  List.NoDup (map fst (fold_left typoMapSet l m))
  /\ Forall (fun kv => fst kv = typoKey (snd kv)) (fold_left typoMapSet l m).
Proof.
induction l as [|t l IH]; intros m Hnd Hk; cbn [fold_left]; [auto|].
destruct (typoMapSet_keys m t Hnd Hk) as (Hnd' & Hk' & _).
apply IH; assumption.
Qed.

(** X8: the flags [detectExportNameTypos] returns have pairwise
  distinct keys; each carries a line of the content, counted from 1,
  and names a file of [allFiles] other than the one examined; its
  confidence is high or medium, and a medium flag suggests the file
  name. *)
Theorem detectExportNameTypos_flags :
forall (content filePath : JS.jsstring) (allFiles : list codeFile),
  let typos := detectExportNameTypos content filePath allFiles in
  List.NoDup (map typoKey typos)
  /\ (forall t, In t typos ->
        1 <= line t <= length (JS.split JS.nl content)
        /\ (exists f, In f allFiles /\ path f <> filePath /\ importedIn t = path f)
        /\ (confidence t = High \/ confidence t = Medium)
        /\ (confidence t = Medium ->
            suggested t = Path.basenameWithout filePath (Path.extname filePath))).
Proof.
intros content filePath allFiles. cbv zeta. unfold detectExportNameTypos. split.
- destruct (typoMap_keys (allFlags content filePath allFiles) [])
    as (Hnd & Hk); [constructor | constructor |].
  rewrite map_map.
  erewrite map_ext_in; [exact Hnd|].
  intros kv Hin. rewrite List.Forall_forall in Hk. symmetry. apply Hk. exact Hin.
- intros t Hin. apply typoMap_In in Hin as [Hin | []].
  apply allFlags_spec. exact Hin.
Qed.

(** X9: a file that no other file of [allFiles] can import is left
  alone: when every file of [allFiles] has the path of the file
  examined, no typo is flagged and [semanticFix] returns the content
  unchanged. *)
Theorem semanticFix_without_importers :
forall (content filePath : JS.jsstring) (allFiles : list codeFile),
  Forall (fun f => path f = filePath) allFiles ->
  detectExportNameTypos content filePath allFiles = []
  /\ semanticFix content filePath allFiles = Result false content [] false.
Proof.
intros content filePath allFiles Hall.
assert (Hnone : findImportAttempts filePath allFiles = []).
{ unfold findImportAttempts. induction Hall as [|f l Hf _ IH]; [reflexivity|].
  cbn [flat_map]. rewrite Hf, jseqb_refl, IH. reflexivity. }
assert (Hflags : allFlags content filePath allFiles = []).
{ unfold allFlags. rewrite Hnone. cbn [flat_map].
  induction (exportsOf content); [reflexivity | assumption]. }
assert (Hdet : detectExportNameTypos content filePath allFiles = []).
{ unfold detectExportNameTypos. rewrite Hflags. reflexivity. }
split; [exact Hdet|].
unfold semanticFix. rewrite Hdet. reflexivity.
Qed.

Lemma semanticFix_without_importers_witness :
semanticFix (JS.str "export const hlp = 1;") (JS.str "helper.js")
            [CodeFile (JS.str "helper.js") (JS.str "export const hlp = 1;")]
= Result false (JS.str "export const hlp = 1;") [] false.
Proof.
apply (semanticFix_without_importers
         (JS.str "export const hlp = 1;") (JS.str "helper.js")
         [CodeFile (JS.str "helper.js") (JS.str "export const hlp = 1;")]).
repeat constructor.
Defined.

End NamingFacts.

Lemma detectExportNameTypos_sound_witness :
  SemanticFixer.highConfidence (JS.str "a") (JS.str "bcdefghij")
    (Path.basenameWithout (JS.str "bcdefghij.js") (Path.extname (JS.str "bcdefghij.js")))
  = true.
Proof.
  apply (detectExportNameTypos_sound
           (JS.str "export const a = 1;\nexport const ab = 2;\n")
           (JS.str "bcdefghij.js") collidingFiles (JS.str "a") (JS.str "bcdefghij")).
  exists (SemanticFixer.Typo 1 (JS.str "a") (JS.str "bcdefghij") SemanticFixer.High
            (JS.str "main.js")).
  split; [vm_compute; left; reflexivity|]. repeat split.
Defined.

(* ================================================================== *)
(** * The graph as a whole *)
(* ================================================================== *)

Section GraphExtras.
Variable ea eaf : bool -> JS.jsstring -> option (list SymbolGraph.symbol).

Lemma phase1_steps :
forall context todo done,
  Forall2 phase1Step todo (map fst (SymbolGraph.phase1 context done todo)).
Proof.
intros context. induction todo as [|f todo IH]; intros done.
- constructor.
- cbn [SymbolGraph.phase1 map fst]. constructor; [|apply IH].
  unfold phase1Step.
  match goal with
  | |- context [SemanticFixer.semanticFix _ _ ?ctx] => set (files := ctx)
  end.
  destruct (SemanticFixer.fixed
              (SemanticFixer.semanticFix (SemanticFixer.fileContent f)
                                         (SemanticFixer.path f) files)) eqn:E.
  + split; [reflexivity|]. right. exists files. cbv zeta.
    split; [exact E | reflexivity].
  + split; [reflexivity | left; reflexivity].
Qed.

Lemma Forall2_map_eq :
forall {A B} (f : A -> B) (R : A -> A -> Prop) l l',
  (forall x y, R x y -> f y = f x) -> Forall2 R l l' -> map f l' = map f l.
Proof.
intros A B f R l l' HR H. induction H as [|x y l l' Hxy _ IH]; [reflexivity|].
cbn. rewrite IH, (HR _ _ Hxy). reflexivity.
Qed.

Lemma phase1_paths :
forall context todo done,
  map SemanticFixer.path (map fst (SymbolGraph.phase1 context done todo))
  = map SemanticFixer.path todo
  /\ length (SymbolGraph.phase1 context done todo) = length todo.
Proof.
intros context todo done. pose proof (phase1_steps context todo done) as H. split.
- apply (Forall2_map_eq _ _ _ _ (fun x y Hxy => proj1 Hxy) H).
- rewrite <- (length_map fst). symmetry. eapply Forall2_length. exact H.
Qed.

(** X11: Phase 1 changes no path and no order.  The files Phase 2
  analyses are the files passed in, one for one, each either as it
  was or with the content [semanticFix] returned for it. *)
Theorem phase1_keeps_paths :
forall codeFiles scanned : list SemanticFixer.codeFile,
  Forall2 phase1Step codeFiles (analysedFiles codeFiles scanned)
  /\ map SemanticFixer.path (analysedFiles codeFiles scanned)
     = map SemanticFixer.path codeFiles
  /\ length (analysedFiles codeFiles scanned) = length codeFiles.
Proof.
intros codeFiles scanned. unfold analysedFiles.
pose proof (phase1_steps
              (if length codeFiles <? length scanned then Some scanned else None)
              codeFiles []) as H.
split; [exact H|]. split.
- apply (Forall2_map_eq _ _ _ _ (fun x y Hxy => proj1 Hxy) H).
- symmetry. eapply Forall2_length. exact H.
Qed.

Lemma addSymbols_lookup :
forall p syms (m : gmap (list ascii) SymbolGraph.graphSymbol) i s,
  fold_left (SymbolGraph.addSymbol p) syms m !! i = Some s ->
  m !! i = Some s
  \/ exists sy, In sy syms /\ i = SymbolGraph.symbolId p (SymbolGraph.name sy)
                /\ s = SymbolGraph.GraphSymbol sy i p.
Proof.
intros p. induction syms as [|sy syms IH]; intros m i s H; cbn [fold_left] in H.
- left. exact H.
- apply IH in H as [H | (sy' & Hin & Hi & Hs)].
  + unfold SymbolGraph.addSymbol in H.
    destruct (decide (SymbolGraph.symbolId p (SymbolGraph.name sy) = i)) as [<- | Hne].
    * rewrite lookup_insert_eq in H. injection H as <-.
      right. exists sy. split; [left; reflexivity|]. split; reflexivity.
    * rewrite lookup_insert_ne in H by exact Hne. left. exact H.
  + right. exists sy'. split; [right; exact Hin|]. split; assumption.
Qed.

Lemma analyzeFile_edges :
forall g f r,
  SymbolGraph.edges (SymbolGraph.analyzeFile ea eaf g f r)
  = SymbolGraph.edges g
    ++ SymbolGraph.buildEdges (extracted ea eaf f) (SemanticFixer.path f).
Proof.
intros g f r. unfold SymbolGraph.analyzeFile.
rewrite <- (extractSymbols_fst ea eaf f r).
destruct (SymbolGraph.extractSymbols ea eaf f r); reflexivity.
Qed.

Lemma analyzeFile_syntaxFixes :
forall g f r,
  SymbolGraph.syntaxFixes (SymbolGraph.analyzeFile ea eaf g f r)
  = SymbolGraph.syntaxFixes g ++ tracked ea eaf f r.
Proof.
intros g f r. unfold SymbolGraph.analyzeFile, tracked.
destruct (SymbolGraph.extractSymbols ea eaf f r); reflexivity.
Qed.

Lemma analyzeFile_totalFiles :
forall g f r,
  SymbolGraph.totalFiles (SymbolGraph.analyzeFile ea eaf g f r)
  = SymbolGraph.totalFiles g.
Proof.
intros g f r. unfold SymbolGraph.analyzeFile.
destruct (SymbolGraph.extractSymbols ea eaf f r); reflexivity.
Qed.

Section Folded.
Context {X : Type}.
Variable fileOf : X -> SemanticFixer.codeFile.
Variable resultOf : X -> option SymbolGraph.fixApplied.

Lemma folded_symbols :
forall xs g i s,
SymbolGraph.symbols (fold_left (fun g x => SymbolGraph.analyzeFile ea eaf g (fileOf x) (resultOf x)) xs g) !! i = Some s ->
SymbolGraph.symbols g !! i = Some s
\/ exists x sy,
     In x xs /\ In sy (extracted ea eaf (fileOf x))
     /\ i = SymbolGraph.symbolId (SemanticFixer.path (fileOf x)) (SymbolGraph.name sy)
     /\ s = SymbolGraph.GraphSymbol sy i (SemanticFixer.path (fileOf x)).
Proof.
induction xs as [|x xs IH]; intros g i s H; cbn [fold_left] in H.
- left. exact H.
- apply IH in H as [H | (x' & sy & Hin & Hsy & Hi & Hs)].
+ rewrite analyzeFile_symbols in H.
  apply addSymbols_lookup in H as [H | (sy & Hsy & Hi & Hs)].
  * left. exact H.
  * right. exists x, sy. split; [left; reflexivity|]. auto.
+ right. exists x', sy. split; [right; exact Hin|]. auto.
Qed.

Lemma folded_files :
forall xs g p,
is_Some (SymbolGraph.files (fold_left (fun g x => SymbolGraph.analyzeFile ea eaf g (fileOf x) (resultOf x)) xs g) !! p)
<-> is_Some (SymbolGraph.files g !! p)
    \/ In p (map (fun x => SemanticFixer.path (fileOf x)) xs).
Proof.
induction xs as [|x xs IH]; intros g p; cbn [fold_left map In].
- tauto.
- rewrite IH.
destruct (analyzeFile_files ea eaf g (fileOf x) (resultOf x)) as (rec & -> & _ & _).
destruct (decide (SemanticFixer.path (fileOf x) = p)) as [<- | Hne].
+ rewrite lookup_insert_eq. split; [intros _; right; left; reflexivity|].
  intros _. left. eexists. reflexivity.
+ rewrite lookup_insert_ne by exact Hne. tauto.
Qed.

Lemma folded_edges :
forall xs g,
SymbolGraph.edges (fold_left (fun g x => SymbolGraph.analyzeFile ea eaf g (fileOf x) (resultOf x)) xs g)
= SymbolGraph.edges g
  ++ flat_map (fun x => SymbolGraph.buildEdges (extracted ea eaf (fileOf x))
                                               (SemanticFixer.path (fileOf x))) xs.
Proof.
induction xs as [|x xs IH]; intros g; cbn [fold_left flat_map].
- rewrite app_nil_r. reflexivity.
- rewrite IH, analyzeFile_edges, <- app_assoc. reflexivity.
Qed.

Lemma folded_syntaxFixes :
forall xs g,
SymbolGraph.syntaxFixes (fold_left (fun g x => SymbolGraph.analyzeFile ea eaf g (fileOf x) (resultOf x)) xs g)
= SymbolGraph.syntaxFixes g
  ++ flat_map (fun x => tracked ea eaf (fileOf x) (resultOf x)) xs.
Proof.
induction xs as [|x xs IH]; intros g; cbn [fold_left flat_map].
- rewrite app_nil_r. reflexivity.
- rewrite IH, analyzeFile_syntaxFixes, <- app_assoc. reflexivity.
Qed.

Lemma folded_totalFiles :
forall xs g,
SymbolGraph.totalFiles (fold_left (fun g x => SymbolGraph.analyzeFile ea eaf g (fileOf x) (resultOf x)) xs g) = SymbolGraph.totalFiles g.
Proof.
induction xs as [|x xs IH]; intros g; cbn [fold_left]; [reflexivity|].
rewrite IH. apply analyzeFile_totalFiles.
Qed.

End Folded.

(** X12: in the graph [buildSymbolGraph] returns, every stored symbol
  sits under its own [id], which is its file, two colons and its
  name; it was extracted from an analysed file of that path, and
  that file has a record.  The records are exactly those of the
  paths passed in, [totalSymbols] is the number of stored symbols
  and [totalFiles] the number of files passed in. *)
Theorem buildSymbolGraph_wellformed :
forall (codeFiles scanned : list SemanticFixer.codeFile),
  let g := SymbolGraph.buildSymbolGraph ea eaf codeFiles scanned in
  (forall i s,
      SymbolGraph.symbols g !! i = Some s ->
      SymbolGraph.id s = i
      /\ i = SymbolGraph.symbolId (SymbolGraph.file s) (SymbolGraph.name (SymbolGraph.sym s))
      /\ (exists f, In f (analysedFiles codeFiles scanned)
                    /\ SemanticFixer.path f = SymbolGraph.file s
                    /\ In (SymbolGraph.sym s) (extracted ea eaf f))
      /\ is_Some (SymbolGraph.files g !! SymbolGraph.file s))
  /\ (forall p, is_Some (SymbolGraph.files g !! p)
                <-> In p (map SemanticFixer.path codeFiles))
  /\ SymbolGraph.totalSymbols g = base.size (SymbolGraph.symbols g)
  /\ SymbolGraph.totalFiles g = length codeFiles.
Proof.
intros codeFiles scanned. cbv zeta.
unfold SymbolGraph.buildSymbolGraph, SymbolGraph.phase2.
cbn [SymbolGraph.symbols SymbolGraph.files SymbolGraph.totalSymbols SymbolGraph.totalFiles].
set (l := SymbolGraph.phase1
            (if length codeFiles <? length scanned then Some scanned else None)
            [] codeFiles).
assert (Hl : analysedFiles codeFiles scanned = map fst l) by reflexivity.
destruct (phase1_paths
            (if length codeFiles <? length scanned then Some scanned else None)
            codeFiles []) as (Hpaths & Hlen).
fold l in Hpaths, Hlen.
assert (Hfiles :
          forall p,
            is_Some (SymbolGraph.files
                       (fold_left
                          (fun g x =>
                             SymbolGraph.analyzeFile ea eaf g (fst x)
                               (SymbolGraph.semanticResultFor (SemanticFixer.path (fst x)) l))
                          l (SymbolGraph.emptyGraph (length l))) !! p)
            <-> In p (map SemanticFixer.path codeFiles)).
{ intros p.
  rewrite (folded_files fst
             (fun x => SymbolGraph.semanticResultFor (SemanticFixer.path (fst x)) l)).
  cbn [SymbolGraph.emptyGraph SymbolGraph.files]. rewrite lookup_empty.
  rewrite <- Hpaths, map_map. split.
  - intros [[? H] | H]; [discriminate | exact H].
  - intros H. right. exact H. }
split; [|split; [exact Hfiles | split]].
- intros i s H.
  apply (folded_symbols fst
           (fun x => SymbolGraph.semanticResultFor (SemanticFixer.path (fst x)) l)) in H.
  destruct H as [H | (x & sy & Hin & Hsy & Hi & Hs)].
  + cbn in H. rewrite lookup_empty in H. discriminate.
  + subst s. cbn [SymbolGraph.id SymbolGraph.file SymbolGraph.sym].
    split; [reflexivity|]. split; [exact Hi|]. split.
    * exists (fst x). rewrite Hl. split; [apply in_map; exact Hin|]. auto.
    * apply Hfiles. rewrite <- Hpaths, map_map.
      apply (in_map (fun x => SemanticFixer.path (fst x))). exact Hin.
- reflexivity.
- rewrite (folded_totalFiles fst
             (fun x => SymbolGraph.semanticResultFor (SemanticFixer.path (fst x)) l)).
  cbn. exact Hlen.
Qed.

Lemma smartFix_content :
forall c p,
  SyntaxFixer.content (SyntaxFixer.smartFix (SyntaxFixer.VString c) p)
  = SyntaxFixer.VString (repairedContent c p).
Proof.
intros c p. unfold repairedContent, repair, SyntaxFixer.smartFix.
unfold SyntaxFixer.attemptSyntaxFix. cbn [SyntaxFixer.tryBlock SyntaxFixer.content].
reflexivity.
Qed.

Lemma parseWithBabel_snd :
forall ts content p fa,
  snd (SymbolGraph.parseWithBabel ea eaf ts content p) = Some fa ->
  fa = SymbolGraph.ofSyntaxResult (repair content p)
  /\ SyntaxFixer.fixed (repair content p) = true.
Proof.
intros ts content p fa. unfold SymbolGraph.parseWithBabel.
destruct (ea ts content); [discriminate|].
fold (repair content p).
destruct (SyntaxFixer.fixed (repair content p)); [|discriminate].
destruct (eaf ts _); [|discriminate].
cbn [snd]. intros H. injection H as <-. auto.
Qed.

Lemma jseqb_In :
forall x (l : list JS.jsstring), existsb (JS.eqb x) l = true <-> In x l.
Proof.
intros x l. rewrite existsb_exists. split.
- intros (y & Hy & E). apply jseqb_eq in E. subst. exact Hy.
- intros H. exists x. split; [exact H | apply jseqb_refl].
Qed.

(** What [analyzeFile] tracks, by the extension of the file. *)
Lemma tracked_spec :
forall f r e,
  In e (tracked ea eaf f r) ->
  SymbolGraph.filePath e = SemanticFixer.path f
  /\ SymbolGraph.originalContent e = SemanticFixer.fileContent f
  /\ extensionOf (SemanticFixer.path f) <> JS.str ".py"
  /\ (In (extensionOf (SemanticFixer.path f)) babelExtensions ->
      SymbolGraph.fixedContent e
      = repairedContent (SemanticFixer.fileContent f) (SemanticFixer.path f)
      /\ SymbolGraph.fixes e
         = map inl (SyntaxFixer.fixes
                      (repair (SemanticFixer.fileContent f) (SemanticFixer.path f)))
      /\ SyntaxFixer.fixed
           (repair (SemanticFixer.fileContent f) (SemanticFixer.path f)) = true)
  /\ (~ In (extensionOf (SemanticFixer.path f)) babelExtensions ->
      exists fa, r = Some fa /\ SymbolGraph.fixes e = SymbolGraph.fa_fixes fa).
Proof.
intros f r e H. unfold tracked in H.
destruct (snd (SymbolGraph.extractSymbols ea eaf f r)) as [fa|] eqn:Efa; [|destruct H].
destruct (SymbolGraph.fa_shouldCommit fa); [|destruct H].
destruct H as [<- | []]. cbn [SymbolGraph.filePath SymbolGraph.originalContent
                                SymbolGraph.fixedContent SymbolGraph.fixes].
split; [reflexivity|]. split; [reflexivity|].
unfold SymbolGraph.extractSymbols in Efa. fold (extensionOf (SemanticFixer.path f)) in Efa.
unfold babelExtensions. set (ext := extensionOf (SemanticFixer.path f)) in *.
assert (Hin : forall x l, JS.eqb ext x = true -> In x l -> In ext l).
{ intros x l E Hx. apply jseqb_eq in E. subst. exact Hx. }
assert (Hbabel : forall ts,
           snd (SymbolGraph.parseWithBabel ea eaf ts (SemanticFixer.fileContent f)
                                           (SemanticFixer.path f)) = Some fa ->
           SymbolGraph.fa_content fa
           = repairedContent (SemanticFixer.fileContent f) (SemanticFixer.path f)
           /\ SymbolGraph.fa_fixes fa
              = map inl (SyntaxFixer.fixes
                           (repair (SemanticFixer.fileContent f) (SemanticFixer.path f)))
           /\ SyntaxFixer.fixed
                (repair (SemanticFixer.fileContent f) (SemanticFixer.path f)) = true).
{ intros ts Hs. apply parseWithBabel_snd in Hs as [-> Hfixed].
  unfold SymbolGraph.ofSyntaxResult. cbn [SymbolGraph.fa_content SymbolGraph.fa_fixes].
  unfold repair at 1. rewrite smartFix_content. auto. }
destruct (JS.eqb ext (JS.str ".js") || JS.eqb ext (JS.str ".jsx")
          || JS.eqb ext (JS.str ".mjs")) eqn:E1.
{ split.
  - intros Hpy. rewrite Hpy in E1. vm_compute in E1. discriminate.
  - split; [intros _; apply (Hbabel false); exact Efa|].
    intros Hn. contradiction Hn.
    apply orb_true_iff in E1 as [E1 | E1]; [apply orb_true_iff in E1 as [E1 | E1]|];
      apply jseqb_eq in E1; rewrite E1; cbn; tauto. }
destruct (JS.eqb ext (JS.str ".ts") || JS.eqb ext (JS.str ".tsx")) eqn:E2.
{ split.
  - intros Hpy. rewrite Hpy in E2. vm_compute in E2. discriminate.
  - split; [intros _; apply (Hbabel true); exact Efa|].
    intros Hn. contradiction Hn.
    apply orb_true_iff in E2 as [E2 | E2];
      apply jseqb_eq in E2; rewrite E2; cbn; tauto. }
destruct (JS.eqb ext (JS.str ".py")) eqn:E3; [discriminate|].
cbn [snd] in Efa. split.
- intros Hpy. rewrite Hpy, jseqb_refl in E3. discriminate.
- split.
  + intros Hb. exfalso.
    apply orb_false_iff in E1 as [E1 E1c]. apply orb_false_iff in E1 as [E1a E1b].
    apply orb_false_iff in E2 as [E2a E2b].
    cbn [In] in Hb.
    destruct Hb as [H | [H | [H | [H | [H | []]]]]]; rewrite <- H, jseqb_refl in *;
      discriminate.
  + intros _. exists fa. auto.
Qed.

Lemma semanticResultFor_spec :
forall p l acc fa,
  Forall (fun x : SemanticFixer.codeFile * option SymbolGraph.fixApplied =>
            snd x = None
            \/ exists r, snd x = Some (SymbolGraph.ofSemanticResult r)) l ->
  fold_left (fun acc x =>
               match snd x with
               | Some r => if JS.eqb (SemanticFixer.path (fst x)) p then Some r else acc
               | None => acc
               end) l acc = Some fa ->
  acc = Some fa \/ exists r, fa = SymbolGraph.ofSemanticResult r.
Proof.
intros p. induction l as [|x l IH]; intros acc fa Hall H; cbn [fold_left] in H.
- left. exact H.
- apply Forall_cons_iff in Hall as [Hx Hall].
  apply IH in H as [H | H]; [|right; exact H|exact Hall].
  destruct Hx as [Hx | (r & Hx)]; rewrite Hx in H.
  + left. exact H.
  + destruct (JS.eqb _ _); [|left; exact H].
    injection H as <-. right. exists r. reflexivity.
Qed.

Lemma phase1_results :
forall context todo done,
  Forall (fun x : SemanticFixer.codeFile * option SymbolGraph.fixApplied =>
            snd x = None
            \/ exists r, snd x = Some (SymbolGraph.ofSemanticResult r))
         (SymbolGraph.phase1 context done todo).
Proof.
intros context. induction todo as [|f todo IH]; intros done; cbn [SymbolGraph.phase1].
- constructor.
- constructor; [|apply IH]. cbn [snd].
  destruct (SemanticFixer.fixed _); [right; eexists; reflexivity | left; reflexivity].
Qed.

(** X13: every entry of [syntaxFixes] belongs to an analysed file and
  holds that file's content as [originalContent].  No entry is ever
  made for a [.py] file.  For a file Babel is asked to parse the
  entry is the syntax fixer's result on that content; a result of
  [semanticFix] is recorded only for files of other extensions. *)
Theorem syntaxFixes_provenance :
forall (codeFiles scanned : list SemanticFixer.codeFile) (e : SymbolGraph.syntaxFix),
  In e (SymbolGraph.syntaxFixes (SymbolGraph.buildSymbolGraph ea eaf codeFiles scanned)) ->
  (exists f, In f (analysedFiles codeFiles scanned)
             /\ SymbolGraph.filePath e = SemanticFixer.path f
             /\ SymbolGraph.originalContent e = SemanticFixer.fileContent f)
  /\ extensionOf (SymbolGraph.filePath e) <> JS.str ".py"
  /\ (In (extensionOf (SymbolGraph.filePath e)) babelExtensions ->
      SymbolGraph.fixedContent e
      = repairedContent (SymbolGraph.originalContent e) (SymbolGraph.filePath e)
      /\ SymbolGraph.fixes e
         = map inl (SyntaxFixer.fixes
                      (repair (SymbolGraph.originalContent e) (SymbolGraph.filePath e)))
      /\ SyntaxFixer.fixed
           (repair (SymbolGraph.originalContent e) (SymbolGraph.filePath e)) = true)
  /\ (~ In (extensionOf (SymbolGraph.filePath e)) babelExtensions ->
      Forall isSemantic (SymbolGraph.fixes e)).
Proof.
intros codeFiles scanned e H.
unfold SymbolGraph.buildSymbolGraph, SymbolGraph.phase2 in H.
cbn [SymbolGraph.syntaxFixes] in H.
set (l := SymbolGraph.phase1
            (if length codeFiles <? length scanned then Some scanned else None)
            [] codeFiles) in *.
rewrite (folded_syntaxFixes fst
           (fun x => SymbolGraph.semanticResultFor (SemanticFixer.path (fst x)) l)) in H.
cbn [SymbolGraph.emptyGraph SymbolGraph.syntaxFixes app] in H.
apply in_flat_map in H as (x & Hx & H).
apply tracked_spec in H as (Hp & Hc & Hpy & Hb & Hs).
rewrite Hp, Hc. split.
- exists (fst x). split; [|auto]. unfold analysedFiles. fold l. apply in_map. exact Hx.
- split; [exact Hpy|]. split; [exact Hb|].
  intros Hn. destruct (Hs Hn) as (fa & Hfa & ->).
  unfold SymbolGraph.semanticResultFor in Hfa.
  apply semanticResultFor_spec in Hfa as [Hfa | (r & ->)];
    [discriminate | | apply phase1_results].
  unfold SymbolGraph.ofSemanticResult. cbn [SymbolGraph.fa_fixes].
  apply List.Forall_forall. intros y Hy.
  apply List.in_map_iff in Hy as (z & <- & _). exact I.
Qed.

Lemma startsWith_refl : forall s, JS.startsWith s s = true.
Proof.
induction s as [|c s IH]; [reflexivity|]. cbn.
rewrite IH, andb_true_r. apply chr_eqb_eq. reflexivity.
Qed.

Lemma includes_app : forall a b, JS.includes (a ++ b) b = true.
Proof.
induction a as [|x a IH]; intros b.
- cbn [app]. destruct b; cbn; [reflexivity|].
  rewrite startsWith_refl, andb_true_r.
  assert (E : JS.chr_eqb a a = true) by (apply chr_eqb_eq; reflexivity).
  rewrite E. reflexivity.
- cbn [app JS.includes]. rewrite IH. apply orb_true_r.
Qed.

Lemma includes_symbolId :
forall p n, JS.includes (SymbolGraph.symbolId p n) n = true.
Proof.
intros p n. unfold SymbolGraph.symbolId. rewrite app_assoc. apply includes_app.
Qed.

(** X14: an import symbol extracted from an analysed file leaves an edge
  in the graph, from the symbol's id to the id made of its source
  and its name, and [findReferences] returns that edge when asked for
  the name. *)
Theorem findReferences_finds_imports :
forall (codeFiles scanned : list SemanticFixer.codeFile)
       (f : SemanticFixer.codeFile) (s : SymbolGraph.symbol),
  In f (analysedFiles codeFiles scanned) ->
  In s (extracted ea eaf f) ->
  SymbolGraph.type s = SymbolGraph.IMPORT ->
  In (importEdge (SemanticFixer.path f) s)
     (SymbolGraph.findReferences
        (SymbolGraph.buildSymbolGraph ea eaf codeFiles scanned)
        (SymbolGraph.name s)).
Proof.
intros codeFiles scanned f s Hf Hs Ht.
unfold SymbolGraph.findReferences. apply filter_In. split.
- unfold SymbolGraph.buildSymbolGraph, SymbolGraph.phase2.
  cbn [SymbolGraph.edges].
  unfold analysedFiles in Hf.
  set (l := SymbolGraph.phase1
              (if length codeFiles <? length scanned then Some scanned else None)
              [] codeFiles) in *.
  rewrite (folded_edges fst
             (fun x => SymbolGraph.semanticResultFor (SemanticFixer.path (fst x)) l)).
  cbn [SymbolGraph.emptyGraph SymbolGraph.edges app].
  apply List.in_map_iff in Hf as (x & <- & Hx).
  apply in_flat_map. exists x. split; [exact Hx|].
  unfold SymbolGraph.buildEdges. apply in_or_app. left.
  apply (in_map (fun imp => importEdge (SemanticFixer.path (fst x)) imp)).
  apply filter_In. split; [exact Hs|]. rewrite Ht. reflexivity.
- unfold importEdge. cbn [SymbolGraph.e_to SymbolGraph.e_from].
  rewrite !includes_symbolId. reflexivity.
Qed.

End GraphExtras.

Lemma findReferences_finds_imports_witness :
  In (SymbolGraph.Edge (JS.str "tool.py::os") (JS.str "null::os") SymbolGraph.Imports)
     (SymbolGraph.findReferences
        (SymbolGraph.buildSymbolGraph noBabel noBabel smallRepo []) (JS.str "os")).
Proof.
  apply (findReferences_finds_imports noBabel noBabel smallRepo []
           (SemanticFixer.CodeFile (JS.str "tool.py") (JS.str "import os\ndef run(x):"))
           (SymbolGraph.Symbol (JS.str "os") SymbolGraph.IMPORT 1 None None)).
  - vm_compute. left. reflexivity.
  - vm_compute. left. reflexivity.
  - reflexivity.
Defined.

Lemma syntaxFixes_provenance_witness :
  exists e,
    SymbolGraph.syntaxFixes (SymbolGraph.buildSymbolGraph noBabel emptyBabel unclosedCall [])
    = [e]
    /\ SymbolGraph.fixedContent e = JS.str "run(1)"
    /\ extensionOf (SymbolGraph.filePath e) <> JS.str ".py".
Proof.
  exists (SymbolGraph.SyntaxFix (JS.str "a.js") (JS.str "run(1") (JS.str "run(1)")
            [inl (SyntaxFixer.MissingClosingParen 1)]).
  split; [vm_compute; reflexivity|]. split; [reflexivity|].
  apply (syntaxFixes_provenance noBabel emptyBabel unclosedCall []).
  vm_compute. left. reflexivity.
Defined.

Section ExtractorFacts.

Lemma mapIndexed_In :
forall {A B} (f : nat -> A -> list B) l i x,
  In x (concat (SyntaxFixer.mapIndexed f i l)) ->
  exists k y, k < length l /\ In x (f (i + k) y).
Proof.
intros A B f. induction l as [|y l IH]; intros i x H; cbn in H; [destruct H|].
apply in_app_or in H as [H | H].
- exists 0, y. rewrite Nat.add_0_r. cbn. split; [lia | exact H].
- apply IH in H as (k & z & Hk & H). exists (S k), z.
  replace (i + S k) with (S i + k) by lia. cbn. split; [lia | exact H].
Qed.

Lemma mapIndexed_length :
forall {A B} (f : nat -> A -> list B) c l i,
  (forall i y, length (f i y) <= c) ->
  length (concat (SyntaxFixer.mapIndexed f i l)) <= c * length l.
Proof.
intros A B f c. induction l as [|y l IH]; intros i Hf; cbn; [lia|].
rewrite length_app. specialize (IH (S i) Hf). specialize (Hf i y). lia.
Qed.

Lemma genericLine_spec :
forall n l s,
  In s (SymbolGraph.genericLine n l) ->
  SymbolGraph.line s = n
  /\ (SymbolGraph.type s = SymbolGraph.FUNCTION \/ SymbolGraph.type s = SymbolGraph.CLASS)
  /\ SymbolGraph.from s = None /\ SymbolGraph.extends s = None.
Proof.
intros n l s H. unfold SymbolGraph.genericLine in H.
apply in_app_or in H as [H | H].
- destruct (SymbolGraph.firstMatch SymbolGraph.funcPatterns l); [|destruct H].
  destruct H as [<- | []]. cbn. auto.
- destruct (SymbolGraph.firstMatch SymbolGraph.classPatterns l); [|destruct H].
  destruct H as [<- | []]. cbn. auto.
Qed.

Lemma genericLine_length : forall n l, length (SymbolGraph.genericLine n l) <= 2.
Proof.
intros n l. unfold SymbolGraph.genericLine. rewrite length_app.
destruct (SymbolGraph.firstMatch SymbolGraph.funcPatterns l),
  (SymbolGraph.firstMatch SymbolGraph.classPatterns l); cbn; lia.
Qed.

Lemma pythonLine_spec :
forall n l s,
  In s (SymbolGraph.pythonLine n l) ->
  SymbolGraph.line s = n
  /\ (SymbolGraph.type s = SymbolGraph.IMPORT
      \/ (SymbolGraph.type s = SymbolGraph.FUNCTION \/ SymbolGraph.type s = SymbolGraph.CLASS)
         /\ SymbolGraph.from s = None)
  /\ SymbolGraph.extends s = None.
Proof.
intros n l s H. unfold SymbolGraph.pythonLine in H.
apply in_app_or in H as [H | H]; [|apply in_app_or in H as [H | H]].
- destruct (Regex.exec false SymbolGraph.pyImport l); [|destruct H].
  apply List.in_map_iff in H as (x & <- & _).
  split; [reflexivity|]. split; [left; reflexivity | reflexivity].
- destruct (Regex.exec false SymbolGraph.pyDef l); [|destruct H].
  destruct H as [<- | []].
  split; [reflexivity|]. split; [right; split; [left|]; reflexivity | reflexivity].
- destruct (Regex.exec false SymbolGraph.pyClass l); [|destruct H].
  destruct H as [<- | []].
  split; [reflexivity|]. split; [right; split; [right|]; reflexivity | reflexivity].
Qed.

(** X15: the regex extractors number lines from 1 and stay within the
  text: every symbol of [extractGenericSymbols] is a function or a
  class on a line of the content, at most two symbols come from one
  line, and every symbol of [parsePython] is an import, a function or
  a class on a line of the content.  Neither extractor ever fills
  [extends], and only imports carry a [from]. *)
Theorem regex_extractors_lines :
forall content : JS.jsstring,
  let n := length (JS.split JS.nl content) in
  (forall s, In s (SymbolGraph.extractGenericSymbols content) ->
             1 <= SymbolGraph.line s <= n
             /\ (SymbolGraph.type s = SymbolGraph.FUNCTION
                 \/ SymbolGraph.type s = SymbolGraph.CLASS)
             /\ SymbolGraph.from s = None /\ SymbolGraph.extends s = None)
  /\ length (SymbolGraph.extractGenericSymbols content) <= 2 * n
  /\ (forall s, In s (SymbolGraph.parsePython content) ->
                1 <= SymbolGraph.line s <= n
                /\ (SymbolGraph.type s = SymbolGraph.IMPORT
                    \/ (SymbolGraph.type s = SymbolGraph.FUNCTION
                        \/ SymbolGraph.type s = SymbolGraph.CLASS)
                       /\ SymbolGraph.from s = None)
                /\ SymbolGraph.extends s = None).
Proof.
intros content. cbv zeta. split; [|split].
- intros s H. unfold SymbolGraph.extractGenericSymbols in H.
  apply (mapIndexed_In (fun i l => SymbolGraph.genericLine (i + 1) l)) in H
    as (k & y & Hk & H).
  apply genericLine_spec in H as (Hl & H). rewrite Hl. split; [lia | exact H].
- unfold SymbolGraph.extractGenericSymbols.
  apply (mapIndexed_length (fun i l => SymbolGraph.genericLine (i + 1) l)).
  intros i y. apply genericLine_length.
- intros s H. unfold SymbolGraph.parsePython in H.
  apply (mapIndexed_In (fun i l => SymbolGraph.pythonLine (i + 1) l)) in H
    as (k & y & Hk & H).
  apply pythonLine_spec in H as (Hl & H). rewrite Hl. split; [lia | exact H].
Qed.

End ExtractorFacts.

(* ================================================================== *)
(** * The index and the search *)
(* ================================================================== *)

Section EmbeddingExtras.
Import EmbeddingIndex.

Lemma sanitize_char :
forall c,
  let c' := (if ((97 <=? JS.code c) && (JS.code c <=? 122)
                 || (65 <=? JS.code c) && (JS.code c <=? 90)
                 || (48 <=? JS.code c) && (JS.code c <=? 57)
                 || (JS.code c =? 45) || (JS.code c =? 95))%nat
             then c else "_"%char) in
  safeChar c' = true /\ (safeChar c = true -> c' = c)
  /\ c' <> "/"%char /\ c' <> "."%char.
Proof.
intros c. destruct c as [[] [] [] [] [] [] [] []]; vm_compute;
  (split; [reflexivity|]); (split; [intros H; first [reflexivity | discriminate]|]);
  split; discriminate.
Qed.

(** X16: [sanitizeRepoId] keeps the length of the id and leaves only
  letters, digits, hyphens and underscores, so the result holds no
  slash and no period; an id made of such characters is unchanged,
  and sanitising twice is sanitising once. *)
Theorem sanitizeRepoId_safe :
forall repoId : JS.jsstring,
  length (sanitizeRepoId repoId) = length repoId
  /\ forallb safeChar (sanitizeRepoId repoId) = true
  /\ ~ In "/"%char (sanitizeRepoId repoId)
  /\ ~ In "."%char (sanitizeRepoId repoId)
  /\ (forallb safeChar repoId = true -> sanitizeRepoId repoId = repoId)
  /\ sanitizeRepoId (sanitizeRepoId repoId) = sanitizeRepoId repoId.
Proof.
assert (Hsafe : forall r, forallb safeChar (sanitizeRepoId r) = true).
{ induction r as [|c r IH]; [reflexivity|].
  cbn [sanitizeRepoId map forallb]. fold (sanitizeRepoId r).
  rewrite IH, andb_true_r. apply (sanitize_char c). }
assert (Hid : forall r, forallb safeChar r = true -> sanitizeRepoId r = r).
{ induction r as [|c r IH]; [reflexivity|]. cbn [forallb]. intros H.
  apply andb_true_iff in H as [Hc Hr].
  cbn [sanitizeRepoId map]. fold (sanitizeRepoId r). rewrite (IH Hr). f_equal.
  apply (sanitize_char c). exact Hc. }
intros repoId. split; [apply length_map|]. split; [apply Hsafe|].
split; [|split; [|split; [apply Hid | apply Hid, Hsafe]]].
- induction repoId as [|c r IH]; [intros []|].
  cbn [sanitizeRepoId map]. fold (sanitizeRepoId r). intros [H | H]; [|auto].
  destruct (sanitize_char c) as (_ & _ & Hs & _). cbv zeta in Hs. congruence.
- induction repoId as [|c r IH]; [intros []|].
  cbn [sanitizeRepoId map]. fold (sanitizeRepoId r). intros [H | H]; [|auto].
  destruct (sanitize_char c) as (_ & _ & _ & Hs). cbv zeta in Hs. congruence.
Qed.



Local Open Scope float_scope.

Lemma SFmul_comm : forall x y, SF64mul x y = SF64mul y x.
Proof.
intros x y. unfold SF64mul, SFmul.
destruct x as [sx | sx | | sx mx ex], y as [sy | sy | | sy my ey];
  try reflexivity; try (rewrite xorb_comm; reflexivity).
rewrite xorb_comm, Pos.mul_comm, Z.add_comm. reflexivity.
Qed.

Lemma float_mul_comm : forall x y : float, x * y = y * x.
Proof.
intros x y. apply Prim2SF_inj. rewrite !mul_spec. apply SFmul_comm.
Qed.

Lemma dotProduct_comm_acc :
forall v1 v2 acc,
  fold_left (fun acc p => acc + fst p * snd p) (combine v1 v2) acc
  = fold_left (fun acc p => acc + fst p * snd p) (combine v2 v1) acc.
Proof.
induction v1 as [|a v1 IH]; intros v2 acc.
- destruct v2; reflexivity.
- destruct v2 as [|b v2]; [reflexivity|].
  cbn [combine fold_left fst snd]. rewrite (float_mul_comm a b). apply IH.
Qed.

(** X18: [cosineSimilarity] is symmetric: swapping the two vectors gives
  the same number, bit for bit, or the same error; and it throws
  exactly when the two lengths differ. *)
Theorem cosineSimilarity_symmetric :
forall vec1 vec2 : list float,
  cosineSimilarity vec1 vec2 = cosineSimilarity vec2 vec1
  /\ ((exists e, cosineSimilarity vec1 vec2 = inl e)
      <-> length vec1 <> length vec2).
Proof.
intros vec1 vec2. unfold cosineSimilarity.
rewrite (Nat.eqb_sym (length vec2)).
destruct (Nat.eqb_spec (length vec1) (length vec2)) as [El | El]; cbn [negb].
- split.
  + rewrite (orb_comm (PrimFloat.sqrt (sumSquares vec2) =? 0)).
    destruct ((PrimFloat.sqrt (sumSquares vec1) =? 0)
              || (PrimFloat.sqrt (sumSquares vec2) =? 0)); [reflexivity|].
    unfold dotProduct. rewrite (dotProduct_comm_acc vec2 vec1).
    rewrite (float_mul_comm (PrimFloat.sqrt (sumSquares vec2))). reflexivity.
  + split; [|intros H; contradiction].
    intros [e H].
    destruct ((PrimFloat.sqrt (sumSquares vec1) =? 0)
              || (PrimFloat.sqrt (sumSquares vec2) =? 0)); discriminate.
- split; [reflexivity|]. split; [intros _; exact El | intros _; eauto].
Qed.

Local Close Scope float_scope.

Lemma scoreAll_scored :
forall q l rs, scoreAll q l = inr rs -> Forall2 (scored q) l rs.
Proof.
intros q. induction l as [|rec l IH]; intros rs H; cbn [scoreAll] in H.
- injection H as <-. constructor.
- destruct (score q rec) as [e | sim] eqn:Es; [discriminate|].
  destruct (scoreAll q l) as [e | rs'] eqn:Ea; [discriminate|].
  injection H as <-. constructor; [|apply IH; reflexivity].
  split; [reflexivity | exact Es].
Qed.

Lemma Forall2_In_r :
forall {A B} (R : A -> B -> Prop) l l' y,
  Forall2 R l l' -> In y l' -> exists x, In x l /\ R x y.
Proof.
intros A B R l l' y H. induction H as [|a b l l' Hab _ IH]; intros Hy; [destruct Hy|].
destruct Hy as [<- | Hy].
- exists a. split; [left; reflexivity | exact Hab].
- destruct (IH Hy) as (x & Hx & HR). exists x. split; [right; exact Hx | exact HR].
Qed.

Lemma Forall2_map_both :
forall {A B C} (R : A -> B -> Prop) (f : A -> C) (g : B -> C) l l',
  (forall x y, R x y -> g y = f x) -> Forall2 R l l' -> map g l' = map f l.
Proof.
intros A B C R f g l l' HR H. induction H as [|a b l l' Hab _ IH]; [reflexivity|].
cbn. rewrite IH, (HR _ _ Hab). reflexivity.
Qed.

(** X19: a successful search returns records of the index and nothing
  else: each result is a stored record, stripped, with the similarity
  [cosineSimilarity] gives for it; and when [topK] is at least the
  size of the index, every record is returned exactly once. *)
Theorem semanticSearch_complete :
forall (generateEmbedding : JS.jsstring -> JS.jsstring + list float)
       (index : embeddingIndex) (query : JS.jsstring) (topK : nat)
       (q : list float) (results : list searchResult),
  generateEmbedding query = inr q ->
  semanticSearch generateEmbedding index query topK = inr results ->
  (forall r, In r results -> exists rec, In rec (embeddings index) /\ scored q rec r)
  /\ (length (embeddings index) <= topK ->
      Permutation (map item results) (map strip (embeddings index))
      /\ length results = length (embeddings index)).
Proof.
intros generateEmbedding index query topK q results Hq H.
unfold semanticSearch in H. rewrite Hq in H.
destruct (scoreAll q (embeddings index)) as [e | all] eqn:Eall; [discriminate|].
injection H as <-.
pose proof (scoreAll_scored _ _ _ Eall) as Hall.
pose proof (sort_Permutation sortsAfter all) as Hperm.
split.
- intros r Hr. apply In_firstn in Hr.
  apply (Permutation_in _ Hperm) in Hr.
  apply (Forall2_In_r _ _ _ _ Hall Hr).
- intros Hk.
  assert (Hlen : length all = length (embeddings index))
    by (symmetry; eapply Forall2_length; exact Hall).
  rewrite firstn_all2 by (rewrite sort_length; lia).
  split.
  + rewrite Hperm.
    rewrite (Forall2_map_both _ strip item _ _ (fun x y Hxy => proj1 Hxy) Hall).
    reflexivity.
  + rewrite sort_length. exact Hlen.
Qed.

Lemma semanticSearch_complete_witness :
exists results,
  semanticSearch unitQuery smallIndex (JS.str "security") 5 = inr results
  /\ Permutation (map item results) (map strip (embeddings smallIndex)).
Proof.
destruct (semanticSearch unitQuery smallIndex (JS.str "security") 5)
  as [e | results] eqn:E; [vm_compute in E; discriminate|].
exists results. split; [reflexivity|].
apply (semanticSearch_complete unitQuery smallIndex (JS.str "security") 5
         [1; 0]%float results eq_refl E).
vm_compute. lia.
Defined.

Lemma scoreAll_fails :
forall q l rec,
  In rec l -> incomparable q rec -> exists e, scoreAll q l = inl e.
Proof.
intros q. induction l as [|x l IH]; intros rec Hin Hbad; [destruct Hin|].
cbn [scoreAll]. destruct (score q x) as [e | sim] eqn:Es; [eauto|].
destruct Hin as [-> | Hin].
- exfalso. unfold score, incomparable in *.
  destruct (embedding rec) as [v|]; [|discriminate].
  unfold cosineSimilarity in Es.
  destruct (length q =? length v) eqn:El; [|discriminate].
  apply Nat.eqb_eq in El. congruence.
- destruct (IH rec Hin Hbad) as (e & ->). eauto.
Qed.

(** X20: the search fails as a whole.  An error of the embedding model
  is passed on as it is, and a single stored record without an
  embedding, or with one whose length differs from the query's,
  makes [semanticSearch] throw whatever the other records hold. *)
Theorem semanticSearch_all_or_nothing :
forall (generateEmbedding : JS.jsstring -> JS.jsstring + list float)
       (index : embeddingIndex) (query : JS.jsstring) (topK : nat),
  (forall e, generateEmbedding query = inl e ->
             semanticSearch generateEmbedding index query topK = inl e)
  /\ (forall q rec,
        generateEmbedding query = inr q ->
        In rec (embeddings index) -> incomparable q rec ->
        exists e, semanticSearch generateEmbedding index query topK = inl e).
Proof.
intros generateEmbedding index query topK. unfold semanticSearch. split.
- intros e ->. reflexivity.
- intros q rec -> Hin Hbad.
  destruct (scoreAll_fails q _ rec Hin Hbad) as (e & ->). eauto.
Qed.

Lemma semanticSearch_all_or_nothing_witness :
exists e, semanticSearch unitQuery brokenIndex (JS.str "security") 10 = inl e.
Proof.
apply (proj2 (semanticSearch_all_or_nothing unitQuery brokenIndex (JS.str "security") 10)
             [1; 0]%float (record "a.js::short" [1]%float) eq_refl).
- right. left. reflexivity.
- vm_compute. discriminate.
Defined.

Lemma filter_firstn_complete :
forall {A} (f : A -> bool) l limit x,
  length (List.filter f l) <= limit -> In x l -> f x = true ->
  In x (firstn limit (List.filter f l)).
Proof.
intros A f l limit x Hlen Hin Hf. rewrite firstn_all2 by exact Hlen.
apply filter_In. auto.
Qed.

Lemma firstn_filter_sound :
forall {A} (f : A -> bool) l limit x,
  In x (firstn limit (List.filter f l)) -> In x l /\ f x = true.
Proof. intros A f l limit x H. apply In_firstn in H. apply filter_In in H. exact H. Qed.

(** X21: [findSymbolsByType] and [findSymbolsInFile] return at most
  [limit] records, all of them records of the index of the type (in
  the file) asked for, embedding included; a matching record can be
  missing only when more than [limit] records match. *)
Theorem findSymbols_filtered :
forall (index : embeddingIndex) (key : JS.jsstring) (limit : nat),
  (length (findSymbolsByType index key limit) <= limit
   /\ (forall x, In x (findSymbolsByType index key limit) ->
                 In x (embeddings index) /\ symbolType x = key)
   /\ (forall x, In x (embeddings index) -> symbolType x = key ->
                 In x (findSymbolsByType index key limit)
                 \/ limit < length (List.filter (fun i => JS.eqb (symbolType i) key)
                                                (embeddings index))))
  /\ (length (findSymbolsInFile index key limit) <= limit
      /\ (forall x, In x (findSymbolsInFile index key limit) ->
                    In x (embeddings index) /\ file x = key)
      /\ (forall x, In x (embeddings index) -> file x = key ->
                    In x (findSymbolsInFile index key limit)
                    \/ limit < length (List.filter (fun i => JS.eqb (file i) key)
                                                   (embeddings index)))).
Proof.
intros index key limit. unfold findSymbolsByType, findSymbolsInFile.
split; (split; [apply firstn_le_length|]); split.
- intros x H. apply firstn_filter_sound in H as [H E].
  apply jseqb_eq in E. auto.
- intros x Hin He.
  destruct (Nat.le_gt_cases
              (length (List.filter (fun i => JS.eqb (symbolType i) key) (embeddings index)))
              limit) as [Hle | Hgt]; [left | right; exact Hgt].
  apply filter_firstn_complete; [exact Hle | exact Hin | apply jseqb_eq; exact He].
- intros x H. apply firstn_filter_sound in H as [H E].
  apply jseqb_eq in E. auto.
- intros x Hin He.
  destruct (Nat.le_gt_cases
              (length (List.filter (fun i => JS.eqb (file i) key) (embeddings index)))
              limit) as [Hle | Hgt]; [left | right; exact Hgt].
  apply filter_firstn_complete; [exact Hle | exact Hin | apply jseqb_eq; exact He].
Qed.

End EmbeddingExtras.

(* ================================================================== *)
(** * Compaction, snippets and dependencies *)
(* ================================================================== *)

Section ContextExtras.
Import ContextRetriever.

Lemma compactFile_idem : forall f, compactFile (compactFile f) = compactFile f.
Proof.
intros f. unfold compactFile. cbn. f_equal.
destruct (fc_snippet f) as [sns|]; [|reflexivity].
rewrite firstn_firstn. reflexivity.
Qed.

Lemma firstn_idem : forall {A} n (l : list A), firstn n (firstn n l) = firstn n l.
Proof. intros A n l. rewrite firstn_firstn, Nat.min_id. reflexivity. Qed.

Lemma firstn_map_compact :
forall n (l : list fileContext),
  map compactFile (firstn n (map compactFile (firstn n l)))
  = map compactFile (firstn n l).
Proof.
intros n l. rewrite firstn_map, firstn_idem, map_map.
apply map_ext. apply compactFile_idem.
Qed.

(** X22: compacting is idempotent: the context returned by
  [createCompactContext] is returned unchanged when it is passed in
  again with the same budget. *)
Theorem createCompactContext_idempotent :
forall (c : context) (maxTokens : nat),
  createCompactContext (createCompactContext c maxTokens) maxTokens
  = createCompactContext c maxTokens.
Proof.
intros c maxTokens.
destruct (estimateTokens (formatContextForAI c) <=? maxTokens) eqn:E.
- assert (H : createCompactContext c maxTokens = c)
    by (unfold createCompactContext; rewrite E; reflexivity).
  rewrite H. exact H.
- assert (H : createCompactContext c maxTokens
              = Context (map compactFile (firstn 5 (relevantFiles c)))
                        (firstn 20 (relevantSymbols c))
                        (firstn 10 (callGraph c))
                        (firstn 10 (dependencies c))
                        (ctx_summary c))
    by (unfold createCompactContext; rewrite E; reflexivity).
  rewrite H. unfold createCompactContext.
  match goal with |- context [if ?b then _ else _] => destruct b end; [reflexivity|].
  cbn [relevantFiles relevantSymbols callGraph dependencies ctx_summary].
  rewrite firstn_map_compact, !firstn_idem. reflexivity.
Qed.

Lemma weight_app : forall a b, weight (a ++ b) = weight a + weight b.
Proof. intros a b. unfold weight. rewrite map_app, list_sum_app. reflexivity. Qed.

Lemma weight_cons : forall x l, weight (x :: l) = S (length x) + weight l.
Proof. reflexivity. Qed.

Lemma join_weight :
forall (c : ascii) (l : list JS.jsstring),
  l <> [] -> S (length (JS.join [c] l)) = weight l.
Proof.
intros c. induction l as [|x l IH]; intros Hl; [contradiction|].
destruct l as [|y l].
- cbn. lia.
- change (JS.join [c] (x :: y :: l)) with (x ++ [c] ++ JS.join [c] (y :: l)).
  rewrite weight_cons, !length_app. cbn [length].
  specialize (IH ltac:(discriminate)). lia.
Qed.

Lemma weight_firstn : forall n l, weight (firstn n l) <= weight l.
Proof.
intros n l. rewrite <- (firstn_skipn n l) at 2. rewrite weight_app. lia.
Qed.

Lemma weight_flat_map_firstn :
forall {A} (f : A -> list JS.jsstring) n l,
  weight (flat_map f (firstn n l)) <= weight (flat_map f l).
Proof.
intros A f n l. rewrite <- (firstn_skipn n l) at 2.
rewrite flat_map_app, weight_app. lia.
Qed.

Lemma weight_flat_map_le :
forall {A} (f g : A -> list JS.jsstring) l,
  (forall x, weight (f x) <= weight (g x)) ->
  weight (flat_map f l) <= weight (flat_map g l).
Proof.
intros A f g l H. induction l as [|x l IH]; [reflexivity|].
cbn [flat_map]. rewrite !weight_app. specialize (H x). lia.
Qed.

Lemma firstn_firstn_le :
forall {A} m n (l : list A), m <= n -> firstn m l = firstn m (firstn n l).
Proof. intros A m n l H. rewrite firstn_firstn. f_equal. lia. Qed.

Lemma formatFile_compact :
forall f, weight (formatFile (compactFile f)) <= weight (formatFile f).
Proof.
intros f. unfold formatFile.
cbn [compactFile fc_path fc_language fc_relevantSymbols fc_imports fc_exports fc_snippet].
rewrite !weight_app.
assert (H : weight match match fc_snippet f with
                          | Some sns => Some (firstn 2 sns)
                          | None => None
                          end with
                   | Some ((_ :: _) as sns) =>
                       JS.str "\nCode Snippets:" :: flat_map formatSnippet (firstn 3 sns)
                   | _ => []
                   end
            <= weight match fc_snippet f with
                      | Some ((_ :: _) as sns) =>
                          JS.str "\nCode Snippets:" :: flat_map formatSnippet (firstn 3 sns)
                      | _ => []
                      end).
{ destruct (fc_snippet f) as [[|s r]|]; [reflexivity | | reflexivity].
  change (firstn 2 (s :: r)) with (s :: firstn 1 r).
  rewrite !weight_cons. apply Nat.add_le_mono_l.
  change (s :: firstn 1 r) with (firstn 2 (s :: r)).
  rewrite firstn_firstn. change (Nat.min 3 2) with 2.
  rewrite (firstn_firstn_le 2 3) by lia.
  apply weight_flat_map_firstn. }
lia.
Qed.

Lemma dependencies_compact :
forall (render : dependency -> JS.jsstring) (hdr : JS.jsstring) (d : list dependency),
  weight (if 0 <? length (firstn 10 d)
          then hdr :: map render (firstn 20 (firstn 10 d)) else [])
  <= weight (if 0 <? length d then hdr :: map render (firstn 20 d) else []).
Proof.
intros render hdr d. destruct d as [|x d]; [reflexivity|].
change (0 <? length (firstn 10 (x :: d))) with true.
change (0 <? length (x :: d)) with true. cbv iota.
rewrite !weight_cons. apply Nat.add_le_mono_l.
rewrite firstn_firstn. change (Nat.min 20 10) with 10.
rewrite (firstn_firstn_le 10 20) by lia.
rewrite <- firstn_map. apply weight_firstn.
Qed.

Lemma formatContextForAI_compact :
forall c,
  length (formatContextForAI
            (Context (map compactFile (firstn 5 (relevantFiles c)))
                     (firstn 20 (relevantSymbols c))
                     (firstn 10 (callGraph c))
                     (firstn 10 (dependencies c))
                     (ctx_summary c)))
  <= length (formatContextForAI c).
Proof.
intros c. unfold formatContextForAI. cbv zeta.
cbn [relevantFiles dependencies ctx_summary].
change (JS.str "\n") with [JS.nl].
apply le_S_n.
rewrite !join_weight by discriminate.
rewrite !weight_app.
pose proof (dependencies_compact
              (fun d => dep_from d ++ JS.str " -> " ++ dep_to d
                        ++ JS.str " (" ++ dep_symbol d ++ JS.str ")")
              (JS.str "\n=== DEPENDENCIES ===") (dependencies c)) as Hd.
assert (Hf : weight (flat_map formatFile (map compactFile (firstn 5 (relevantFiles c))))
             <= weight (flat_map formatFile (relevantFiles c))).
{ rewrite flat_map_map.
  etransitivity; [apply weight_flat_map_le, formatFile_compact|].
  apply weight_flat_map_firstn. }
do 3 apply Nat.add_le_mono_l.
apply Nat.add_le_mono; [exact Hf | exact Hd].
Qed.

(** X23: compacting never makes the text for the model longer: the
  formatted compact context is at most as long as the formatted
  context, and so is its estimated token count. *)
Theorem createCompactContext_never_longer :
forall (c : context) (maxTokens : nat),
  length (formatContextForAI (createCompactContext c maxTokens))
  <= length (formatContextForAI c)
  /\ estimateTokens (formatContextForAI (createCompactContext c maxTokens))
     <= estimateTokens (formatContextForAI c).
Proof.
intros c maxTokens.
assert (H : length (formatContextForAI (createCompactContext c maxTokens))
            <= length (formatContextForAI c)).
{ unfold createCompactContext at 1.
  match goal with |- context [if ?b then _ else _] => destruct b end;
    [reflexivity | apply formatContextForAI_compact]. }
split; [exact H|]. unfold estimateTokens.
apply Nat.Div0.div_le_mono. lia.
Qed.

Lemma flat_map_const_length :
forall {A B} (f : A -> list B) n l,
  (forall x, In x l -> length (f x) = n) ->
  length (flat_map f l) = length l * n.
Proof.
intros A B f n l H. induction l as [|x l IH]; [reflexivity|].
cbn [flat_map length]. rewrite length_app, IH, (H x) by (try left; auto with datatypes).
lia.
Qed.

(** X25: [buildDependencyGraph] pairs every import name of a file with
  every import edge whose [from] contains the file's path: these
  pairs are exactly its entries, so a file with [n] imports and [m]
  such edges contributes [n * m] entries. *)
Theorem buildDependencyGraph_pairs :
forall (files : list fileContext) (g : SymbolGraph.graph),
  (forall d,
      In d (buildDependencyGraph files g) <->
      exists file importName e,
        In file files /\ In importName (fc_imports file)
        /\ In e (importEdgesFrom g (fc_path file))
        /\ d = Dependency (fc_path file) (SymbolGraph.e_to e) importName)
  /\ length (buildDependencyGraph files g)
     = list_sum (map (fun file => length (fc_imports file)
                                  * length (importEdgesFrom g (fc_path file)))
                     files).
Proof.
intros files g. unfold buildDependencyGraph, importEdgesFrom. split.
- intros d. rewrite in_flat_map. split.
  + intros (file & Hfile & H). apply in_flat_map in H as (importName & Hi & H).
    apply List.in_map_iff in H as (e & <- & He).
    exists file, importName, e. auto.
  + intros (file & importName & e & Hfile & Hi & He & ->).
    exists file. split; [exact Hfile|]. apply in_flat_map.
    exists importName. split; [exact Hi|].
    apply (in_map (fun e => Dependency (fc_path file) (SymbolGraph.e_to e) importName)).
    exact He.
- induction files as [|file files IH]; [reflexivity|].
  cbn [flat_map map]. rewrite length_app, IH.
  change (list_sum (?a :: ?l)) with (a + list_sum l).
  apply (f_equal (fun n => n + _)).
  rewrite (flat_map_const_length _ (length (List.filter
             (fun e => JS.includes (SymbolGraph.e_from e) (fc_path file)
                       && isImports (SymbolGraph.e_type e))
             (SymbolGraph.edges g)))); [reflexivity|].
  intros x _. apply length_map.
Qed.

(** X26: [buildCallGraph] makes entries for function and method symbols
  only, at most five for each; every entry is an edge of the graph
  whose [from] or [to] contains the symbol's name. *)
Theorem buildCallGraph_bounded :
forall (symbols : list EmbeddingIndex.searchResult) (g : SymbolGraph.graph),
  length (buildCallGraph symbols g) <= 5 * length (List.filter isCallable symbols)
  /\ (forall c,
        In c (buildCallGraph symbols g) ->
        exists s e,
          In s symbols /\ isCallable s = true
          /\ ce_symbolName c = EmbeddingIndex.symbolName (EmbeddingIndex.item s)
          /\ In e (SymbolGraph.edges g)
          /\ caller c = SymbolGraph.e_from e /\ callee c = SymbolGraph.e_to e
          /\ JS.includes (SymbolGraph.e_to e) (ce_symbolName c)
             || JS.includes (SymbolGraph.e_from e) (ce_symbolName c) = true).
Proof.
intros symbols g. unfold buildCallGraph. split.
- induction symbols as [|s symbols IH]; [cbn; lia|].
  cbn [flat_map List.filter]. rewrite length_app. fold (isCallable s).
  destruct (isCallable s); cbn [length].
  + rewrite length_map.
    pose proof (firstn_le_length 5
                  (SymbolGraph.findReferences g
                     (EmbeddingIndex.symbolName (EmbeddingIndex.item s)))).
    lia.
  + lia.
- intros c H. apply in_flat_map in H as (s & Hs & H). cbv zeta in H.
  fold (isCallable s) in H.
  destruct (isCallable s) eqn:E; [|destruct H].
  apply List.in_map_iff in H as (e & <- & He).
  apply In_firstn in He. unfold SymbolGraph.findReferences in He.
  apply filter_In in He as [He Hinc].
  exists s, e. cbn [ce_symbolName caller callee]. auto 10.
Qed.

End ContextExtras.

Section SnippetFacts.
Import ContextRetriever.

Lemma digit_not_nl :
forall k, k < 10 -> ascii_of_nat (48 + k) <> JS.nl.
Proof.
intros k Hk.
do 10 (destruct k as [|k]; [vm_compute; discriminate|]). lia.
Qed.

Lemma digitsFuel_no_nl :
forall fuel n acc,
  JS.count JS.nl (JS.digitsFuel fuel n acc) = JS.count JS.nl acc.
Proof.
induction fuel as [|fuel IH]; intros n acc; cbn [JS.digitsFuel]; [reflexivity|].
assert (Hd : JS.count JS.nl (ascii_of_nat (48 + Z.to_nat (n mod 10)) :: acc)
             = JS.count JS.nl acc).
{ rewrite count_cons.
  destruct (ascii_dec (ascii_of_nat (48 + Z.to_nat (n mod 10))) JS.nl) as [E|_];
    [|reflexivity].
  exfalso. revert E. apply digit_not_nl.
  pose proof (Z.mod_pos_bound n 10 ltac:(lia)). lia. }
destruct (n <? 10)%Z; [exact Hd|]. rewrite IH. exact Hd.
Qed.

Lemma ofNat_no_nl : forall n, JS.count JS.nl (JS.ofNat n) = 0.
Proof. intros n. unfold JS.ofNat, JS.ofZ. apply digitsFuel_no_nl. Qed.

Lemma split_no_sep :
forall sep s, Forall (fun l => JS.count sep l = 0) (JS.split sep s).
Proof.
intros sep. induction s as [|c s IH]; cbn [JS.split].
- constructor; [reflexivity | constructor].
- destruct (JS.chr_eqb c sep) eqn:E.
  + constructor; [reflexivity | exact IH].
  + destruct (JS.split sep s) as [|l ls].
    * constructor; [|constructor]. rewrite count_cons.
      destruct (ascii_dec c sep) as [->|_]; [|reflexivity].
      assert (JS.chr_eqb sep sep = true) by (apply chr_eqb_eq; reflexivity). congruence.
    * apply Forall_cons_iff in IH as [Hl Hls]. constructor; [|exact Hls].
      rewrite count_cons, Hl.
      destruct (ascii_dec c sep) as [->|_]; [|reflexivity].
      assert (JS.chr_eqb sep sep = true) by (apply chr_eqb_eq; reflexivity). congruence.
Qed.

Lemma nth_no_nl :
forall (lines : list JS.jsstring) i,
  Forall (fun l => JS.count JS.nl l = 0) lines ->
  JS.count JS.nl (nth i lines []) = 0.
Proof.
intros lines i H. destruct (Nat.lt_ge_cases i (length lines)) as [Hi | Hi].
- rewrite List.Forall_forall in H. apply H. apply nth_In. exact Hi.
- rewrite nth_overflow by exact Hi. reflexivity.
Qed.

Lemma renderLine_one :
forall lines i,
  Forall (fun l => JS.count JS.nl l = 0) lines ->
  JS.count JS.nl (renderLine lines i) = 1.
Proof.
intros lines i H. unfold renderLine.
rewrite !count_app, ofNat_no_nl, (nth_no_nl lines i H). reflexivity.
Qed.

Lemma renderLine_not_nil : forall lines i, renderLine lines i <> [].
Proof.
intros lines i E. unfold renderLine in E.
apply app_eq_nil in E as [_ E]. apply app_eq_nil in E as [_ E].
apply app_eq_nil in E as [_ E]. vm_compute in E. discriminate.
Qed.

(** The inner loop: every line it appends is new to [addedLines]. *)
Lemma addLines_spec :
forall lines, Forall (fun l => JS.count JS.nl l = 0) lines ->
forall (range : list nat) (code : JS.jsstring) (added : gset nat),
  let r := fold_left (addLine lines) range (code, added) in
  JS.count JS.nl (fst r) + size added = JS.count JS.nl code + size (snd r)
  /\ size (snd r) <= size added + length range
  /\ size added <= size (snd r)
  /\ (forall j, j ∈ snd r -> j ∈ added \/ In j range)
  /\ (fst r = [] -> size (snd r) = size added).
Proof.
intros lines Hlines. induction range as [|i range IH]; intros code added.
- cbv zeta. cbn [fold_left fst snd length].
  split; [reflexivity|]. split; [lia|]. split; [lia|]. split; [auto | reflexivity].
- cbv zeta. cbn [fold_left].
  change (addLine lines (code, added) i)
    with (if bool_decide (i ∈ added) then (code, added)
          else (code ++ renderLine lines i, {[i]} ∪ added)).
  destruct (bool_decide (i ∈ added)) eqn:Ei.
  + destruct (IH code added) as (H1 & H2 & H3 & H4 & H5). cbv zeta in *.
    cbn [length]. split; [exact H1|]. split; [lia|]. split; [exact H3|].
    split; [|exact H5]. intros j Hj. destruct (H4 j Hj); [left | right; right]; auto.
  + apply bool_decide_eq_false in Ei.
    destruct (IH (code ++ renderLine lines i) ({[i]} ∪ added)) as (H1 & H2 & H3 & H4 & H5).
    cbv zeta in *.
    assert (Hsize : size ({[i]} ∪ added) = S (size added)).
    { rewrite size_union by (apply disjoint_singleton_l; exact Ei).
      rewrite size_singleton. reflexivity. }
    rewrite count_app, (renderLine_one lines i Hlines), Hsize in H1.
    rewrite Hsize in H2, H3. cbn [length].
    unfold JS.jsstring in *.
    split; [lia|]. split; [lia|]. split; [lia|]. split.
    * intros j Hj. destruct (H4 j Hj) as [Hu | Hr]; [|right; right; exact Hr].
      apply elem_of_union in Hu as [Hu | Hu]; [|left; exact Hu].
      apply elem_of_singleton in Hu. subst j. right. left. reflexivity.
    * intros Hnil. exfalso. rewrite Hnil in H1.
      change (JS.count JS.nl []) with 0 in H1. lia.
Qed.

Lemma list_sum_snoc : forall l x, list_sum (l ++ [x]) = list_sum l + x.
Proof. intros l x. rewrite list_sum_app. cbn. lia. Qed.

(** One symbol: what the loop body keeps true. *)
Lemma snippetStep_spec :
forall lines symbols,
  Forall (fun l => JS.count JS.nl l = 0) lines ->
  forall (sns : list snippet) (added : gset nat) sym,
    In sym symbols ->
    list_sum (map linesShown sns) = size added ->
    (forall j, j ∈ added -> j < length lines) ->
    Forall (fun s => sn_code s <> [] /\ linesShown s <= 11 /\ snippetOf symbols s) sns ->
    let r := snippetStep lines (sns, added) sym in
    list_sum (map linesShown (fst r)) = size (snd r)
    /\ (forall j, j ∈ snd r -> j < length lines)
    /\ Forall (fun s => sn_code s <> [] /\ linesShown s <= 11 /\ snippetOf symbols s)
              (fst r)
    /\ length (fst r) <= S (length sns).
Proof.
intros lines symbols Hlines sns added sym Hin Hsum Hadded Hall. cbv zeta.
unfold snippetStep. cbn [fst snd].
destruct (EmbeddingIndex.line sym) as [[|l']|] eqn:El;
  try (cbn [fst snd]; split; [exact Hsum|]; split; [exact Hadded|];
       split; [exact Hall | lia]).
set (line := S l') in *.
set (range := seq (line - contextLines - 1)
                  (Nat.min (length lines) (line + contextLines)
                   - (line - contextLines - 1))).
destruct (addLines_spec lines Hlines range [] added) as (H1 & H2 & H3 & H4 & H5).
cbv zeta in H1, H2, H3, H4, H5.
change (JS.count JS.nl []) with 0 in H1.
assert (Hlen : length range <= 11).
{ subst range. rewrite length_seq. unfold contextLines. lia. }
assert (Hrange : forall j, In j range -> j < length lines).
{ intros j Hj. subst range. apply in_seq in Hj. lia. }
assert (Hadded' :
          forall j, j ∈ snd (fold_left (addLine lines) range ([], added)) ->
                    j < length lines).
{ intros j Hj. destruct (H4 j Hj); auto. }
unfold JS.jsstring in *.
match goal with
| |- context [match ?x with [] => _ | _ :: _ => _ end] =>
    destruct x as [|c code] eqn:Ecode
end; cbn [fst snd].
- split; [first [rewrite (H5 eq_refl) | rewrite (H5 Ecode)]; exact Hsum|].
  split; [exact Hadded'|].
  split; [exact Hall | lia].
- split; [|split; [exact Hadded'|split]].
  + rewrite map_app. cbn [map]. rewrite list_sum_snoc, Hsum.
    unfold linesShown. cbn [sn_code]. lia.
  + apply Forall_app. split; [exact Hall|]. constructor; [|constructor].
    cbn [sn_code]. split; [discriminate|]. split.
    * unfold linesShown. cbn [sn_code]. lia.
    * exists sym, line. cbn [sn_symbolName sn_line]. subst line.
      split; [exact Hin|]. split; [exact El|]. split; [lia|]. split; reflexivity.
  + rewrite length_app. cbn [length]. lia.
Qed.

Lemma snippets_spec :
forall lines symbols,
  Forall (fun l => JS.count JS.nl l = 0) lines ->
  forall (todo : list EmbeddingIndex.embeddingRecord) (sns : list snippet)
         (added : gset nat),
    (forall sym, In sym todo -> In sym symbols) ->
    list_sum (map linesShown sns) = size added ->
    (forall j, j ∈ added -> j < length lines) ->
    Forall (fun s => sn_code s <> [] /\ linesShown s <= 11 /\ snippetOf symbols s) sns ->
    let r := fold_left (snippetStep lines) todo (sns, added) in
    list_sum (map linesShown (fst r)) = size (snd r)
    /\ (forall j, j ∈ snd r -> j < length lines)
    /\ Forall (fun s => sn_code s <> [] /\ linesShown s <= 11 /\ snippetOf symbols s)
              (fst r)
    /\ length (fst r) <= length sns + length todo.
Proof.
intros lines symbols Hlines. induction todo as [|sym todo IH];
  intros sns added Hsub Hsum Hadded Hall; cbv zeta.
- cbn [fold_left fst snd length]. split; [exact Hsum|]. split; [exact Hadded|].
  split; [exact Hall | lia].
- cbn [fold_left].
  destruct (snippetStep_spec lines symbols Hlines sns added sym
              (Hsub sym (or_introl eq_refl)) Hsum Hadded Hall)
    as (S1 & S2 & S3 & S4).
  cbv zeta in S1, S2, S3, S4.
  destruct (snippetStep lines (sns, added) sym) as [sns' added'].
  cbn [fst snd] in S1, S2, S3, S4.
  destruct (IH sns' added' (fun s H => Hsub s (or_intror H)) S1 S2 S3)
    as (I1 & I2 & I3 & I4).
  cbv zeta in I1, I2, I3, I4.
  split; [exact I1|]. split; [exact I2|]. split; [exact I3|].
  cbn [length]. lia.
Qed.

Lemma size_below :
forall (X : gset nat) n, (forall j, j ∈ X -> j < n) -> size X <= n.
Proof.
intros X n H.
rewrite <- (size_set_seq (C := gset nat) 0 n).
apply subseteq_size. intros j Hj. apply elem_of_set_seq. specialize (H j Hj). lia.
Qed.

(** X24: [extractRelevantSnippets] makes at most five snippets, none
  empty and none longer than eleven lines, each for one of the first
  five symbols that has a line other than 0; no line of the content
  is shown twice, so the snippets together show at most as many
  lines as the content has. *)
Theorem extractRelevantSnippets_bounds :
forall (content : JS.jsstring) (symbols : list EmbeddingIndex.embeddingRecord),
  let sns := extractRelevantSnippets content symbols in
  length sns <= 5
  /\ length sns <= length symbols
  /\ Forall (fun s => sn_code s <> [] /\ linesShown s <= 11
                      /\ snippetOf (firstn 5 symbols) s) sns
  /\ list_sum (map linesShown sns) <= length (JS.split JS.nl content).
Proof.
intros content symbols. cbv zeta. unfold extractRelevantSnippets.
destruct (snippets_spec (JS.split JS.nl content) (firstn 5 symbols)
            (split_no_sep JS.nl content) (firstn 5 symbols) [] ∅
            (fun s H => H))
  as (H1 & H2 & H3 & H4).
- rewrite size_empty. reflexivity.
- intros j Hj. apply elem_of_empty in Hj. destruct Hj.
- constructor.
- cbv zeta in H1, H2, H3, H4. cbn [length] in H4.
  rewrite length_firstn in H4.
  split; [lia|]. split; [lia|]. split; [exact H3|].
  rewrite H1. apply size_below. exact H2.
Qed.

End SnippetFacts.

